(** * Financial-advisor agent: message orchestrator and context retriever

    A shallow embedding of [lib/rag.ts] (class [RAGService]), of the
    credential factories of [lib/gmail.ts], [lib/hubspot.ts] and
    [lib/calendar.ts] and of
    the agent module (class [FinancialAdvisorAgent]: [processMessage],
    [handleFallbackResponse], [executeToolCall], [processWebhookEvent]),
    followed by the text handling of [lib/gmail.ts], the grouping of the
    chat history route, the slot finder and event search of
    [lib/calendar.ts] and the mailbox import of [lib/rag.ts].

    Asynchronous TypeScript is modelled in a state-and-exception monad:
    a computation takes the world (database tables, the state of the
    external providers, the trace of interactions performed so far) and
    returns either a value or a thrown JavaScript value, together with
    the new world.  Effects performed before a [throw] persist, as they do
    in JavaScript.  Every external provider (embedding model, language
    model, Gmail/HubSpot/Calendar clients, database availability) is an
    arbitrary oracle of the environment, so a theorem that quantifies
    over the environment holds for every behaviour of the providers. *)

From Stdlib Require Import String Ascii List ZArith QArith Bool Arith Lia.
From Stdlib Require Import Sorting.Sorted Sorting.Permutation DecimalString.
Import ListNotations.
Open Scope string_scope.
Open Scope list_scope.

Set Implicit Arguments.
Set Warnings "-register-all".

(* ================================================================== *)
(** ** JavaScript strings (ASCII model) *)
(* ================================================================== *)

Module JsString.

(** [String.prototype.toLowerCase], on ASCII letters. *)
Definition lower_ascii (c : ascii) : ascii :=
  let n := nat_of_ascii c in
  if andb (65 <=? n)%nat (n <=? 90)%nat then ascii_of_nat (n + 32) else c.

Fixpoint toLowerCase (s : string) : string :=
  match s with
  | EmptyString => EmptyString
  | String c t => String (lower_ascii c) (toLowerCase t)
  end.

(** [s.split(sep)] for a one-character separator: always at least one
    piece; ["".split(" ")] is [[""]]. *)
Fixpoint split (sep : ascii) (s : string) : list string :=
  match s with
  | EmptyString => [EmptyString]
  | String c t =>
      if Ascii.eqb c sep then EmptyString :: split sep t
      else match split sep t with
           | [] => [String c EmptyString]
           | p :: ps => String c p :: ps
           end
  end.

(** [hay.includes(needle)]. *)
Fixpoint includes (needle hay : string) : bool :=
  if String.prefix needle hay then true
  else match hay with
       | EmptyString => false
       | String _ t => includes needle t
       end.

(** PostgreSQL's [text LIKE pattern]: in the pattern [%] stands for any
    run of characters, [_] for any one character, and a backslash makes
    the pattern character after it literal (a pattern that ends in a lone
    backslash is an error; the patterns built below end in [%]). *)
Fixpoint like (pattern : string) : string -> bool :=
  match pattern with
  | EmptyString => fun text => match text with EmptyString => true | _ => false end
  | String p rest =>
      if Ascii.eqb p "%" then
        fix any (text : string) : bool :=
          like rest text
          || match text with
             | EmptyString => false
             | String _ t => any t
             end
      else if Ascii.eqb p "_" then
        fun text => match text with
                    | String _ t => like rest t
                    | EmptyString => false
                    end
      else if Ascii.eqb p "\" then
        match rest with
        | EmptyString => fun _ => false
        | String q rest' =>
            fun text => match text with
                        | String c t => Ascii.eqb c q && like rest' t
                        | EmptyString => false
                        end
        end
      else
        fun text => match text with
                    | String c t => Ascii.eqb c p && like rest t
                    | EmptyString => false
                    end
  end.

(** Prisma's [{ contains: term, mode: 'insensitive' }] on PostgreSQL:
    [field ILIKE '%term%'], the term being pasted into the pattern as it
    is, so that [%], [_] and the backslash in it keep their meaning. *)
Definition contains_insensitive (term field : string) : bool :=
  like ("%" ++ toLowerCase term ++ "%") (toLowerCase field).

Definition space : ascii := " "%char.

(** JavaScript truthiness of a string: only [""] is falsy. *)
Definition truthy (s : string) : bool :=
  match s with EmptyString => false | _ => true end.

End JsString.

(* ================================================================== *)
(** ** JavaScript values and thrown values *)
(* ================================================================== *)

(** Values that travel through [JSON.parse] / [JSON.stringify] and through
    the collaborators' replies. *)
Inductive JsVal : Type :=
| JUndefined
| JNull
| JBool (b : bool)
| JNum (n : Z)
| JStr (s : string)
| JArr (items : list JsVal)
| JObj (fields : list (string * JsVal)).

(** What a [throw] carries: an [Error] object (message, optional [code]
    property) or any other value, kept by its [String(...)] rendering. *)
Inductive JsThrown : Type :=
| JsError (message : string) (code : option string)
| JsOther (rendering : string).

(** [error instanceof Error ? error.message : String(error)] *)
Definition error_text (e : JsThrown) : string :=
  match e with
  | JsError m _ => m
  | JsOther r => r
  end.

(** [error && typeof error === 'object' && 'code' in error &&
     error.code === 'unsupported_country_region_territory'] *)
Definition is_region_error (e : JsThrown) : bool :=
  match e with
  | JsError _ (Some c) => String.eqb c "unsupported_country_region_territory"
  | _ => false
  end.

Definition TypeError (m : string) : JsThrown := JsError m None.

(** A thrown value or a result. *)
Inductive Res (A : Type) : Type :=
| Ok (a : A)
| Throw (e : JsThrown).
Arguments Ok {A} a.
Arguments Throw {A} e.

Module Js.

Definition truthy (v : JsVal) : bool :=
  match v with
  | JUndefined | JNull => false
  | JBool b => b
  | JNum n => negb (Z.eqb n 0)
  | JStr s => JsString.truthy s
  | JArr _ | JObj _ => true
  end.

Fixpoint lookup (k : string) (fs : list (string * JsVal)) : JsVal :=
  match fs with
  | [] => JUndefined
  | (k', v) :: t => if String.eqb k k' then v else lookup k t
  end.

(** [v.k]: throws on [null] and [undefined], [undefined] when absent. *)
Definition prop (v : JsVal) (k : string) : Res JsVal :=
  match v with
  | JUndefined | JNull => Throw (TypeError "Cannot read properties of null or undefined")
  | JObj fs => Ok (lookup k fs)
  | _ => Ok JUndefined
  end.

End Js.

(* ================================================================== *)
(** ** Ordering by a key, as ORDER BY does *)
(* ================================================================== *)

Section OrderBy.
Variable A : Type.
Variable leb : A -> A -> bool.

Fixpoint insert (x : A) (l : list A) : list A :=
  match l with
  | [] => [x]
  | y :: t => if leb x y then x :: l else y :: insert x t
  end.

(** Stable insertion sort: the order an [ORDER BY] yields, with ties kept
    in table order. *)
Fixpoint order_by (l : list A) : list A :=
  match l with
  | [] => []
  | x :: t => insert x (order_by t)
  end.

End OrderBy.

(* ================================================================== *)
(** ** Data model *)
(* ================================================================== *)

(** Modelled from the spec: the Prisma schema is not among the sources;
    the columns are the ones [lib/rag.ts] writes on import and reads on
    retrieval (spec section 3: Message record, Contact record, optional
    EmbeddingVector).  Timestamps are milliseconds since the epoch. *)
Record EmailRow : Type := {
  e_id : string;
  e_userId : string;
  e_messageId : string;
  e_subject : string;
  e_from : string;
  e_to : string;
  e_body : string;
  e_date : Z;
  e_embedding : option (list Q)
}.

(** Modelled from the spec: a row of the contact corpus, with the columns
    [importHubSpotContacts] writes; the HubSpot properties may be absent,
    hence nullable. *)
Record ContactRow : Type := {
  c_id : string;
  c_userId : string;
  c_contactId : string;
  c_firstName : option string;
  c_lastName : option string;
  c_email : option string;
  c_phone : option string;
  c_company : option string;
  c_notes : option string;
  c_createdAt : Z;
  c_embedding : option (list Q)
}.

(** Modelled from the spec: the linked OAuth account of a user, of which
    the code reads [access_token] only. *)
Record Account : Type := { access_token : option string }.

(** Modelled from the spec: a user, with the standing instructions, the
    HubSpot token that [HubSpotService.createForUser] reads and the
    accounts that [include: { accounts: true }] brings. *)
Record UserRow : Type := {
  u_id : string;
  u_ongoingInstructions : option string;
  u_hubspotAccessToken : option string;
  u_accounts : list Account
}.

(** The three tables the retriever and the agent read. *)
Record Database : Type := {
  emailEmbedding : list EmailRow;
  hubSpotContactEmbedding : list ContactRow;
  user : list UserRow
}.

(** One retrieval hit: [{ type, content, metadata, score }].  [score] is
    the SQL [distance] column on the similarity path ([None] is SQL NULL)
    and the literal 0 on the lexical path. *)
Inductive Metadata : Type :=
| MetaEmail (subject from : string) (date : Z)
| MetaContactSelected (id : string) (firstName lastName email company notes : option string)
                      (distance : option Q)
| MetaContactRow (row : ContactRow).

Record Hit : Type := {
  hit_type : string;
  hit_content : string;
  hit_metadata : Metadata;
  hit_score : option Q
}.

Record SearchResult : Type := { emails : list Hit; contacts : list Hit }.

(** Tool invocation as the completion API types it, and its outcome as
    [processMessage] records it. *)
Record ToolCall : Type := { tc_id : string; tc_name : string; tc_arguments : string }.

Record ToolResult : Type := { tool_call_id : string; tr_role : string; tr_content : string }.

Record AssistantMessage : Type := {
  am_content : option string;
  am_tool_calls : option (list ToolCall)
}.

Inductive ChatMessage : Type :=
| Turn (role content : string)
| AssistantTurn (m : AssistantMessage)
| ToolTurn (r : ToolResult).

Record ChatRequest : Type := {
  req_model : string;
  req_messages : list ChatMessage;
  req_with_tools : bool
}.

(** [response.choices], each entry's [.message]. *)
Record ChatCompletion : Type := { choices : list AssistantMessage }.

(* ================================================================== *)
(** ** External interactions *)
(* ================================================================== *)

Inductive Table : Type := TEmailEmbedding | THubSpotContactEmbedding.

Inductive DbOp : Type :=
| QueryRaw (t : Table)
| FindMany (t : Table)
| UserFindUnique (id : string) (includeAccounts : bool).

(** Operations of the thin service clients (Gmail, HubSpot, Calendar) and
    of the task store; their bodies are outside this development.  A
    client is determined by the access token its constructor received. *)
Inductive CollabOp : Type :=
| GmailGetProfile (accessToken : string)
| GmailSearchMessages (accessToken : string) (query maxResults : JsVal)
| GmailSendEmail (accessToken : string) (to subject body : JsVal)
| HubSpotSearchContacts (accessToken : string) (query : JsVal)
| HubSpotCreateContact (accessToken : string) (contactData : JsVal)
| HubSpotUpdateContact (accessToken : string) (contactId properties : JsVal)
| HubSpotCreateNote (accessToken : string) (contactId note : JsVal)
| CalendarGetAvailableSlots (accessToken : string) (startDate endDate durationMinutes : JsVal)
| CalendarCreateEvent (accessToken : string) (eventData : JsVal)
| CalendarSearchEvents (accessToken : string) (query timeMin timeMax : JsVal)
| TaskCreate (data : JsVal)
| TaskUpdate (taskId data : JsVal).

(** The trace: every interaction with the outside, every entry into the
    tool dispatcher and every console line, in program order. *)
Inductive Event : Type :=
| EvLog (msg : string) (err : option JsThrown)
| EvEmbed (text : string)
| EvChat (req : ChatRequest)
| EvDb (op : DbOp)
| EvCollab (op : CollabOp)
| EvDispatch (toolCall : JsVal).

(** The environment: library functions whose definition is outside the
    repository and the behaviour of each external provider, as a function
    of a provider state [X] that the repository never inspects. *)
Record Env (X : Type) : Type := {
  JSON_parse : JsVal -> Res JsVal;
  JSON_stringify : JsVal -> string;
  render : JsVal -> string;
  embedQuery : string -> X -> Res (list Q) * X;
  cosine_distance : list Q -> list Q -> Q;
  db_fault : DbOp -> X -> option JsThrown * X;
  chat_completions_create : ChatRequest -> X -> Res ChatCompletion * X;
  collab : CollabOp -> X -> Res JsVal * X;
  formatEvent : JsVal -> Res JsVal
}.

Record World (X : Type) : Type := {
  db : Database;
  ext : X;
  trace : list Event
}.

(* ================================================================== *)
(** ** The monad of asynchronous, throwing computations *)
(* ================================================================== *)

Definition M (X A : Type) : Type := World X -> Res A * World X.

Definition ret {X A} (a : A) : M X A := fun w => (Ok a, w).

Definition throw {X A} (e : JsThrown) : M X A := fun w => (Throw e, w).

Definition bind {X A B} (m : M X A) (k : A -> M X B) : M X B :=
  fun w => match m w with
           | (Ok a, w') => k a w'
           | (Throw e, w') => (Throw e, w')
           end.

(** [try { m } catch (error) { h error }] *)
Definition try_catch {X A} (m : M X A) (h : JsThrown -> M X A) : M X A :=
  fun w => match m w with
           | (Ok a, w') => (Ok a, w')
           | (Throw e, w') => h e w'
           end.

Definition lift {X A} (r : Res A) : M X A := fun w => (r, w).

Declare Scope js_scope.
Delimit Scope js_scope with js.
Notation "x <- m ;; k" := (bind m (fun x => k))
  (at level 61, m at next level, right associativity) : js_scope.
Notation "m ;;; k" := (bind m (fun _ => k))
  (at level 61, right associativity) : js_scope.
Open Scope js_scope.

Definition nl : string := String (ascii_of_nat 10) EmptyString.

(** [`${v}`] for a nullable column. *)
Definition show (v : option string) : string :=
  match v with Some s => s | None => "null" end.

Section Program.

Context {X : Type}.
Variable env : Env X.

(* ---------------------------------------------------------------- *)
(** *** Primitive interactions *)
(* ---------------------------------------------------------------- *)

Definition emit (e : Event) : M X unit :=
  fun w => (Ok tt, {| db := db w; ext := ext w; trace := trace w ++ [e] |}).

Definition console (msg : string) (err : option JsThrown) : M X unit :=
  emit (EvLog msg err).

Definition getDb : M X Database := fun w => (Ok (db w), w).

(** A database round trip: recorded, and failing when the database does. *)
Definition db_call (op : DbOp) : M X unit :=
  fun w => let (r, x) := db_fault env op (ext w) in
           let w' := {| db := db w; ext := x; trace := trace w ++ [EvDb op] |} in
           match r with
           | Some e => (Throw e, w')
           | None => (Ok tt, w')
           end.

Definition embeddings_embedQuery (text : string) : M X (list Q) :=
  fun w => let (r, x) := embedQuery env text (ext w) in
           (r, {| db := db w; ext := x; trace := trace w ++ [EvEmbed text] |}).

Definition openai_chat_completions_create (req : ChatRequest) : M X ChatCompletion :=
  fun w => let (r, x) := chat_completions_create env req (ext w) in
           (r, {| db := db w; ext := x; trace := trace w ++ [EvChat req] |}).

Definition call (op : CollabOp) : M X JsVal :=
  fun w => let (r, x) := collab env op (ext w) in
           (r, {| db := db w; ext := x; trace := trace w ++ [EvCollab op] |}).

(* ---------------------------------------------------------------- *)
(** *** [RAGService] ([lib/rag.ts]) *)
(* ---------------------------------------------------------------- *)

(** The two fields the constructor sets: whether [this.embeddings] is a
    client (not [null]) and the [isOpenAIAvailable] flag. *)
Record RAGService : Type := {
  rag_embeddings : bool;
  rag_isOpenAIAvailable : bool
}.

(** [embedding <=> q]: NULL when the stored embedding is NULL. *)
Definition distance (q : list Q) (e : option (list Q)) : option Q :=
  option_map (fun v => cosine_distance env v q) e.

(** Ascending [ORDER BY] on a nullable key: PostgreSQL puts NULL last. *)
Definition distance_leb (a b : option Q) : bool :=
  match a, b with
  | Some x, Some y => Qle_bool x y
  | Some _, None => true
  | None, Some _ => false
  | None, None => true
  end.

(** A row together with its [distance] column. *)
Definition keyed {R : Type} (key : R -> option Q) (r : R) : R * option Q := (r, key r).

(** [ORDER BY embedding <=> q], on rows paired with their distance. *)
Definition by_distance {R : Type} (a b : R * option Q) : bool :=
  distance_leb (snd a) (snd b).

(** [SELECT ..., embedding <=> q AS distance FROM "EmailEmbedding"
     WHERE "userId" = userId ORDER BY embedding <=> q LIMIT limit] *)
Definition rank_emails (userId : string) (q : list Q) (limit : nat)
    (rows : list EmailRow) : list (EmailRow * option Q) :=
  firstn limit
    (order_by by_distance
       (map (keyed (fun r => distance q (e_embedding r)))
          (filter (fun r => String.eqb (e_userId r) userId) rows))).

(** The same query on ["HubSpotContactEmbedding"]. *)
Definition rank_contacts (userId : string) (q : list Q) (limit : nat)
    (rows : list ContactRow) : list (ContactRow * option Q) :=
  firstn limit
    (order_by by_distance
       (map (keyed (fun r => distance q (c_embedding r)))
          (filter (fun r => String.eqb (c_userId r) userId) rows))).

Definition queryRaw_emails (userId : string) (q : list Q) (limit : nat)
    : M X (list (EmailRow * option Q)) :=
  db_call (QueryRaw TEmailEmbedding) ;;;
  d <- getDb ;;
  ret (rank_emails userId q limit (emailEmbedding d)).

Definition queryRaw_contacts (userId : string) (q : list Q) (limit : nat)
    : M X (list (ContactRow * option Q)) :=
  db_call (QueryRaw THubSpotContactEmbedding) ;;;
  d <- getDb ;;
  ret (rank_contacts userId q limit (hubSpotContactEmbedding d)).

Definition email_content (r : EmailRow) : string :=
  "Subject: " ++ e_subject r ++ nl ++ "From: " ++ e_from r ++ nl ++
  "To: " ++ e_to r ++ nl ++ "Body: " ++ e_body r.

Definition contact_content (r : ContactRow) : string :=
  "Name: " ++ show (c_firstName r) ++ " " ++ show (c_lastName r) ++ nl ++
  "Email: " ++ show (c_email r) ++ nl ++
  "Company: " ++ show (c_company r) ++ nl ++
  "Notes: " ++ show (c_notes r).

Definition similarity_email_hit (p : EmailRow * option Q) : Hit :=
  let (r, d) := p in
  {| hit_type := "email";
     hit_content := email_content r;
     hit_metadata := MetaEmail (e_subject r) (e_from r) (e_date r);
     hit_score := d |}.

Definition similarity_contact_hit (p : ContactRow * option Q) : Hit :=
  let (r, d) := p in
  {| hit_type := "contact";
     hit_content := contact_content r;
     hit_metadata := MetaContactSelected (c_id r) (c_firstName r) (c_lastName r)
                       (c_email r) (c_company r) (c_notes r) d;
     hit_score := d |}.

(** [query.toLowerCase().split(' ').filter(term => term.length > 2)] *)
Definition searchTerms (query : string) : list string :=
  filter (fun term => (2 <? String.length term)%nat)
    (JsString.split JsString.space (JsString.toLowerCase query)).

Definition contains_opt (term : string) (field : option string) : bool :=
  match field with
  | Some f => JsString.contains_insensitive term f
  | None => false
  end.

(** [OR: searchTerms.map(term => ({ OR: [subject, body, from] }))]:
    an empty [OR] list is false. *)
Definition email_matches (terms : list string) (r : EmailRow) : bool :=
  existsb (fun term =>
             JsString.contains_insensitive term (e_subject r)
             || JsString.contains_insensitive term (e_body r)
             || JsString.contains_insensitive term (e_from r)) terms.

Definition contact_matches (terms : list string) (r : ContactRow) : bool :=
  existsb (fun term =>
             contains_opt term (c_firstName r)
             || contains_opt term (c_lastName r)
             || contains_opt term (c_email r)
             || contains_opt term (c_company r)
             || contains_opt term (c_notes r)) terms.

(** [findMany({ where: { userId, OR }, orderBy: { date: 'desc' }, take })] *)
Definition select_emails (userId : string) (terms : list string) (limit : nat)
    (rows : list EmailRow) : list EmailRow :=
  firstn limit
    (order_by (fun a b => (e_date b <=? e_date a)%Z)
       (filter (fun r => String.eqb (e_userId r) userId && email_matches terms r) rows)).

(** [findMany({ where: { userId, OR }, orderBy: { createdAt: 'desc' }, take })] *)
Definition select_contacts (userId : string) (terms : list string) (limit : nat)
    (rows : list ContactRow) : list ContactRow :=
  firstn limit
    (order_by (fun a b => (c_createdAt b <=? c_createdAt a)%Z)
       (filter (fun r => String.eqb (c_userId r) userId && contact_matches terms r) rows)).

Definition findMany_emails (userId : string) (terms : list string) (limit : nat)
    : M X (list EmailRow) :=
  db_call (FindMany TEmailEmbedding) ;;;
  d <- getDb ;;
  ret (select_emails userId terms limit (emailEmbedding d)).

Definition findMany_contacts (userId : string) (terms : list string) (limit : nat)
    : M X (list ContactRow) :=
  db_call (FindMany THubSpotContactEmbedding) ;;;
  d <- getDb ;;
  ret (select_contacts userId terms limit (hubSpotContactEmbedding d)).

Definition lexical_email_hit (r : EmailRow) : Hit :=
  {| hit_type := "email";
     hit_content := email_content r;
     hit_metadata := MetaEmail (e_subject r) (e_from r) (e_date r);
     hit_score := Some 0%Q |}.

Definition lexical_contact_hit (r : ContactRow) : Hit :=
  {| hit_type := "contact";
     hit_content := contact_content r;
     hit_metadata := MetaContactRow r;
     hit_score := Some 0%Q |}.

(** [RAGService.simpleTextSearch] *)
Definition simpleTextSearch (userId query : string) (limit : nat) : M X SearchResult :=
  try_catch
    (let terms := searchTerms query in
     emailResults <- findMany_emails userId terms limit ;;
     contactResults <- findMany_contacts userId terms limit ;;
     ret {| emails := map lexical_email_hit emailResults;
            contacts := map lexical_contact_hit contactResults |})
    (fun error =>
       console "Error in simple text search:" (Some error) ;;;
       ret {| emails := []; contacts := [] |}).

(** [RAGService.searchRelevantContext] *)
Definition searchRelevantContext (rag : RAGService) (userId query : string) (limit : nat)
    : M X SearchResult :=
  try_catch
    (if negb (rag_isOpenAIAvailable rag) || negb (rag_embeddings rag)
     then simpleTextSearch userId query limit
     else
       queryEmbedding <- embeddings_embedQuery query ;;
       emailResults <- queryRaw_emails userId queryEmbedding limit ;;
       contactResults <- queryRaw_contacts userId queryEmbedding limit ;;
       ret {| emails := map similarity_email_hit emailResults;
              contacts := map similarity_contact_hit contactResults |})
    (fun error =>
       console "Error searching relevant context:" (Some error) ;;;
       simpleTextSearch userId query limit).

(** [RAGService.getContextForQuestion] *)
Definition getContextForQuestion (rag : RAGService) (userId question : string) : M X string :=
  results <- searchRelevantContext rag userId question 10 ;;
  ret (String.concat (nl ++ nl)
         (map (fun r => ("Email: " ++ hit_content r)%string) (emails results)
          ++ map (fun r => ("Contact: " ++ hit_content r)%string) (contacts results))).

(* ---------------------------------------------------------------- *)
(** *** [GmailService] factories ([lib/gmail.ts]) *)
(* ---------------------------------------------------------------- *)

(** A [GmailService] instance is determined by the access token its
    constructor received. *)
Definition GmailService : Type := string.

(** [prisma.user.findUnique({ where: { id }, include? })] *)
Definition user_findUnique (id : string) (includeAccounts : bool) : M X (option UserRow) :=
  db_call (UserFindUnique id includeAccounts) ;;;
  d <- getDb ;;
  ret (find (fun u => String.eqb (u_id u) id) (user d)).

(** [user?.accounts?.[0]?.access_token], when truthy. *)
Definition stored_access_token (u : option UserRow) : option string :=
  match u with
  | Some u =>
      match u_accounts u with
      | a :: _ =>
          match access_token a with
          | Some t => if JsString.truthy t then Some t else None
          | None => None
          end
      | [] => None
      end
  | None => None
  end.

(** [GmailService.createForUser] *)
Definition GmailService_createForUser (userId : string) : M X GmailService :=
  u <- user_findUnique userId true ;;
  match stored_access_token u with
  | None =>
      throw (JsError "Gmail not connected for this user. Please sign in with Google to connect your Gmail account." None)
  | Some t => ret t
  end.

(** [GmailService.createForUserWithSession] *)
Definition GmailService_createForUserWithSession (userId sessionToken : string)
    : M X GmailService :=
  try_catch
    (let gmailService := sessionToken in
     call (GmailGetProfile gmailService) ;;;
     ret gmailService)
    (fun error =>
       console "Session token failed, falling back to database token:" (Some error) ;;;
       GmailService_createForUser userId).

(* ---------------------------------------------------------------- *)
(** *** The factories of [lib/hubspot.ts] and [lib/calendar.ts] *)
(* ---------------------------------------------------------------- *)

(** As for [GmailService]: an instance is determined by the access token
    its constructor received. *)
Definition HubSpotService : Type := string.
Definition CalendarService : Type := string.

(** [user?.hubspotAccessToken], when truthy. *)
Definition hubspot_access_token (u : option UserRow) : option string :=
  match u with
  | Some u =>
      match u_hubspotAccessToken u with
      | Some t => if JsString.truthy t then Some t else None
      | None => None
      end
  | None => None
  end.

(** [HubSpotService.createForUser] *)
Definition HubSpotService_createForUser (userId : string) : M X HubSpotService :=
  u <- user_findUnique userId false ;;
  match hubspot_access_token u with
  | None => throw (JsError "HubSpot not connected for this user" None)
  | Some t => ret t
  end.

(** [CalendarService.createForUser] *)
Definition CalendarService_createForUser (userId : string) : M X CalendarService :=
  u <- user_findUnique userId true ;;
  match stored_access_token u with
  | None => throw (JsError "Calendar not connected for this user" None)
  | Some t => ret t
  end.

(* ---------------------------------------------------------------- *)
(** *** [FinancialAdvisorAgent] *)
(* ---------------------------------------------------------------- *)

(** The fields the constructor sets; [openai] tells whether the client is
    an object (not [null]). *)
Record FinancialAdvisorAgent : Type := {
  openai : bool;
  userId : string;
  rag : RAGService;
  isOpenAIAvailable : bool;
  sessionToken : option string
}.

(** The names declared by [getTools], in declaration order. *)
Definition tool_names : list string :=
  [ "search_emails"; "search_contacts"; "create_contact"; "update_contact";
    "add_contact_note"; "send_email"; "get_available_slots";
    "create_calendar_event"; "search_calendar_events"; "create_task";
    "update_task" ].

Inductive ToolName : Type :=
| SearchEmails | SearchContacts | CreateContact | UpdateContact | AddContactNote
| SendEmail | GetAvailableSlots | CreateCalendarEvent | SearchCalendarEvents
| CreateTask | UpdateTask.

(** The [case] labels of the [switch (name)] in [executeToolCall]. *)
Definition tool_of_name (n : string) : option ToolName :=
  if String.eqb n "search_emails" then Some SearchEmails
  else if String.eqb n "search_contacts" then Some SearchContacts
  else if String.eqb n "create_contact" then Some CreateContact
  else if String.eqb n "update_contact" then Some UpdateContact
  else if String.eqb n "add_contact_note" then Some AddContactNote
  else if String.eqb n "send_email" then Some SendEmail
  else if String.eqb n "get_available_slots" then Some GetAvailableSlots
  else if String.eqb n "create_calendar_event" then Some CreateCalendarEvent
  else if String.eqb n "search_calendar_events" then Some SearchCalendarEvents
  else if String.eqb n "create_task" then Some CreateTask
  else if String.eqb n "update_task" then Some UpdateTask
  else None.

(** The credential block that the [search_emails] and [send_email] cases
    both spell out:
    [if (this.sessionToken) { try { createForUserWithSession } catch
     { createForUser } } else { createForUser }]. *)
Definition gmail_for_tool (agent : FinancialAdvisorAgent) : M X GmailService :=
  match sessionToken agent with
  | Some tok =>
      if JsString.truthy tok then
        try_catch
          (GmailService_createForUserWithSession (userId agent) tok)
          (fun error =>
             console "Failed to create Gmail service with session token, falling back to database token:" (Some error) ;;;
             GmailService_createForUser (userId agent))
      else GmailService_createForUser (userId agent)
  | None => GmailService_createForUser (userId agent)
  end.

(** [parsedArgs.attendees?.map((email) => ({ email }))] *)
Definition attendees_objects (attendees : JsVal) : Res JsVal :=
  match attendees with
  | JUndefined | JNull => Ok JUndefined
  | JArr l => Ok (JArr (map (fun email => JObj [("email", email)]) l))
  | _ => Throw (TypeError "parsedArgs.attendees?.map is not a function")
  end.

Definition unknown_tool (name : string) : JsThrown :=
  JsError ("Unknown tool: " ++ name) None.

(** [`${name}`]: a string as it is, anything else by its rendering. *)
Definition name_text (name : JsVal) : string :=
  match name with
  | JStr n => n
  | v => render env v
  end.

(** The body of each [case]. *)
Definition run_tool (agent : FinancialAdvisorAgent) (t : ToolName) (parsedArgs : JsVal)
    : M X JsVal :=
  match t with
  | SearchEmails =>
      gmail <- gmail_for_tool agent ;;
      query <- lift (Js.prop parsedArgs "query") ;;
      maxResults <- lift (Js.prop parsedArgs "maxResults") ;;
      call (GmailSearchMessages gmail query maxResults)
  | SearchContacts =>
      hubspot <- HubSpotService_createForUser (userId agent) ;;
      query <- lift (Js.prop parsedArgs "query") ;;
      call (HubSpotSearchContacts hubspot query)
  | CreateContact =>
      hubspotCreate <- HubSpotService_createForUser (userId agent) ;;
      call (HubSpotCreateContact hubspotCreate parsedArgs)
  | UpdateContact =>
      hubspotUpdate <- HubSpotService_createForUser (userId agent) ;;
      contactId <- lift (Js.prop parsedArgs "contactId") ;;
      properties <- lift (Js.prop parsedArgs "properties") ;;
      call (HubSpotUpdateContact hubspotUpdate contactId properties)
  | AddContactNote =>
      hubspotNote <- HubSpotService_createForUser (userId agent) ;;
      contactId <- lift (Js.prop parsedArgs "contactId") ;;
      note <- lift (Js.prop parsedArgs "note") ;;
      call (HubSpotCreateNote hubspotNote contactId note)
  | SendEmail =>
      gmailSend <- gmail_for_tool agent ;;
      to <- lift (Js.prop parsedArgs "to") ;;
      subject <- lift (Js.prop parsedArgs "subject") ;;
      body <- lift (Js.prop parsedArgs "body") ;;
      call (GmailSendEmail gmailSend to subject body)
  | GetAvailableSlots =>
      calendar <- CalendarService_createForUser (userId agent) ;;
      startDate <- lift (Js.prop parsedArgs "startDate") ;;
      endDate <- lift (Js.prop parsedArgs "endDate") ;;
      durationMinutes <- lift (Js.prop parsedArgs "durationMinutes") ;;
      call (CalendarGetAvailableSlots calendar startDate endDate durationMinutes)
  | CreateCalendarEvent =>
      calendarCreate <- CalendarService_createForUser (userId agent) ;;
      summary <- lift (Js.prop parsedArgs "summary") ;;
      description <- lift (Js.prop parsedArgs "description") ;;
      start <- lift (Js.prop parsedArgs "start") ;;
      end_ <- lift (Js.prop parsedArgs "end") ;;
      attendees <- lift (Js.prop parsedArgs "attendees") ;;
      attendees' <- lift (attendees_objects attendees) ;;
      call (CalendarCreateEvent calendarCreate
              (JObj [ ("summary", summary);
                      ("description", description);
                      ("start", JObj [("dateTime", start); ("timeZone", JStr "America/New_York")]);
                      ("end", JObj [("dateTime", end_); ("timeZone", JStr "America/New_York")]);
                      ("attendees", attendees') ]))
  | SearchCalendarEvents =>
      calendarSearch <- CalendarService_createForUser (userId agent) ;;
      query <- lift (Js.prop parsedArgs "query") ;;
      timeMin <- lift (Js.prop parsedArgs "timeMin") ;;
      timeMax <- lift (Js.prop parsedArgs "timeMax") ;;
      call (CalendarSearchEvents calendarSearch query
              (if Js.truthy timeMin then timeMin else JUndefined)
              (if Js.truthy timeMax then timeMax else JUndefined))
  | CreateTask =>
      title <- lift (Js.prop parsedArgs "title") ;;
      description <- lift (Js.prop parsedArgs "description") ;;
      priority <- lift (Js.prop parsedArgs "priority") ;;
      toolCalls <- lift (Js.prop parsedArgs "toolCalls") ;;
      context <- lift (Js.prop parsedArgs "context") ;;
      call (TaskCreate
              (JObj [ ("userId", JStr (userId agent));
                      ("title", title);
                      ("description", description);
                      ("priority", if Js.truthy priority then priority else JStr "MEDIUM");
                      ("toolCalls", toolCalls);
                      ("context", context) ]))
  | UpdateTask =>
      taskId <- lift (Js.prop parsedArgs "taskId") ;;
      status <- lift (Js.prop parsedArgs "status") ;;
      result <- lift (Js.prop parsedArgs "result") ;;
      error <- lift (Js.prop parsedArgs "error") ;;
      call (TaskUpdate taskId
              (JObj [ ("status", status);
                      ("result", result);
                      ("error", error);
                      ("completedAt",
                        match status with
                        | JStr s => if String.eqb s "COMPLETED" then JStr "new Date()" else JUndefined
                        | _ => JUndefined
                        end) ]))
  end.

(** [FinancialAdvisorAgent.executeToolCall]; entering it is recorded in
    the trace. *)
Definition executeToolCall (agent : FinancialAdvisorAgent) (toolCall : JsVal) : M X JsVal :=
  emit (EvDispatch toolCall) ;;;
  fn <- lift (Js.prop toolCall "function") ;;
  name <- lift (Js.prop fn "name") ;;
  args <- lift (Js.prop fn "arguments") ;;
  parsedArgs <- lift (JSON_parse env args) ;;
  match name with
  | JStr n =>
      match tool_of_name n with
      | Some t => run_tool agent t parsedArgs
      | None => throw (unknown_tool n)
      end
  | v => throw (unknown_tool (name_text v))
  end.

(** What [processMessage] returns: [content] may be [null]; [toolCalls]
    is [null] ([None]) or an array; [toolResults], [meetingData] and
    [usage] are present on some return paths only. *)
Record AgentResponse : Type := {
  content : option string;
  toolCalls : option (list ToolCall);
  toolResults : option (list ToolResult);
  meetingData : option JsVal;
  usage_total_tokens : option nat
}.

(** [user?.ongoingInstructions], when truthy. *)
Definition ongoing_instructions (u : option UserRow) : option string :=
  match u with
  | Some u =>
      match u_ongoingInstructions u with
      | Some i => if JsString.truthy i then Some i else None
      | None => None
      end
  | None => None
  end.

Definition fallback_footer : string :=
  "I can help you with:" ++ nl ++
  "• Searching through your emails" ++ nl ++
  "• Managing your contacts" ++ nl ++
  "• Scheduling appointments" ++ nl ++
  "• Sending emails" ++ nl ++ nl ++
  "Note: AI-powered features are currently limited due to regional restrictions. Basic functionality is still available.".

(** [FinancialAdvisorAgent.handleFallbackResponse] *)
Definition handleFallbackResponse (agent : FinancialAdvisorAgent) (message : string)
    : M X AgentResponse :=
  try_catch
    (context <- getContextForQuestion (rag agent) (userId agent) message ;;
     u <- user_findUnique (userId agent) false ;;
     let response := ("I understand you're asking about: " ++ message ++ nl ++ nl)%string in
     let response :=
       if JsString.truthy context
       then (response ++ "Based on your data, here's what I found:" ++ nl ++ context ++ nl ++ nl)%string
       else response in
     let response :=
       match ongoing_instructions u with
       | Some i => (response ++ "Your ongoing instructions: " ++ i ++ nl ++ nl)%string
       | None => response
       end in
     let response := (response ++ fallback_footer)%string in
     ret {| content := Some response;
            toolCalls := Some [];
            toolResults := None;
            meetingData := None;
            usage_total_tokens := Some 0%nat |})
    (fun error =>
       console "Error in fallback response:" (Some error) ;;;
       ret {| content := Some "I'm sorry, I'm experiencing technical difficulties. Please try again later or contact support.";
              toolCalls := Some [];
              toolResults := None;
              meetingData := None;
              usage_total_tokens := Some 0%nat |}).

(** A typed tool call as the JavaScript object [executeToolCall] receives. *)
Definition js_of_toolCall (tc : ToolCall) : JsVal :=
  JObj [ ("id", JStr (tc_id tc));
         ("type", JStr "function");
         ("function", JObj [ ("name", JStr (tc_name tc));
                             ("arguments", JStr (tc_arguments tc)) ]) ].

(** One iteration of the [for (const toolCall of messageResponse.tool_calls)]
    loop: the [try] pushes the serialized result, the [catch] pushes the
    serialized [{ error }] object. *)
Definition tool_outcome (agent : FinancialAdvisorAgent) (toolCall : ToolCall) : M X ToolResult :=
  try_catch
    (result <- executeToolCall agent (js_of_toolCall toolCall) ;;
     ret {| tool_call_id := tc_id toolCall;
            tr_role := "tool";
            tr_content := JSON_stringify env result |})
    (fun error =>
       ret {| tool_call_id := tc_id toolCall;
              tr_role := "tool";
              tr_content := JSON_stringify env (JObj [("error", JStr (error_text error))]) |}).

(** The loop itself, [toolResults] being the array pushed to. *)
Fixpoint tool_loop (agent : FinancialAdvisorAgent) (calls : list ToolCall)
    (toolResults : list ToolResult) : M X (list ToolResult) :=
  match calls with
  | [] => ret toolResults
  | toolCall :: rest =>
      r <- tool_outcome agent toolCall ;;
      tool_loop agent rest (toolResults ++ [r])
  end.

Fixpoint mapM_res {A B : Type} (f : A -> Res B) (l : list A) : Res (list B) :=
  match l with
  | [] => Ok []
  | x :: t =>
      match f x with
      | Throw e => Throw e
      | Ok y => match mapM_res f t with
                | Throw e => Throw e
                | Ok ys => Ok (y :: ys)
                end
      end
  end.

(** The "Format meeting data" block of [processMessage]. *)
Definition meeting_data (calls : list ToolCall) (results : list ToolResult)
    : M X (option JsVal) :=
  match find (fun tc => String.eqb (tc_name tc) "search_calendar_events") calls with
  | None => ret None
  | Some calendarSearch =>
      match find (fun tr => String.eqb (tool_call_id tr) (tc_id calendarSearch)) results with
      | None => ret None
      | Some calendarResult =>
          result <- lift (JSON_parse env (JStr (tr_content calendarResult))) ;;
          if Js.truthy result then
            err <- lift (Js.prop result "error") ;;
            if negb (Js.truthy err) then
              match result with
              | JArr events =>
                  formatted <- lift (mapM_res (formatEvent env) events) ;;
                  ret (Some (JArr formatted))
              | _ => throw (TypeError "result.map is not a function")
              end
            else ret None
          else ret None
      end
  end.

(** [response.choices[0].message] *)
Definition first_choice (response : ChatCompletion) : Res AssistantMessage :=
  match choices response with
  | m :: _ => Ok m
  | [] => Throw (TypeError "Cannot read properties of undefined (reading 'message')")
  end.

Definition system_prompt (u : option UserRow) (context : string) : string :=
  "You are an AI assistant for a Financial Advisor. You have access to their Gmail, Google Calendar, and HubSpot CRM." ++ nl ++ nl ++
  "Your capabilities:" ++ nl ++
  "- Answer questions about clients using information from emails and HubSpot" ++ nl ++
  "- Schedule appointments and manage calendar" ++ nl ++
  "- Send emails to clients" ++ nl ++
  "- Create and update contacts in HubSpot" ++ nl ++
  "- Create tasks that can be executed later" ++ nl ++
  "- Be proactive based on ongoing instructions" ++ nl ++ nl ++
  "Ongoing Instructions: " ++
  match ongoing_instructions u with Some i => i | None => "None" end ++ nl ++ nl ++
  "Context from emails and contacts:" ++ nl ++ context ++ nl ++ nl ++
  "Always be helpful, professional, and proactive. When scheduling appointments, always check availability first and provide multiple time options. When creating contacts, include relevant notes about the interaction.".

(** The tool branch of [processMessage], entered when
    [messageResponse.tool_calls] is an array. *)
Definition tool_branch (agent : FinancialAdvisorAgent) (messages : list ChatMessage)
    (messageResponse : AssistantMessage) (calls : list ToolCall) : M X AgentResponse :=
  results <- tool_loop agent calls [] ;;
  finalResponse <- openai_chat_completions_create
                     {| req_model := "gpt-4";
                        req_messages := messages ++ [AssistantTurn messageResponse]
                                                 ++ map ToolTurn results;
                        req_with_tools := false |} ;;
  md <- meeting_data calls results ;;
  final <- lift (first_choice finalResponse) ;;
  ret {| content := am_content final;
         toolCalls := Some calls;
         toolResults := Some results;
         meetingData := md;
         usage_total_tokens := None |}.

(** [FinancialAdvisorAgent.processMessage].  The inner [try] around the
    first model call either continues with the reply ([inl]) or returns
    the fallback response from its [catch] ([inr]). *)
Definition processMessage (agent : FinancialAdvisorAgent) (message : string)
    (conversationHistory : list ChatMessage) : M X AgentResponse :=
  try_catch
    (if negb (isOpenAIAvailable agent) || negb (openai agent)
     then handleFallbackResponse agent message
     else
       context <- getContextForQuestion (rag agent) (userId agent) message ;;
       u <- user_findUnique (userId agent) false ;;
       let systemPrompt := system_prompt u context in
       let messages :=
         Turn "system" systemPrompt :: conversationHistory ++ [Turn "user" message] in
       first <- try_catch
                  (response <- openai_chat_completions_create
                                 {| req_model := "gpt-4";
                                    req_messages := messages;
                                    req_with_tools := true |} ;;
                   console "openai chat completions response: " None ;;;
                   ret (inl response))
                  (fun openaiError =>
                     console "openaiError: " (Some openaiError) ;;;
                     if is_region_error openaiError then
                       console "OpenAI geographic restriction detected, using fallback response" None ;;;
                       r <- handleFallbackResponse agent message ;;
                       ret (inr r)
                     else throw openaiError) ;;
       match first with
       | inr fallback => ret fallback
       | inl response =>
           messageResponse <- lift (first_choice response) ;;
           match am_tool_calls messageResponse with
           | Some calls => tool_branch agent messages messageResponse calls
           | None =>
               ret {| content := am_content messageResponse;
                      toolCalls := None;
                      toolResults := Some [];
                      meetingData := None;
                      usage_total_tokens := None |}
           end
       end)
    (fun error =>
       console "Error processing message:" (Some error) ;;;
       if is_region_error error then handleFallbackResponse agent message
       else throw error).

(** The [for (const toolCall of action.toolCalls)] loop of
    [processWebhookEvent]: no [try] inside the loop body. *)
Fixpoint webhook_loop (agent : FinancialAdvisorAgent) (items : list JsVal) : M X unit :=
  match items with
  | [] => ret tt
  | toolCall :: rest =>
      executeToolCall agent toolCall ;;;
      webhook_loop agent rest
  end.

(** What [for ... of] iterates over: the elements of an array, the
    characters of a string; other values are not iterable. *)
Definition iterate (v : JsVal) : Res (list JsVal) :=
  match v with
  | JArr items => Ok items
  | JStr s => Ok (map (fun c => JStr (String c EmptyString)) (list_ascii_of_string s))
  | _ => Throw (TypeError "action.toolCalls is not iterable")
  end.

Definition dq : string := String (ascii_of_nat 34) EmptyString.

Definition webhook_prompt (eventType : string) (data : JsVal) (instructions : string) : string :=
  "A webhook event occurred: " ++ eventType ++ nl ++
  "Event data: " ++ JSON_stringify env data ++ nl ++ nl ++
  "Based on the ongoing instructions, should I take any action?" ++ nl ++
  "Ongoing Instructions: " ++ instructions ++ nl ++ nl ++
  "Respond with either:" ++ nl ++
  "1. " ++ dq ++ "NO_ACTION" ++ dq ++ " if no action is needed" ++ nl ++
  "2. A JSON object with the action to take, including tool calls if needed".

(** [content === 'NO_ACTION'] *)
Definition is_no_action (content : option string) : bool :=
  match content with
  | Some c => String.eqb c "NO_ACTION"
  | None => false
  end.

(** [content || '{}'] *)
Definition content_or_empty_object (content : option string) : string :=
  match content with
  | Some c => if JsString.truthy c then c else "{}"
  | None => "{}"
  end.

(** [FinancialAdvisorAgent.processWebhookEvent] *)
Definition processWebhookEvent (agent : FinancialAdvisorAgent) (eventType : string)
    (data : JsVal) : M X unit :=
  try_catch
    (if negb (isOpenAIAvailable agent) || negb (openai agent)
     then console "OpenAI not available for webhook processing" None
     else
       u <- user_findUnique (userId agent) false ;;
       match ongoing_instructions u with
       | None => ret tt
       | Some instructions =>
           let prompt := webhook_prompt eventType data instructions in
           response <- openai_chat_completions_create
                         {| req_model := "gpt-4";
                            req_messages :=
                              [ Turn "system" "You are an AI assistant that processes webhook events and decides on actions based on ongoing instructions.";
                                Turn "user" prompt ];
                            req_with_tools := false |} ;;
           m <- lift (first_choice response) ;;
           let content := am_content m in
           if is_no_action content then ret tt
           else
             try_catch
               (action <- lift (JSON_parse env (JStr (content_or_empty_object content))) ;;
                toolCalls <- lift (Js.prop action "toolCalls") ;;
                if Js.truthy toolCalls then
                  items <- lift (iterate toolCalls) ;;
                  webhook_loop agent items
                else ret tt)
               (fun parseError =>
                  console "Error parsing webhook action:" (Some parseError))
       end)
    (fun error => console "Error processing webhook event:" (Some error)).

End Program.

(* ================================================================== *)
(** ** Reading the trace *)
(* ================================================================== *)

(** The requests sent to the language model, in order. *)
Definition model_calls (t : list Event) : list ChatRequest :=
  flat_map (fun e => match e with EvChat r => [r] | _ => [] end) t.

(** The tool invocations that entered the dispatcher, in order. *)
Definition dispatched (t : list Event) : list JsVal :=
  flat_map (fun e => match e with EvDispatch c => [c] | _ => [] end) t.

(** The collaborator operations performed, in order. *)
Definition collab_calls (t : list Event) : list CollabOp :=
  flat_map (fun e => match e with EvCollab op => [op] | _ => [] end) t.

(** The session tokens probed with [getProfile]. *)
Definition session_probes (t : list Event) : list string :=
  flat_map (fun e => match e with EvCollab (GmailGetProfile tok) => [tok] | _ => [] end) t.

(** Reads of the stored Google account ([findUnique] with
    [include: { accounts: true }]); only [GmailService.createForUser]
    issues them. *)
Definition is_stored_token_lookup (e : Event) : bool :=
  match e with
  | EvDb (UserFindUnique _ true) => true
  | _ => false
  end.

Definition stored_token_lookups (t : list Event) : nat :=
  length (filter is_stored_token_lookup t).

(** The events that follow the [n]-th (from 0) model call. *)
Fixpoint after_nth_chat (n : nat) (t : list Event) : list Event :=
  match t with
  | [] => []
  | EvChat _ :: t' =>
      match n with
      | O => t'
      | S n' => after_nth_chat n' t'
      end
  | _ :: t' => after_nth_chat n t'
  end.

(** Events that neither call the model, nor enter the dispatcher, nor
    reach a collaborator. *)
Definition quiet (e : Event) : Prop :=
  match e with
  | EvChat _ | EvDispatch _ | EvCollab _ => False
  | _ => True
  end.

Definition not_chat (e : Event) : Prop :=
  match e with
  | EvChat _ => False
  | _ => True
  end.

(** The recency key a lexical hit carries: the message date, the
    contact's creation time. *)
Definition hit_recency (h : Hit) : option Z :=
  match hit_metadata h with
  | MetaEmail _ _ d => Some d
  | MetaContactRow r => Some (c_createdAt r)
  | MetaContactSelected _ _ _ _ _ _ _ => None
  end.

(** [a] is at least as recent as [b]. *)
Definition at_least_as_recent (a b : Hit) : Prop :=
  match hit_recency a, hit_recency b with
  | Some x, Some y => (y <= x)%Z
  | _, _ => False
  end.

Section Reading.

Context {X : Type}.
Variable env : Env X.

(** The outcome recorded for an invocation, from what its dispatch did. *)
Definition outcome_of (toolCall : ToolCall) (r : Res JsVal) : ToolResult :=
  {| tool_call_id := tc_id toolCall;
     tr_role := "tool";
     tr_content :=
       match r with
       | Ok v => JSON_stringify env v
       | Throw e => JSON_stringify env (JObj [("error", JStr (error_text e))])
       end |}.

(** A run of the tool loop, read invocation by invocation: each one is
    dispatched from the world its predecessor left, and contributes one
    outcome whether it returned or threw. *)
Inductive LoopRun (agent : FinancialAdvisorAgent)
  : World X -> list ToolCall -> list ToolResult -> World X -> Prop :=
| LoopRun_done : forall w, LoopRun agent w [] [] w
| LoopRun_step : forall w toolCall rest r w1 results w',
    executeToolCall env agent (js_of_toolCall toolCall) w = (r, w1) ->
    LoopRun agent w1 rest results w' ->
    LoopRun agent w (toolCall :: rest) (outcome_of toolCall r :: results) w'.

End Reading.

(* ================================================================== *)
(** ** Concrete environments and data for the examples *)
(* ================================================================== *)

Module Fixture.

Definition quoted (s : string) : string := dq ++ s ++ dq.

(** A serializer for the documents of the examples (no character needs
    escaping in them; numbers do not occur). *)
Fixpoint stringify (v : JsVal) : string :=
  match v with
  | JUndefined => "undefined"
  | JNull => "null"
  | JBool true => "true"
  | JBool false => "false"
  | JNum _ => "0"
  | JStr s => quoted s
  | JArr l => "[" ++ String.concat "," (map stringify l) ++ "]"
  | JObj fs =>
      "{" ++ String.concat ","
               (map (fun p => (quoted (fst p) ++ ":" ++ stringify (snd p))%string) fs) ++ "}"
  end.

Definition tool_call_js (name args : string) : JsVal :=
  JObj [("function", JObj [("name", JStr name); ("arguments", JStr args)])].

(** The action a model may answer a webhook prompt with: send an email,
    then create a task. *)
Definition action : JsVal :=
  JObj [("toolCalls", JArr [tool_call_js "send_email" "{}"; tool_call_js "create_task" "{}"])].

(** [JSON.parse] on the documents of the examples; the text ["{"] is
    not among them and is rejected, as any malformed text is. *)
Definition SyntaxError : JsThrown := JsError "Unexpected end of JSON input" None.

Definition parse (v : JsVal) : Res JsVal :=
  match v with
  | JStr s =>
      if String.eqb s "{}" then Ok (JObj [])
      else if String.eqb s "[]" then Ok (JArr [])
      else if String.eqb s "null" then Ok JNull
      else if String.eqb s (stringify action) then Ok action
      else Throw SyntaxError
  | _ => Throw SyntaxError
  end.

(** A stand-in for pgvector's distance: squared Euclidean distance. *)
Fixpoint sq_distance (v q : list Q) : Q :=
  match v, q with
  | x :: v', y :: q' => ((x - y) * (x - y) + sq_distance v' q')%Q
  | _, _ => 0%Q
  end.

(** Providers without state: each answer depends on the request only. *)
Definition environment
    (embed : string -> Res (list Q))
    (fault : DbOp -> option JsThrown)
    (chat : ChatRequest -> Res ChatCompletion)
    (service : CollabOp -> Res JsVal) : Env unit :=
  {| JSON_parse := parse;
     JSON_stringify := stringify;
     render := stringify;
     embedQuery := fun text x => (embed text, x);
     cosine_distance := sq_distance;
     db_fault := fun op x => (fault op, x);
     chat_completions_create := fun req x => (chat req, x);
     collab := fun op x => (service op, x);
     formatEvent := fun ev => Ok ev |}.

Definition down : JsThrown := JsError "connect ECONNREFUSED" None.

Definition embed_ok (_ : string) : Res (list Q) := Ok [1%Q; 0%Q].
Definition embed_down (_ : string) : Res (list Q) := Throw down.
Definition db_up (_ : DbOp) : option JsThrown := None.
Definition db_down (_ : DbOp) : option JsThrown := Some down.
Definition chat_down (_ : ChatRequest) : Res ChatCompletion := Throw down.
Definition service_ok (_ : CollabOp) : Res JsVal := Ok JNull.

(** A Gmail whose session probe is refused; everything else answers. *)
Definition service_probe_refused (op : CollabOp) : Res JsVal :=
  match op with
  | GmailGetProfile _ => Throw (JsError "Invalid Credentials" None)
  | _ => Ok JNull
  end.

(** A model that answers every prompt with [action]. *)
Definition chat_action (_ : ChatRequest) : Res ChatCompletion :=
  Ok {| choices := [ {| am_content := Some (stringify action); am_tool_calls := None |} ] |}.

Definition mail (id subject body : string) (date : Z) (e : option (list Q)) : EmailRow :=
  {| e_id := id; e_userId := "u1"; e_messageId := id; e_subject := subject;
     e_from := "client@example.com"; e_to := "advisor@example.com";
     e_body := body; e_date := date; e_embedding := e |}.

Definition person (id first last : string) (created : Z) (e : option (list Q)) : ContactRow :=
  {| c_id := id; c_userId := "u1"; c_contactId := id;
     c_firstName := Some first; c_lastName := Some last;
     c_email := None; c_phone := None; c_company := None; c_notes := None;
     c_createdAt := created; c_embedding := e |}.

(** The message imported while the embedding provider was down. *)
Definition unembedded_mail : EmailRow :=
  mail "m2" "Quarterly retirement review" "Please do call me" 300 None.

Definition advisor : UserRow :=
  {| u_id := "u1";
     u_ongoingInstructions := Some "When a contact is updated, email them and note it";
     u_hubspotAccessToken := None;
     u_accounts := [] |}.

Definition database : Database :=
  {| emailEmbedding :=
       [ mail "m1" "Retirement planning" "John Smith asks about a to do list" 200 (Some [1%Q; 1%Q]);
         unembedded_mail;
         mail "m3" "Lunch" "See you at noon" 100 (Some [0%Q; 0%Q]) ];
     hubSpotContactEmbedding :=
       [ person "c1" "John" "Smith" 50 None;
         person "c2" "Jane" "Doe" 70 (Some [1%Q; 0%Q]) ];
     user := [ advisor ] |}.

Definition empty_database : Database :=
  {| emailEmbedding := []; hubSpotContactEmbedding := []; user := [] |}.

Definition world (d : Database) : World unit :=
  {| db := d; ext := tt; trace := [] |}.

Definition rag_on : RAGService := {| rag_embeddings := true; rag_isOpenAIAvailable := true |}.
Definition rag_off : RAGService := {| rag_embeddings := false; rag_isOpenAIAvailable := false |}.

(** The agent the chat route builds, with the session's access token. *)
Definition chat_agent : FinancialAdvisorAgent :=
  {| openai := true; userId := "u1"; rag := rag_on;
     isOpenAIAvailable := true; sessionToken := Some "session-token" |}.

(** The agent the webhook route builds: no session token. *)
Definition webhook_agent : FinancialAdvisorAgent :=
  {| openai := true; userId := "u1"; rag := rag_on;
     isOpenAIAvailable := true; sessionToken := None |}.

(** An agent whose completion client failed to initialize. *)
Definition offline_agent : FinancialAdvisorAgent :=
  {| openai := false; userId := "u1"; rag := rag_off;
     isOpenAIAvailable := false; sessionToken := None |}.

Definition unknown_call : ToolCall :=
  {| tc_id := "call_1"; tc_name := "delete_everything"; tc_arguments := "{" |}.

Definition search_call : ToolCall :=
  {| tc_id := "call_2"; tc_name := "search_emails"; tc_arguments := "{}" |}.

(** The scenario of the spec: the model asks for a calendar search and
    then for a new event; its second reply asks for yet another tool. *)
Definition calendar_calls : list ToolCall :=
  [ {| tc_id := "call_a"; tc_name := "search_calendar_events"; tc_arguments := "{}" |};
    {| tc_id := "call_b"; tc_name := "create_calendar_event"; tc_arguments := "{}" |} ].

Definition chat_calendar (req : ChatRequest) : Res ChatCompletion :=
  if req_with_tools req
  then Ok {| choices := [ {| am_content := None; am_tool_calls := Some calendar_calls |} ] |}
  else Ok {| choices :=
               [ {| am_content := Some "Your meeting could not be booked.";
                    am_tool_calls :=
                      Some [ {| tc_id := "call_c"; tc_name := "send_email";
                                tc_arguments := "{}" |} ] |} ] |}.

(** A calendar that searches but refuses to create. *)
Definition service_calendar_full (op : CollabOp) : Res JsVal :=
  match op with
  | CalendarSearchEvents _ _ _ _ => Ok (JArr [])
  | CalendarCreateEvent _ _ => Throw (JsError "Calendar usage limits exceeded" None)
  | _ => Ok JNull
  end.

End Fixture.

(* ================================================================== *)
(** ** Vocabulary of the statements *)
(* ================================================================== *)

Section Vocabulary.

Context {X : Type}.
Variable env : Env X.

(** Every run of [m] leaves the tables alone and appends to the trace
    only events that satisfy [P]. *)
Definition emits {A : Type} (P : Event -> Prop) (m : M X A) : Prop :=
  forall w r w', m w = (r, w') ->
    db w' = db w /\ exists evs, trace w' = trace w ++ evs /\ Forall P evs.

(** [m] returns from every world. *)
Definition returns {A : Type} (m : M X A) : Prop :=
  forall w, exists a w', m w = (Ok a, w').

Definition empty_result : SearchResult := {| emails := []; contacts := [] |}.

(** What the lexical path answers when both [findMany] succeed. *)
Definition lexical_result (userId query : string) (limit : nat) (d : Database) : SearchResult :=
  {| emails := map lexical_email_hit
                 (select_emails userId (searchTerms query) limit (emailEmbedding d));
     contacts := map lexical_contact_hit
                   (select_contacts userId (searchTerms query) limit (hubSpotContactEmbedding d)) |}.

(** What the similarity path answers when both raw queries succeed. *)
Definition similarity_result (userId : string) (q : list Q) (limit : nat) (d : Database)
    : SearchResult :=
  {| emails := map similarity_email_hit (rank_emails env userId q limit (emailEmbedding d));
     contacts := map similarity_contact_hit
                   (rank_contacts env userId q limit (hubSpotContactEmbedding d)) |}.

Definition has_embedding {A : Type} (e : option A) : bool :=
  match e with Some _ => true | None => false end.

(** The user's messages that carry a vector, and those that do not. *)
Definition embedded_emails (userId : string) (rows : list EmailRow) : list EmailRow :=
  filter (fun r => has_embedding (e_embedding r))
    (filter (fun r => String.eqb (e_userId r) userId) rows).

Definition unembedded_emails (userId : string) (rows : list EmailRow) : list EmailRow :=
  filter (fun r => negb (has_embedding (e_embedding r)))
    (filter (fun r => String.eqb (e_userId r) userId) rows).

Definition embedded_contacts (userId : string) (rows : list ContactRow) : list ContactRow :=
  filter (fun r => has_embedding (c_embedding r))
    (filter (fun r => String.eqb (c_userId r) userId) rows).

Definition unembedded_contacts (userId : string) (rows : list ContactRow) : list ContactRow :=
  filter (fun r => negb (has_embedding (c_embedding r)))
    (filter (fun r => String.eqb (c_userId r) userId) rows).

(** The claim that the similarity path leaves out every message without a
    vector: none of them is the source of a returned hit. *)
Definition excludes_unembedded (d : Database) (res : SearchResult) : Prop :=
  forall row, In row (emailEmbedding d) -> e_embedding row = None ->
    ~ In (similarity_email_hit (row, None)) (emails res).

(** Events a tool handler may cause: anything but a model call or a
    nested entry into the dispatcher. *)
Definition service_only (e : Event) : Prop :=
  match e with
  | EvChat _ | EvDispatch _ => False
  | _ => True
  end.

(** Events that are neither a session probe nor a read of the stored
    token. *)
Definition not_credential (e : Event) : Prop :=
  match e with
  | EvCollab (GmailGetProfile _) => False
  | EvDb (UserFindUnique _ true) => False
  | _ => True
  end.

(** A response that pairs the invocations [calls] with the outcomes
    [results], or carries no outcome list at all (the fallback). *)
Definition paired (calls : list ToolCall) (results : list ToolResult)
    (r : Res AgentResponse) : Prop :=
  match r with
  | Ok resp =>
      (toolCalls resp = Some calls /\ toolResults resp = Some results)
      \/ toolResults resp = None
  | Throw _ => True
  end.

(** A response without invocations to pair: no outcome list, or no
    invocation list. *)
Definition unpaired (r : Res AgentResponse) : Prop :=
  match r with
  | Ok resp => toolResults resp = None \/ toolCalls resp = None
  | Throw _ => True
  end.

(** A result that carries no outcome list. *)
Definition no_outcomes (r : Res AgentResponse) : Prop :=
  match r with
  | Ok resp => toolResults resp = None
  | Throw _ => True
  end.

(** Whenever a response carries both an invocation list and an outcome
    list, they correspond one to one, in order. *)
Definition aligned (r : Res AgentResponse) : Prop :=
  match r with
  | Ok resp =>
      match toolCalls resp, toolResults resp with
      | Some calls, Some results =>
          length results = length calls /\
          map tool_call_id results = map tc_id calls
      | _, _ => True
      end
  | Throw _ => True
  end.

(** The three shapes the trace of one chat turn can have, with what the
    turn returned: no model call; one model call; one model call, the
    tool loop over the invocations of its reply, and a second call. *)
Inductive TurnTrace : list Event -> Res AgentResponse -> Prop :=
| TurnTrace_no_model : forall evs r,
    Forall quiet evs -> unpaired r ->
    TurnTrace evs r
| TurnTrace_one_call : forall before req after r,
    Forall quiet before -> Forall quiet after -> unpaired r ->
    TurnTrace (before ++ EvChat req :: after) r
| TurnTrace_tool_round : forall before req1 loop req2 after calls results r,
    Forall quiet before ->
    Forall not_chat loop ->
    dispatched loop = map js_of_toolCall calls ->
    req_with_tools req2 = false ->
    Forall quiet after ->
    length results = length calls ->
    map tool_call_id results = map tc_id calls ->
    paired calls results r ->
    TurnTrace (before ++ EvChat req1 :: loop ++ EvChat req2 :: after) r.

End Vocabulary.

(* ================================================================== *)
(** ** Further vocabulary: retrieval *)
(* ================================================================== *)

(** [a] is ranked no later than [b]: ascending score, null scores last. *)
Definition score_ascending (a b : Hit) : Prop :=
  distance_leb (hit_score a) (hit_score b) = true.

(** Two queries that differ in letter case only. *)
Definition same_up_to_case (q q' : string) : Prop :=
  JsString.toLowerCase q = JsString.toLowerCase q'.

(** [needle] occurs in [hay], letter case aside: the lower-cased text
    reads some characters, then the lower-cased needle, then the rest. *)
Definition occurs (needle hay : string) : Prop :=
  exists before after,
    JsString.toLowerCase hay
    = (before ++ JsString.toLowerCase needle ++ after)%string.

(** A term free of the characters that [LIKE] does not read literally. *)
Definition plain (term : string) : Prop :=
  Forall (fun c => c <> "%"%char /\ c <> "_"%char /\ c <> "\"%char)
         (list_ascii_of_string term).

(** A message of the user in which one of the terms occurs, in the
    subject, the body or the sender. *)
Definition mentions_a_term (userId : string) (terms : list string) (r : EmailRow) : Prop :=
  e_userId r = userId /\
  exists term, In term terms /\
               (occurs term (e_subject r) \/ occurs term (e_body r) \/ occurs term (e_from r)).

(* ================================================================== *)
(** ** Further vocabulary: the agent *)
(* ================================================================== *)

(** The request [processWebhookEvent] sends to the model. *)
Definition webhook_request {X : Type} (env : Env X) (eventType : string) (data : JsVal)
    (instructions : string) : ChatRequest :=
  {| req_model := "gpt-4";
     req_messages :=
       [ Turn "system" "You are an AI assistant that processes webhook events and decides on actions based on ongoing instructions.";
         Turn "user" (webhook_prompt env eventType data instructions) ];
     req_with_tools := false |}.

(** The code [processMessage] tests for. *)
Definition region_code : string := "unsupported_country_region_territory".


(** The [case] label of each tool. *)
Definition tool_name_text (t : ToolName) : string :=
  match t with
  | SearchEmails => "search_emails"
  | SearchContacts => "search_contacts"
  | CreateContact => "create_contact"
  | UpdateContact => "update_contact"
  | AddContactNote => "add_contact_note"
  | SendEmail => "send_email"
  | GetAvailableSlots => "get_available_slots"
  | CreateCalendarEvent => "create_calendar_event"
  | SearchCalendarEvents => "search_calendar_events"
  | CreateTask => "create_task"
  | UpdateTask => "update_task"
  end.

Definition all_tools : list ToolName :=
  [ SearchEmails; SearchContacts; CreateContact; UpdateContact; AddContactNote;
    SendEmail; GetAvailableSlots; CreateCalendarEvent; SearchCalendarEvents;
    CreateTask; UpdateTask ].

(** The response of [processMessage] to a model reply without tool
    invocations. *)
Definition plain_response (text : option string) : AgentResponse :=
  {| content := text;
     toolCalls := None;
     toolResults := Some [];
     meetingData := None;
     usage_total_tokens := None |}.

Module Scenario.

(** A model that finds nothing to do. *)
Definition chat_no_action (_ : ChatRequest) : Res ChatCompletion :=
  Ok {| choices := [ {| am_content := Some "NO_ACTION"; am_tool_calls := None |} ] |}.

(** A model that answers in plain text, without tool invocations. *)
Definition chat_plain (_ : ChatRequest) : Res ChatCompletion :=
  Ok {| choices := [ {| am_content := Some "You have no meetings today.";
                        am_tool_calls := None |} ] |}.

(** A model behind a regional restriction. *)
Definition chat_region_blocked (_ : ChatRequest) : Res ChatCompletion :=
  Throw (JsError "Country, region, or territory not supported" (Some region_code)).


(** A user who connected Google: the first account carries a token. *)
Definition connected_advisor : UserRow :=
  {| u_id := "u1";
     u_ongoingInstructions := None;
     u_hubspotAccessToken := Some "hubspot-token";
     u_accounts := [ {| access_token := Some "stored-token" |} ] |}.

Definition connected_database : Database :=
  {| emailEmbedding := emailEmbedding Fixture.database;
     hubSpotContactEmbedding := hubSpotContactEmbedding Fixture.database;
     user := [ connected_advisor ] |}.

End Scenario.

(* ================================================================== *)
(** ** [GmailService]: message text ([lib/gmail.ts]) *)
(* ================================================================== *)

Module GmailClient.

Definition newline : ascii := ascii_of_nat 10.

(** [s.replace(/\n/g, ' ')] *)
Fixpoint replace_newlines (s : string) : string :=
  match s with
  | EmptyString => EmptyString
  | String c t =>
      String (if Ascii.eqb c newline then JsString.space else c) (replace_newlines t)
  end.

(** [s.substring(0, n)] *)
Fixpoint take (n : nat) (s : string) : string :=
  match n, s with
  | S n', String c t => String c (take n' t)
  | _, _ => EmptyString
  end.

(** The bound [getMessage] puts on a body: 10000 characters. *)
Definition body_limit : nat := 100 * 100.

(** The body [getMessage] returns:
    [body.replace(/\n/g, ' ').substring(0, 10000)]. *)
Definition limit_body (body : string) : string :=
  take body_limit (replace_newlines body).

(** [s.replace(/x/g, y)] for single characters. *)
Fixpoint replace_char (x y : ascii) (s : string) : string :=
  match s with
  | EmptyString => EmptyString
  | String c t => String (if Ascii.eqb c x then y else c) (replace_char x y t)
  end.

(** [s.replace(/=+$/, '')]: the trailing run of ['='] is removed. *)
Fixpoint strip_padding (s : string) : string :=
  match s with
  | EmptyString => EmptyString
  | String c t =>
      match strip_padding t with
      | EmptyString => if Ascii.eqb c "="%char then EmptyString else String c EmptyString
      | t' => String c t'
      end
  end.

(** The message [sendEmail] builds: [[`To: ${to}`, `Subject: ${subject}`,
    '', body].join('\n')]. *)
Definition raw_message (to subject body : string) : string :=
  String.concat nl [ ("To: " ++ to)%string; ("Subject: " ++ subject)%string; ""; body ].

(** [Buffer.from(message).toString('base64').replace(/\+/g, '-')
     .replace(/\//g, '_').replace(/=+$/, '')], the Base64 encoder of the
    runtime being [base64]. *)
Definition encodedMessage (base64 : string -> string) (to subject body : string) : string :=
  strip_padding
    (replace_char "/"%char "_"%char
       (replace_char "+"%char "-"%char (base64 (raw_message to subject body)))).

Definition chars (s : string) : list ascii := list_ascii_of_string s.

(** The last character, if any. *)
Fixpoint last_char (s : string) : option ascii :=
  match s with
  | EmptyString => None
  | String c EmptyString => Some c
  | String _ t => last_char t
  end.

End GmailClient.

(* ================================================================== *)
(** ** Chat history ([app/api/chat/route.ts], [GET]) *)
(* ================================================================== *)

Module ChatHistory.

(** Modelled from the spec: a stored conversation turn, with the columns
    the route reads; [conversationId] is absent on turns saved without
    one. *)
Record ChatMessageRow : Type := {
  m_id : string;
  m_conversationId : option string;
  m_role : string;
  m_content : string;
  m_createdAt : Z
}.

(** An entry of [conversationMap]. *)
Record Conversation : Type := {
  conv_id : option string;
  conv_messages : list ChatMessageRow;
  conv_firstMessage : ChatMessageRow;
  conv_lastMessage : ChatMessageRow
}.

(** Equality of [Map] keys. *)
Definition same_key (a b : option string) : bool :=
  match a, b with
  | Some x, Some y => String.eqb x y
  | None, None => true
  | _, _ => false
  end.

(** The entry [conversationMap.set] creates for a new conversation id. *)
Definition fresh (message : ChatMessageRow) : Conversation :=
  {| conv_id := m_conversationId message;
     conv_messages := [];
     conv_firstMessage := message;
     conv_lastMessage := message |}.

(** [conversation.messages.unshift(message)], then the update of
    [lastMessage] when [message.createdAt > lastMessage.createdAt]. *)
Definition touch (message : ChatMessageRow) (c : Conversation) : Conversation :=
  {| conv_id := conv_id c;
     conv_messages := message :: conv_messages c;
     conv_firstMessage := conv_firstMessage c;
     conv_lastMessage :=
       if (m_createdAt (conv_lastMessage c) <? m_createdAt message)%Z
       then message else conv_lastMessage c |}.

(** One call of the [forEach] callback; the map keeps insertion order. *)
Fixpoint add (message : ChatMessageRow) (map : list Conversation) : list Conversation :=
  match map with
  | [] => [touch message (fresh message)]
  | c :: rest =>
      if same_key (conv_id c) (m_conversationId message)
      then touch message c :: rest
      else c :: add message rest
  end.

Definition group (messages : list ChatMessageRow) : list Conversation :=
  fold_left (fun map message => add message map) messages [].

(** [s.substring(0, n) + (s.length > n ? '...' : '')] *)
Definition preview (n : nat) (s : string) : string :=
  (GmailClient.take n s ++ (if (n <? String.length s)%nat then "..." else ""))%string.

(** An element of the [conversations] array. *)
Record Summary : Type := {
  s_id : option string;
  s_date : string;
  s_title : string;
  s_messageCount : nat;
  s_lastMessage : string;
  s_messages : list ChatMessageRow;
  s_createdAt : Z
}.

(** [`${n}`] for a natural number. *)
Definition decimal (n : nat) : string := NilEmpty.string_of_uint (Nat.to_uint n).

Section Formatting.

(** [Date.prototype.toISOString]. *)
Variable toISOString : Z -> string.

(** The callback of [Array.from(conversationMap.values()).map]. *)
Definition summarize (index : nat) (conv : Conversation) : Summary :=
  {| s_id := conv_id conv;
     s_date := hd EmptyString
                 (JsString.split "T"%char (toISOString (m_createdAt (conv_firstMessage conv))));
     s_title :=
       match find (fun msg => String.eqb (m_role msg) "USER") (conv_messages conv) with
       | Some firstUserMessage => preview 50 (m_content firstUserMessage)
       | None => ("Conversation " ++ decimal (index + 1))%string
       end;
     s_messageCount := length (conv_messages conv);
     s_lastMessage := preview 100 (m_content (conv_lastMessage conv));
     s_messages := conv_messages conv;
     s_createdAt := m_createdAt (conv_firstMessage conv) |}.

Fixpoint mapi (index : nat) (l : list Conversation) : list Summary :=
  match l with
  | [] => []
  | c :: t => summarize index c :: mapi (S index) t
  end.

(** The array the route answers with: grouped, formatted, and sorted by
    [createdAt], newest first. *)
Definition conversations (messages : list ChatMessageRow) : list Summary :=
  order_by (fun a b => (s_createdAt b <=? s_createdAt a)%Z) (mapi 0 (group messages)).

End Formatting.


(** Every entry holds messages of its own conversation only, is not
    empty, and its keys are distinct. *)
Definition well_grouped (entries : list Conversation) : Prop :=
  NoDup (map conv_id entries) /\
  Forall (fun c => conv_messages c <> [] /\
                   Forall (fun m => m_conversationId m = conv_id c) (conv_messages c)) entries.


End ChatHistory.

Module HistoryScenario.

Import ChatHistory.

Definition turn (id conv role text : string) (at_ : Z) : ChatMessageRow :=
  {| m_id := id; m_conversationId := Some conv; m_role := role;
     m_content := text; m_createdAt := at_ |}.

(** Two conversations, read newest first. *)
Definition rows : list ChatMessageRow :=
  [ turn "4" "conv_b" "ASSISTANT" "Booked for Tuesday." 40;
    turn "3" "conv_b" "USER" "Book a review meeting with John" 30;
    turn "2" "conv_a" "ASSISTANT" "Two messages mention retirement." 20;
    turn "1" "conv_a" "USER" "Who emailed me about retirement?" 10 ].

Definition iso (_ : Z) : string := "2025-01-01T00:00:00.000Z".

End HistoryScenario.

(* ================================================================== *)
(** ** [CalendarService] ([lib/calendar.ts]) *)
(* ================================================================== *)

Module Calendar.

(** A JavaScript [Date]: its time value in milliseconds since the epoch,
    [None] for an Invalid Date. *)
Definition Date : Type := option Z.

(** The largest time value of a [Date]. *)
Definition maxTime : Z := 8640000000000000.

(** [new Date(value)] for a number: an Invalid Date outside the range. *)
Definition TimeClip (t : Z) : Date :=
  if (Z.abs t <=? maxTime)%Z then Some t else None.

(** [a < b] and [a <= b] on dates: false when either is invalid. *)
Definition lt (a b : Date) : bool :=
  match a, b with
  | Some x, Some y => (x <? y)%Z
  | _, _ => false
  end.

Definition le (a b : Date) : bool :=
  match a, b with
  | Some x, Some y => (x <=? y)%Z
  | _, _ => false
  end.

(** [event.start] and [event.end] of a calendar event; a field is [None]
    when the event does not have it. *)
Record EventTime : Type := {
  dateTime : option string;
  date : option string
}.

(** The fields of a calendar event that the service reads. *)
Record CalendarEvent : Type := {
  ev_summary : option string;
  ev_description : option string;
  ev_start : option EventTime;
  ev_end : option EventTime
}.

(** The argument of [calendar.events.list]; [calendarId], [singleEvents]
    and [orderBy] are constants. *)
Record ListRequest : Type := {
  timeMin : option string;
  timeMax : option string;
  maxResults : Z
}.

(** [{ start, end }] *)
Record Slot : Type := {
  slot_start : Date;
  slot_end : Date
}.

(** What [toISOString] throws on an Invalid Date. *)
Definition RangeError : JsThrown := JsError "Invalid time value" None.

(** [a || b] on optional strings. *)
Definition or_else (a b : option string) : option string :=
  match a with
  | Some s => if JsString.truthy s then a else b
  | None => b
  end.

(** [t?.field] *)
Definition field (f : EventTime -> option string) (t : option EventTime) : option string :=
  match t with
  | Some t => f t
  | None => None
  end.

(** [slotStart < busy.end && slotEnd > busy.start] *)
Definition conflicts (slotStart slotEnd : Date) (busy : Slot) : bool :=
  lt slotStart (slot_end busy) && lt (slot_start busy) slotEnd.

(** [field?.toLowerCase().includes(query.toLowerCase())], falsy when the
    field is absent. *)
Definition mentions (query : string) (text : option string) : bool :=
  match text with
  | Some s => JsString.includes (JsString.toLowerCase query) (JsString.toLowerCase s)
  | None => false
  end.

(** The predicate of [events.filter] in [searchEvents]. *)
Definition event_matches (query : string) (event : CalendarEvent) : bool :=
  mentions query (ev_summary event) || mentions query (ev_description event).

Section Service.

Context {X : Type}.

(** [new Date(text)], [Date.prototype.toISOString] on a valid date, and
    [current.setHours(current.getHours() + 1)] in the time zone of the
    process, as a function of the time value. *)
Variable Date_parse : string -> Date.
Variable toISOString : Z -> string.
Variable setNextHour : Z -> Date.

(** The Google Calendar client; [None] is a reply without [items]. *)
Variable events_list : ListRequest -> X -> Res (option (list CalendarEvent)) * X.

Definition calendar_events_list (req : ListRequest) : M X (option (list CalendarEvent)) :=
  fun w => let (r, x) := events_list req (ext w) in
           (r, {| db := db w; ext := x; trace := trace w |}).

(** [d?.toISOString()] *)
Definition iso (d : option Date) : Res (option string) :=
  match d with
  | None => Ok None
  | Some None => Throw RangeError
  | Some (Some t) => Ok (Some (toISOString t))
  end.

(** [CalendarService.getEvents] *)
Definition getEvents (timeMin timeMax : option Date) (maxResults : Z)
    : M X (list CalendarEvent) :=
  try_catch
    (tmin <- lift (iso timeMin) ;;
     tmax <- lift (iso timeMax) ;;
     items <- calendar_events_list
                {| timeMin := tmin; timeMax := tmax; maxResults := maxResults |} ;;
     ret (match items with Some l => l | None => [] end))
    (fun error =>
       console "Error fetching calendar events:" (Some error) ;;;
       throw error).

(** [new Date(v)] for a string or [undefined]. *)
Definition newDate (v : option string) : Date :=
  match v with
  | Some s => Date_parse s
  | None => None
  end.

(** The callback of [events.map]. *)
Definition busySlot (event : CalendarEvent) : Slot :=
  {| slot_start := newDate (or_else (field dateTime (ev_start event))
                                    (field date (ev_start event)));
     slot_end := newDate (or_else (field dateTime (ev_end event))
                                  (field date (ev_end event))) |}.

(** [new Date(current.getTime() + durationMinutes * 60000)] *)
Definition slotEnd_of (current : Date) (durationMinutes : Z) : Date :=
  match current with
  | Some t => TimeClip (t + durationMinutes * 60000)
  | None => None
  end.

(** The [while (current < end)] loop; [None] when [fuel] iterations did
    not reach the end. *)
Fixpoint slots_loop (fuel : nat) (busySlots : list Slot) (durationMinutes : Z)
    (end_ current : Date) : option (list Slot) :=
  match fuel with
  | O => if lt current end_ then None else Some []
  | S fuel' =>
      if lt current end_ then
        let slotStart := current in
        let slotEnd := slotEnd_of current durationMinutes in
        let isAvailable := negb (existsb (conflicts slotStart slotEnd) busySlots) in
        let next := match current with Some t => setNextHour t | None => None end in
        match slots_loop fuel' busySlots durationMinutes end_ next with
        | Some rest =>
            Some (if isAvailable && le slotEnd end_
                  then {| slot_start := slotStart; slot_end := slotEnd |} :: rest
                  else rest)
        | None => None
        end
      else Some []
  end.

(** [CalendarService.getAvailableSlots], for a whole number of minutes;
    [durationMinutes] is [None] when the caller leaves it out. *)
Definition getAvailableSlots (fuel : nat) (startDate endDate : Date)
    (durationMinutes : option Z) : M X (option (list Slot)) :=
  let durationMinutes := match durationMinutes with Some d => d | None => 60%Z end in
  try_catch
    (events <- getEvents (Some startDate) (Some endDate) 50 ;;
     let busySlots := map busySlot events in
     ret (slots_loop fuel busySlots durationMinutes endDate startDate))
    (fun error =>
       console "Error getting available slots:" (Some error) ;;;
       throw error).

(** [CalendarService.searchEvents] *)
Definition searchEvents (query : string) (timeMin timeMax : option Date)
    : M X (list CalendarEvent) :=
  try_catch
    (events <- getEvents timeMin timeMax 100 ;;
     ret (filter (event_matches query) events))
    (fun error =>
       console "Error searching calendar events:" (Some error) ;;;
       throw error).

(** What the calendar answers to the lookup of a window, seen from the
    state of the providers. *)
Definition listed (timeMin timeMax : Z) (x : X) : Res (list CalendarEvent) :=
  match fst (events_list {| timeMin := Some (toISOString timeMin);
                            timeMax := Some (toISOString timeMax);
                            maxResults := 50 |} x) with
  | Ok (Some l) => Ok l
  | Ok None => Ok []
  | Throw e => Throw e
  end.

End Service.

(** Each step of the hour moves forward in time, by [step] milliseconds
    at least. *)
Definition advances (step : Z) (setNextHour : Z -> Date) : Prop :=
  (0 < step)%Z /\ forall t t', setNextHour t = Some t' -> (t + step <= t')%Z.

(** A process whose local hours all last an hour, as under UTC. *)
Definition hour : Z := 3600000.

Definition uniform_hours (setNextHour : Z -> Date) : Prop :=
  forall t, setNextHour t = TimeClip (t + hour).

(** A slot from [a] lasting [d] minutes. *)
Definition slot_at (a d : Z) : Slot :=
  {| slot_start := Some a; slot_end := Some (a + d * 60000)%Z |}.

(** The slot from [a] lasting [d] minutes overlaps none of the busy
    periods; a period without a valid start or end overlaps nothing. *)
Definition clear_of (busySlots : list Slot) (a d : Z) : Prop :=
  Forall (fun busy =>
            forall bs be, slot_start busy = Some bs -> slot_end busy = Some be ->
                          (be <= a \/ a + d * 60000 <= bs)%Z) busySlots.

(** Both ends of the busy period are valid dates. *)
Definition dated (busy : Slot) : bool :=
  match slot_start busy, slot_end busy with
  | Some _, Some _ => true
  | _, _ => false
  end.

End Calendar.

Module CalendarScenario.

Import Calendar.

(** ISO timestamps are kept symbolic: the scenario's parser reads the
    two texts below. *)
Definition parse (s : string) : Date :=
  if String.eqb s "2025-03-03T10:00:00Z" then Some (10 * hour)%Z
  else if String.eqb s "2025-03-03T11:00:00Z" then Some (11 * hour)%Z
  else None.

Definition iso (_ : Z) : string := "2025-03-03T00:00:00.000Z".

Definition utc (t : Z) : Date := TimeClip (t + hour).

(** One meeting from ten to eleven, and an entry without times. *)
Definition meeting : CalendarEvent :=
  {| ev_summary := Some "Portfolio Review";
     ev_description := None;
     ev_start := Some {| dateTime := Some "2025-03-03T10:00:00Z"; date := None |};
     ev_end := Some {| dateTime := Some "2025-03-03T11:00:00Z"; date := None |} |}.

Definition undated : CalendarEvent :=
  {| ev_summary := None; ev_description := None; ev_start := None; ev_end := None |}.

Definition events_list (_ : ListRequest) (x : unit) : Res (option (list CalendarEvent)) * unit :=
  (Ok (Some [meeting; undated]), x).

End CalendarScenario.

(* ================================================================== *)
(** ** Import of the mailbox ([RAGService.importEmails]) *)
(* ================================================================== *)

Module Importer.

(** What [GmailService.getMessage] returns: the headers are strings, empty
    when absent; [date] is [new Date(header)], possibly an Invalid Date. *)
Record GmailMessage : Type := {
  g_id : string;
  g_subject : string;
  g_from : string;
  g_to : string;
  g_date : Calendar.Date;
  g_body : string
}.

(** The two operations on the message table; availability of the table is
    the environment's. *)
Inductive TableOp : Type :=
| EmailFindUnique (messageId : string)
| EmailCreate (messageId : string).

(** The schema is not among the sources: [findUnique] by [messageId]
    presupposes a unique column, so a second row with the same value is
    refused. *)
Definition unique_violation : JsThrown :=
  JsError "Unique constraint failed on the fields: (`messageId`)" (Some "P2002").

(** [date] is a timestamp column ([orderBy: { date: 'desc' }] in the
    lexical search); the database client refuses an Invalid Date. *)
Definition invalid_date : JsThrown :=
  JsError "Provided Date object is invalid. Expected Date." None.

(** The template of the text that is embedded. *)
Definition message_text (message : GmailMessage) : string :=
  "Subject: " ++ g_subject message ++ nl ++ "From: " ++ g_from message ++ nl ++
  "To: " ++ g_to message ++ nl ++ "Body: " ++ g_body message.

Definition has_message (messageId : string) (r : EmailRow) : bool :=
  String.eqb (e_messageId r) messageId.

Section Service.

Context {X : Type}.
Variable env : Env X.

(** [gmail.getMessages('', 1000)], the availability of the message table
    and the row identifiers the database generates. *)
Variable getMessages : GmailService -> X -> Res (list GmailMessage) * X.
Variable table_fault : TableOp -> X -> option JsThrown * X.
Variable new_id : X -> string * X.


Definition table_call (op : TableOp) : M X unit :=
  fun w => let (r, x) := table_fault op (ext w) in
           let w' := {| db := db w; ext := x; trace := trace w |} in
           match r with
           | Some e => (Throw e, w')
           | None => (Ok tt, w')
           end.

(** [prisma.emailEmbedding.findUnique({ where: { messageId } })] *)
Definition emailEmbedding_findUnique (messageId : string) : M X (option EmailRow) :=
  table_call (EmailFindUnique messageId) ;;;
  d <- getDb ;;
  ret (find (has_message messageId) (emailEmbedding d)).

(** The row appended by a successful [create]. *)
Definition insert_row (r : EmailRow) : M X unit :=
  fun w => (Ok tt,
            {| db := {| emailEmbedding := emailEmbedding (db w) ++ [r];
                        hubSpotContactEmbedding := hubSpotContactEmbedding (db w);
                        user := user (db w) |};
               ext := ext w; trace := trace w |}).

Definition generate_id : M X string :=
  fun w => let (id, x) := new_id (ext w) in
           (Ok id, {| db := db w; ext := x; trace := trace w |}).

(** [prisma.emailEmbedding.create({ data })] *)
Definition emailEmbedding_create (userId : string) (message : GmailMessage)
    (embedding : option (list Q)) : M X unit :=
  table_call (EmailCreate (g_id message)) ;;;
  match g_date message with
  | None => throw invalid_date
  | Some date =>
      d <- getDb ;;
      if existsb (has_message (g_id message)) (emailEmbedding d)
      then throw unique_violation
      else
        id <- generate_id ;;
        insert_row {| e_id := id;
                      e_userId := userId;
                      e_messageId := g_id message;
                      e_subject := g_subject message;
                      e_from := g_from message;
                      e_to := g_to message;
                      e_body := g_body message;
                      e_date := date;
                      e_embedding := embedding |}
  end.

(** The embedding of a message: [null] when the client is disabled or the
    request fails. *)
Definition embedding_for (rag : RAGService) (message : GmailMessage)
    : M X (option (list Q)) :=
  if rag_isOpenAIAvailable rag && rag_embeddings rag then
    try_catch
      (embedding <- embeddings_embedQuery env (message_text message) ;;
       ret (Some embedding))
      (fun error =>
         console "Failed to create embedding, storing without embedding:" (Some error) ;;;
         ret None)
  else ret None.

(** The [for (const message of messages)] loop. *)
Fixpoint store_messages (rag : RAGService) (userId : string)
    (messages : list GmailMessage) : M X unit :=
  match messages with
  | [] => ret tt
  | message :: rest =>
      existing <- emailEmbedding_findUnique (g_id message) ;;
      match existing with
      | Some _ => store_messages rag userId rest
      | None =>
          embedding <- embedding_for rag message ;;
          emailEmbedding_create userId message embedding ;;;
          store_messages rag userId rest
      end
  end.


(** Every run of [m] takes a world to one related to it by [R]. *)
Definition keeps {A : Type} (R : World X -> World X -> Prop) (m : M X A) : Prop :=
  forall w r w', m w = (r, w') -> R w w'.

End Service.

(** The message table only grows, by rows of [userId] whose messages
    were not stored before, and the other tables stay as they are. *)
Definition grown {X : Type} (userId : string) (w w' : World X) : Prop :=
  user (db w') = user (db w) /\
  hubSpotContactEmbedding (db w') = hubSpotContactEmbedding (db w) /\
  exists added,
    emailEmbedding (db w') = emailEmbedding (db w) ++ added /\
    Forall (fun r => e_userId r = userId) added /\
    NoDup (map e_messageId added) /\
    Forall (fun r => ~ In (e_messageId r) (map e_messageId (emailEmbedding (db w)))) added.


(** The message is in the table. *)
Definition stored (d : Database) (message : GmailMessage) : Prop :=
  exists r, In r (emailEmbedding d) /\ e_messageId r = g_id message.

(** The requests for an embedding among the events. *)
Definition embed_calls (t : list Event) : list string :=
  flat_map (fun e => match e with EvEmbed text => [text] | _ => [] end) t.

End Importer.

Module ImportScenario.

Import Importer.

Definition first_letter : GmailMessage :=
  {| g_id := "m1"; g_subject := "Retirement plan"; g_from := "john@example.com";
     g_to := "advisor@example.com"; g_date := Some 10%Z; g_body := "Can we talk?" |}.

Definition second_letter : GmailMessage :=
  {| g_id := "m9"; g_subject := "College fund"; g_from := "mary@example.com";
     g_to := "advisor@example.com"; g_date := Some 20%Z; g_body := "Thank you." |}.

(** The first letter is in the table already; the mailbox lists the
    second one twice. *)
Definition letters : list GmailMessage := [first_letter; second_letter; second_letter].


Definition table_up (_ : TableOp) (x : unit) : option JsThrown * unit := (None, x).

Definition row_id (x : unit) : string * unit := ("row", x).

(** The embedding model is down; the other providers answer. *)
Definition environment : Env unit :=
  Fixture.environment Fixture.embed_down Fixture.db_up Fixture.chat_down Fixture.service_ok.

Definition start : World unit := Fixture.world Scenario.connected_database.

End ImportScenario.

(* ================================================================== *)
(** ** Strings beyond ASCII *)
(* ================================================================== *)

Module JsUnicode.

(** The strings above, with two more code units: U+0130 (capital I with
    dot above) and U+0307 (combining dot above). *)
Inductive CodeUnit : Type :=
| Basic (c : ascii)
| CapitalIDot
| CombiningDot.

Definition Text : Type := list CodeUnit.

Definition eqb (a b : CodeUnit) : bool :=
  match a, b with
  | Basic x, Basic y => Ascii.eqb x y
  | CapitalIDot, CapitalIDot => true
  | CombiningDot, CombiningDot => true
  | _, _ => false
  end.

(** [toLowerCase] of one code unit: U+0130 lower-cases to the two units
    U+0069 U+0307; the combining dot has no case. *)
Definition lower (u : CodeUnit) : Text :=
  match u with
  | Basic c => [Basic (JsString.lower_ascii c)]
  | CapitalIDot => [Basic "i"%char; CombiningDot]
  | CombiningDot => [CombiningDot]
  end.

Definition toLowerCase (s : Text) : Text := flat_map lower s.

(** [s.split(sep)], as [JsString.split]. *)
Fixpoint split (sep : CodeUnit) (s : Text) : list Text :=
  match s with
  | [] => [[]]
  | c :: t =>
      if eqb c sep then [] :: split sep t
      else match split sep t with
           | [] => [[c]]
           | p :: ps => (c :: p) :: ps
           end
  end.

Definition space : CodeUnit := Basic JsString.space.

(** [query.toLowerCase().split(' ').filter(term => term.length > 2)] *)
Definition searchTerms (query : Text) : list Text :=
  filter (fun term => (2 <? length term)%nat) (split space (toLowerCase query)).

(** A string of the development, read as a text. *)
Definition of_string (s : string) : Text := map Basic (list_ascii_of_string s).

(** The query of two capital dotted I. *)
Definition dotted : Text := [CapitalIDot; CapitalIDot].

End JsUnicode.

(* ================================================================== *)
(** * Properties *)
(* ================================================================== *)

(** ** Ordering *)

Section OrderByFacts.

Variable A : Type.
Variable leb : A -> A -> bool.

Lemma insert_perm x l : Permutation (x :: l) (insert leb x l).
Proof.
  induction l as [|y t IH]; simpl.
  - apply Permutation_refl.
  - destruct (leb x y).
    + apply Permutation_refl.
    + eapply perm_trans; [apply perm_swap|]. now apply perm_skip.
Qed.

Lemma order_by_perm l : Permutation l (order_by leb l).
Proof.
  induction l as [|x t IH]; simpl.
  - constructor.
  - eapply perm_trans; [apply perm_skip, IH | apply insert_perm].
Qed.

Lemma order_by_Forall (P : A -> Prop) l : Forall P l -> Forall P (order_by leb l).
Proof.
  intros H. rewrite Forall_forall in *. intros x Hx. apply H.
  eapply Permutation_in; [apply Permutation_sym, order_by_perm | exact Hx].
Qed.

Lemma order_by_length l : length (order_by leb l) = length l.
Proof. symmetry. apply Permutation_length, order_by_perm. Qed.

Hypothesis leb_total : forall x y, leb x y = false -> leb y x = true.

Lemma insert_sorted x l :
  Sorted (fun a b => leb a b = true) l ->
  Sorted (fun a b => leb a b = true) (insert leb x l).
Proof.
  induction l as [|y t IH]; simpl; intros Hs.
  - repeat constructor.
  - destruct (leb x y) eqn:E.
    + constructor; [assumption | now constructor].
    + inversion Hs as [|? ? Hst Hhd]; subst.
      constructor; [now apply IH|].
      destruct t as [|z t']; simpl.
      * constructor. now apply leb_total.
      * destruct (leb x z); constructor.
        -- now apply leb_total.
        -- now inversion Hhd.
Qed.

Lemma order_by_sorted l : Sorted (fun a b => leb a b = true) (order_by leb l).
Proof.
  induction l as [|x t IH]; simpl; [constructor | now apply insert_sorted].
Qed.

End OrderByFacts.

Lemma Forall_firstn (A : Type) (P : A -> Prop) n l :
  Forall P l -> Forall P (firstn n l).
Proof.
  revert l; induction n as [|n IH]; intros [|x t] Hall; simpl; try constructor.
  - now inversion Hall.
  - apply IH. now inversion Hall.
Qed.

Lemma firstn_strongly_sorted (A : Type) (R : A -> A -> Prop) n l :
  StronglySorted R l -> StronglySorted R (firstn n l).
Proof.
  revert l; induction n as [|n IH]; intros [|x t] Hs; simpl; try constructor.
  - inversion Hs; subst. now apply IH.
  - inversion Hs; subst. now apply Forall_firstn.
Qed.

Lemma map_strongly_sorted (A B : Type) (f : A -> B) (R : B -> B -> Prop) l :
  StronglySorted (fun a b => R (f a) (f b)) l -> StronglySorted R (map f l).
Proof.
  induction 1 as [|x t _ IH Hall]; simpl; constructor; auto.
  rewrite Forall_forall in *. intros y Hy.
  apply in_map_iff in Hy as [z [<- Hz]]. now apply Hall.
Qed.

(** Newest first: what [orderBy: { key: 'desc' }, take: limit] returns is
    sorted by decreasing key. *)
Lemma newest_first (A : Type) (key : A -> Z) (limit : nat) (l : list A) :
  StronglySorted (fun a b => (key b <= key a)%Z)
    (firstn limit (order_by (fun a b => (key b <=? key a)%Z) l)).
Proof.
  apply firstn_strongly_sorted.
  assert (Hs : Sorted (fun a b => (key b <=? key a)%Z = true)
                 (order_by (fun a b => (key b <=? key a)%Z) l)).
  { apply order_by_sorted. intros x y H.
    apply Z.leb_gt in H. apply Z.leb_le. lia. }
  apply Sorted_StronglySorted in Hs.
  - induction Hs as [|x t _ IH Hall]; constructor; auto.
    rewrite Forall_forall in *. intros y Hy. apply Z.leb_le. now apply Hall.
  - intros x y z Hxy Hyz. apply Z.leb_le in Hxy, Hyz. apply Z.leb_le. lia.
Qed.

(** ** Rows without a vector sort last *)

Section NullsLast.

Variable R : Type.
Variable key : R -> option Q.

Lemma insert_keyed_some x es ns :
  snd x <> None ->
  Forall (fun p => snd p = None) ns ->
  insert (@by_distance R) x (es ++ ns) = insert (@by_distance R) x es ++ ns.
Proof.
  intros Hx Hns. induction es as [|a es IH]; simpl.
  - destruct ns as [|y t]; simpl; [reflexivity|].
    inversion Hns as [|? ? Hy _]; subst. unfold by_distance, distance_leb. rewrite Hy.
    destruct (snd x); [reflexivity | congruence].
  - destruct (by_distance x a); [reflexivity|]. now rewrite IH.
Qed.

Lemma insert_keyed_none x es ns :
  snd x = None ->
  Forall (fun p => snd p <> None) es ->
  Forall (fun p => snd p = None) ns ->
  insert (@by_distance R) x (es ++ ns) = es ++ x :: ns.
Proof.
  intros Hx Hes Hns. induction es as [|a es IH]; simpl.
  - destruct ns as [|y t]; simpl; [reflexivity|].
    inversion Hns as [|? ? Hy _]; subst. unfold by_distance, distance_leb. now rewrite Hx, Hy.
  - inversion Hes as [|? ? Ha Hes']; subst.
    unfold by_distance at 1, distance_leb. rewrite Hx. destruct (snd a); [|congruence].
    now rewrite IH.
Qed.

Lemma order_by_nulls_last (l : list R) :
  order_by (@by_distance R) (map (keyed key) l) =
  order_by (@by_distance R) (map (keyed key) (filter (fun r => has_embedding (key r)) l))
  ++ map (fun r => (r, None)) (filter (fun r => negb (has_embedding (key r))) l).
Proof.
  induction l as [|r l IH]; simpl; [reflexivity|].
  rewrite IH. destruct (key r) as [d|] eqn:E; simpl.
  - apply insert_keyed_some.
    + unfold keyed. simpl. congruence.
    + apply Forall_forall. intros p Hp. apply in_map_iff in Hp as [z [<- _]]. reflexivity.
  - unfold keyed at 1. rewrite E. apply insert_keyed_none.
    + reflexivity.
    + apply order_by_Forall. apply Forall_forall. intros p Hp.
      apply in_map_iff in Hp as [z [<- Hz]]. apply filter_In in Hz as [_ Hz].
      unfold keyed. simpl. destruct (key z); [congruence | discriminate].
    + apply Forall_forall. intros p Hp. apply in_map_iff in Hp as [z [<- _]]. reflexivity.
Qed.

Lemma ranked_all_embedded (limit : nat) (l : list R) :
  (limit <= length (filter (fun r => has_embedding (key r)) l))%nat ->
  Forall (fun p => snd p <> None) (firstn limit (order_by (@by_distance R) (map (keyed key) l))).
Proof.
  intros Hlen. rewrite order_by_nulls_last, firstn_app.
  rewrite order_by_length, length_map.
  replace (limit - _)%nat with 0%nat by lia. simpl. rewrite app_nil_r.
  apply Forall_firstn, order_by_Forall. apply Forall_forall. intros p Hp.
  apply in_map_iff in Hp as [z [<- Hz]]. apply filter_In in Hz as [_ Hz].
  unfold keyed. simpl. destruct (key z); [congruence | discriminate].
Qed.

End NullsLast.

(** ** Strings *)

Lemma lower_ascii_space c :
  Ascii.eqb (JsString.lower_ascii c) JsString.space = Ascii.eqb c JsString.space.
Proof.
  destruct c as [b0 b1 b2 b3 b4 b5 b6 b7].
  destruct b0, b1, b2, b3, b4, b5, b6, b7; reflexivity.
Qed.

Lemma split_nonempty sep s : JsString.split sep s <> [].
Proof.
  destruct s as [|c t]; simpl; [discriminate|].
  destruct (Ascii.eqb c sep); [discriminate|].
  destruct (JsString.split sep t); discriminate.
Qed.

Lemma filter_long_nil (l : list string) :
  Forall (fun n => (n <= 2)%nat) (map String.length l) ->
  filter (fun term => (2 <? String.length term)%nat) l = [].
Proof.
  induction l as [|x t IH]; simpl; intros H; [reflexivity|].
  inversion H as [|? ? Hx Ht]; subst.
  destruct (Nat.ltb_spec 2 (String.length x)); [lia | now apply IH].
Qed.

Lemma searchTerms_short query :
  Forall (fun tok => (String.length tok <= 2)%nat)
         (JsString.split JsString.space (JsString.toLowerCase query)) ->
  searchTerms query = [].
Proof.
  intros H. unfold searchTerms. apply filter_long_nil. now apply Forall_map.
Qed.

(** The same line of [simpleTextSearch] over texts with the two further
    code units agrees with the one over strings. *)
Lemma toLowerCase_of_string s :
  JsUnicode.toLowerCase (JsUnicode.of_string s)
  = JsUnicode.of_string (JsString.toLowerCase s).
Proof.
  unfold JsUnicode.toLowerCase, JsUnicode.of_string.
  induction s as [|c t IH]; simpl; [reflexivity|]. now rewrite IH.
Qed.

Lemma split_of_string sep s :
  JsUnicode.split (JsUnicode.Basic sep) (JsUnicode.of_string s)
  = map JsUnicode.of_string (JsString.split sep s).
Proof.
  unfold JsUnicode.of_string. induction s as [|c t IH]; simpl; [reflexivity|].
  rewrite IH. destruct (Ascii.eqb c sep); [reflexivity|].
  destruct (JsString.split sep t); reflexivity.
Qed.

Lemma length_of_string s : length (JsUnicode.of_string s) = String.length s.
Proof.
  unfold JsUnicode.of_string. rewrite length_map.
  induction s as [|c t IH]; simpl; congruence.
Qed.

Lemma searchTerms_of_string query :
  JsUnicode.searchTerms (JsUnicode.of_string query)
  = map JsUnicode.of_string (searchTerms query).
Proof.
  unfold JsUnicode.searchTerms, searchTerms, JsUnicode.space.
  rewrite toLowerCase_of_string, split_of_string.
  induction (JsString.split JsString.space (JsString.toLowerCase query)) as [|p ps IH];
    simpl; [reflexivity|].
  rewrite length_of_string. destruct (2 <? String.length p)%nat; simpl; now rewrite IH.
Qed.

(** No term is kept when every token of the lower-cased text is short. *)
Lemma unicode_searchTerms_short query :
  Forall (fun tok => (length tok <= 2)%nat)
         (JsUnicode.split JsUnicode.space (JsUnicode.toLowerCase query)) ->
  JsUnicode.searchTerms query = [].
Proof.
  unfold JsUnicode.searchTerms.
  induction (JsUnicode.split JsUnicode.space (JsUnicode.toLowerCase query)) as [|p ps IH];
    simpl; intros H; [reflexivity|].
  inversion H; subst. destruct (Nat.ltb_spec 2 (length p)); [lia | now apply IH].
Qed.

(** ** The monad *)

Section MonadFacts.

Context {X : Type}.
Variable env : Env X.

Lemma emits_weaken {A} (P Q : Event -> Prop) (m : M X A) :
  (forall e, P e -> Q e) -> emits P m -> emits Q m.
Proof.
  intros HPQ Hm w r w' Hrun. destruct (Hm w r w' Hrun) as [Hdb [evs [Ht Hall]]].
  split; [assumption|]. exists evs. split; [assumption|].
  eapply Forall_impl; eauto.
Qed.

Lemma emits_ret {A} P (a : A) : emits P (@ret X A a).
Proof.
  intros w r w' H. inversion H; subst. split; [reflexivity|].
  exists []. now rewrite app_nil_r.
Qed.

Lemma emits_throw {A} P e : emits P (@throw X A e).
Proof.
  intros w r w' H. inversion H; subst. split; [reflexivity|].
  exists []. now rewrite app_nil_r.
Qed.

Lemma emits_lift {A} P (x : Res A) : emits P (@lift X A x).
Proof.
  intros w r w' H. inversion H; subst. split; [reflexivity|].
  exists []. now rewrite app_nil_r.
Qed.

Lemma emits_getDb P : emits P (@getDb X).
Proof.
  intros w r w' H. inversion H; subst. split; [reflexivity|].
  exists []. now rewrite app_nil_r.
Qed.

Lemma emits_bind {A B} P (m : M X A) (k : A -> M X B) :
  emits P m -> (forall a, emits P (k a)) -> emits P (bind m k).
Proof.
  intros Hm Hk w r w' Hrun. unfold bind in Hrun.
  destruct (m w) as [[a|e] w1] eqn:E.
  - destruct (Hm _ _ _ E) as [Hdb1 [ev1 [Ht1 Hp1]]].
    destruct (Hk a _ _ _ Hrun) as [Hdb2 [ev2 [Ht2 Hp2]]].
    split; [congruence|]. exists (ev1 ++ ev2). split.
    + now rewrite Ht2, Ht1, app_assoc.
    + now apply Forall_app.
  - inversion Hrun; subst. exact (Hm _ _ _ E).
Qed.

Lemma emits_try_catch {A} P (m : M X A) (h : JsThrown -> M X A) :
  emits P m -> (forall e, emits P (h e)) -> emits P (try_catch m h).
Proof.
  intros Hm Hh w r w' Hrun. unfold try_catch in Hrun.
  destruct (m w) as [[a|e] w1] eqn:E.
  - inversion Hrun; subst. exact (Hm _ _ _ E).
  - destruct (Hm _ _ _ E) as [Hdb1 [ev1 [Ht1 Hp1]]].
    destruct (Hh e _ _ _ Hrun) as [Hdb2 [ev2 [Ht2 Hp2]]].
    split; [congruence|]. exists (ev1 ++ ev2). split.
    + now rewrite Ht2, Ht1, app_assoc.
    + now apply Forall_app.
Qed.

Lemma emits_emit (P : Event -> Prop) e : P e -> emits P (@emit X e).
Proof.
  intros HP w r w' H. inversion H; subst. simpl. split; [reflexivity|].
  exists [e]. split; [reflexivity | now constructor].
Qed.

Lemma emits_console (P : Event -> Prop) msg err :
  P (EvLog msg err) -> emits P (@console X msg err).
Proof. apply emits_emit. Qed.

Lemma emits_db_call (P : Event -> Prop) op : P (EvDb op) -> emits P (db_call env op).
Proof.
  intros HP w r w' H. unfold db_call in H.
  destruct (db_fault env op (ext w)) as [[e|] x]; inversion H; subst; simpl;
    (split; [reflexivity|]); exists [EvDb op]; (split; [reflexivity | now constructor]).
Qed.

Lemma emits_embed (P : Event -> Prop) text :
  P (EvEmbed text) -> emits P (embeddings_embedQuery env text).
Proof.
  intros HP w r w' H. unfold embeddings_embedQuery in H.
  destruct (embedQuery env text (ext w)) as [r0 x]; inversion H; subst; simpl.
  split; [reflexivity|]. exists [EvEmbed text]. split; [reflexivity | now constructor].
Qed.

Lemma emits_chat (P : Event -> Prop) req :
  P (EvChat req) -> emits P (openai_chat_completions_create env req).
Proof.
  intros HP w r w' H. unfold openai_chat_completions_create in H.
  destruct (chat_completions_create env req (ext w)) as [r0 x]; inversion H; subst; simpl.
  split; [reflexivity|]. exists [EvChat req]. split; [reflexivity | now constructor].
Qed.

Lemma emits_call (P : Event -> Prop) op : P (EvCollab op) -> emits P (call env op).
Proof.
  intros HP w r w' H. unfold call in H.
  destruct (collab env op (ext w)) as [r0 x]; inversion H; subst; simpl.
  split; [reflexivity|]. exists [EvCollab op]. split; [reflexivity | now constructor].
Qed.

Lemma returns_try_catch {A} (m : M X A) (h : JsThrown -> M X A) :
  (forall e, returns (h e)) -> returns (try_catch m h).
Proof.
  intros Hh w. unfold try_catch. destruct (m w) as [[a|e] w1].
  - now exists a, w1.
  - apply Hh.
Qed.

Lemma returns_console_then {A} msg err (m : M X A) :
  returns m -> returns (bind (console msg err) (fun _ => m)).
Proof.
  intros Hm w. unfold bind, console, emit. apply Hm.
Qed.

Lemma returns_ret {A} (a : A) : returns (@ret X A a).
Proof. intros w. now exists a, w. Qed.

End MonadFacts.

(** Decomposes a goal [emits P m] along the structure of [m]. *)
Ltac emits_step :=
  match goal with
  | |- emits _ (bind _ _) => apply emits_bind; [|intros ?]
  | |- emits _ (try_catch _ _) => apply emits_try_catch; [|intros ?]
  | |- emits _ (ret _) => apply emits_ret
  | |- emits _ (throw _) => apply emits_throw
  | |- emits _ (lift _) => apply emits_lift
  | |- emits _ getDb => apply emits_getDb
  | |- emits _ (console _ _) => apply emits_console; exact I
  | |- emits _ (emit _) => apply emits_emit; exact I
  | |- emits _ (db_call _ _) => apply emits_db_call; exact I
  | |- emits _ (embeddings_embedQuery _ _) => apply emits_embed; exact I
  | |- emits _ (openai_chat_completions_create _ _) => apply emits_chat; exact I
  | |- emits _ (call _ _) => apply emits_call; exact I
  | |- emits _ (if ?b then _ else _) => destruct b
  | |- emits _ (match ?x with _ => _ end) => destruct x
  end.

Ltac emits_auto := repeat emits_step.

(** ** Context retriever *)

Section Retrieval.

Context {X : Type}.
Variable env : Env X.

Lemma simpleTextSearch_quiet userId query limit :
  emits quiet (simpleTextSearch env userId query limit).
Proof. unfold simpleTextSearch, findMany_emails, findMany_contacts. emits_auto. Qed.

Lemma searchRelevantContext_quiet rag userId query limit :
  emits quiet (searchRelevantContext env rag userId query limit).
Proof.
  unfold searchRelevantContext, queryRaw_emails, queryRaw_contacts.
  emits_auto; apply simpleTextSearch_quiet.
Qed.

Lemma getContextForQuestion_quiet rag userId question :
  emits quiet (getContextForQuestion env rag userId question).
Proof.
  unfold getContextForQuestion. emits_auto. apply searchRelevantContext_quiet.
Qed.

(** The lexical path answers from every world: with the matches, or with
    nothing when a [findMany] throws. *)
Lemma simpleTextSearch_result userId query limit (w : World X) :
  exists res w',
    simpleTextSearch env userId query limit w = (Ok res, w') /\
    (res = lexical_result userId query limit (db w) \/ res = empty_result).
Proof.
  cbv beta iota zeta delta [simpleTextSearch try_catch bind findMany_emails findMany_contacts
    db_call getDb ret console emit].
  destruct (db_fault env (FindMany TEmailEmbedding) (ext w)) as [[e|] x1];
    cbv beta iota zeta; cbn [db ext trace].
  - eexists _, _. split; [reflexivity | now right].
  - destruct (db_fault env (FindMany THubSpotContactEmbedding) x1) as [[e|] x2];
      cbv beta iota zeta; cbn [db ext trace].
    + eexists _, _. split; [reflexivity | now right].
    + eexists _, _. split; [reflexivity | now left].
Qed.

Lemma simpleTextSearch_returns userId query limit :
  returns (simpleTextSearch env userId query limit).
Proof.
  intros w. destruct (simpleTextSearch_result userId query limit w) as [res [w' [H _]]].
  now exists res, w'.
Qed.

Lemma searchRelevantContext_returns rag userId query limit :
  returns (searchRelevantContext env rag userId query limit).
Proof.
  unfold searchRelevantContext. apply returns_try_catch. intros e.
  apply returns_console_then, simpleTextSearch_returns.
Qed.

(** Every answer of the retriever is one of three: the similarity
    ranking for the vector the provider returned, the lexical matches, or
    nothing. *)
Lemma searchRelevantContext_result rag userId query limit (w : World X) :
  exists res w',
    searchRelevantContext env rag userId query limit w = (Ok res, w') /\
    (res = lexical_result userId query limit (db w)
     \/ res = empty_result
     \/ exists q, res = similarity_result env userId q limit (db w)).
Proof.
  destruct (searchRelevantContext_returns rag userId query limit w) as [res [w' Hrun]].
  exists res, w'. split; [exact Hrun|].
  revert Hrun. unfold searchRelevantContext, try_catch, bind.
  assert (Hlex : forall w1, db w1 = db w ->
            simpleTextSearch env userId query limit w1 = (Ok res, w') ->
            res = lexical_result userId query limit (db w) \/ res = empty_result
            \/ exists q, res = similarity_result env userId q limit (db w)).
  { intros w1 Hdb H1.
    destruct (simpleTextSearch_result userId query limit w1) as [res1 [w1' [H1' Hc]]].
    rewrite H1 in H1'. inversion H1'; subst. rewrite <- Hdb.
    destruct Hc; [now left | right; now left]. }
  destruct (negb (rag_isOpenAIAvailable rag) || negb (rag_embeddings rag)).
  - destruct (simpleTextSearch env userId query limit w) as [[a|e] w1] eqn:E.
    + intros H; inversion H; subst. now apply (Hlex w).
    + destruct (simpleTextSearch_returns userId query limit w) as [a [w2 H2]]. congruence.
  - cbv beta iota zeta delta [embeddings_embedQuery queryRaw_emails queryRaw_contacts bind
      db_call getDb ret console emit].
    destruct (embedQuery env query (ext w)) as [[q|e] x1]; cbv beta iota zeta; cbn [db ext trace].
    + destruct (db_fault env (QueryRaw TEmailEmbedding) x1) as [[e|] x2];
        cbv beta iota zeta; cbn [db ext trace].
      * apply Hlex. reflexivity.
      * destruct (db_fault env (QueryRaw THubSpotContactEmbedding) x2) as [[e|] x3];
          cbv beta iota zeta; cbn [db ext trace].
        -- apply Hlex. reflexivity.
        -- intros H; inversion H; subst. right; right. now exists q.
    + apply Hlex. reflexivity.
Qed.

Lemma no_rows_no_hits (A : Type) (owner : A -> string) (userId : string)
    (extra : A -> bool) (rows : list A) :
  (forall r, In r rows -> owner r <> userId) ->
  filter (fun r => String.eqb (owner r) userId && extra r) rows = [].
Proof.
  intros H. induction rows as [|r rows IH]; simpl; [reflexivity|].
  destruct (String.eqb_spec (owner r) userId) as [E|E].
  - exfalso. apply (H r); [now left | exact E].
  - simpl. apply IH. intros r' Hr'. apply H. now right.
Qed.

Lemma filter_and_true (A : Type) (f : A -> bool) (rows : list A) :
  filter f rows = filter (fun r => f r && true) rows.
Proof.
  apply filter_ext. intros a. now rewrite andb_true_r.
Qed.

(** C3: the context retriever returns from every world, for every user,
    query, limit and every behaviour of the embedding provider and of the
    database -- [simpleTextSearch] and [searchRelevantContext] alike -- and
    a user without rows in a corpus gets the empty list for that corpus. *)
Theorem retriever_never_raises (rag : RAGService) (userId query : string) (limit : nat)
    (w : World X) :
  (exists res w', simpleTextSearch env userId query limit w = (Ok res, w')) /\
  (exists res w',
     searchRelevantContext env rag userId query limit w = (Ok res, w') /\
     ((forall r, In r (emailEmbedding (db w)) -> e_userId r <> userId) ->
        emails res = []) /\
     ((forall r, In r (hubSpotContactEmbedding (db w)) -> c_userId r <> userId) ->
        contacts res = [])).
Proof.
  split.
  - apply simpleTextSearch_returns.
  - destruct (searchRelevantContext_result rag userId query limit w)
      as [res [w' [Hrun Hres]]].
    exists res, w'. split; [exact Hrun|].
    split; intros Hnone.
    + destruct Hres as [-> | [-> | [q ->]]]; simpl; [|reflexivity|].
      * unfold select_emails. rewrite no_rows_no_hits by assumption.
        simpl. now rewrite firstn_nil.
      * unfold rank_emails. rewrite filter_and_true, no_rows_no_hits by assumption.
        simpl. now rewrite firstn_nil.
    + destruct Hres as [-> | [-> | [q ->]]]; simpl; [|reflexivity|].
      * unfold select_contacts. rewrite no_rows_no_hits by assumption.
        simpl. now rewrite firstn_nil.
      * unfold rank_contacts. rewrite filter_and_true, no_rows_no_hits by assumption.
        simpl. now rewrite firstn_nil.
Qed.

(** C7: every hit of the lexical path carries score 0, and within each
    corpus the hits come newest first (message date, contact creation
    time). *)
Theorem lexical_hits_score_zero_newest_first (userId query : string) (limit : nat)
    (w : World X) :
  exists res w',
    simpleTextSearch env userId query limit w = (Ok res, w') /\
    Forall (fun h => hit_score h = Some 0%Q) (emails res) /\
    Forall (fun h => hit_score h = Some 0%Q) (contacts res) /\
    StronglySorted at_least_as_recent (emails res) /\
    StronglySorted at_least_as_recent (contacts res).
Proof.
  destruct (simpleTextSearch_result userId query limit w) as [res [w' [Hrun Hres]]].
  exists res, w'. split; [exact Hrun|].
  destruct Hres as [-> | ->]; simpl.
  - repeat split.
    + apply Forall_forall. intros h Hh. apply in_map_iff in Hh as [r [<- _]]. reflexivity.
    + apply Forall_forall. intros h Hh. apply in_map_iff in Hh as [r [<- _]]. reflexivity.
    + apply map_strongly_sorted. unfold at_least_as_recent, hit_recency. simpl.
      apply (newest_first e_date).
    + apply map_strongly_sorted. unfold at_least_as_recent, hit_recency. simpl.
      apply (newest_first c_createdAt).
  - repeat split; constructor.
Qed.

(** C10, as the code has it: the tokens that are filtered are those of
    the lower-cased query.  A query none of whose space-separated tokens,
    once lower-cased, is longer than 2 yields no search term, hence an
    empty disjunction, and the lexical path returns two empty lists
    whatever the corpora hold. *)
Theorem short_tokens_match_nothing (userId query : string) (limit : nat) (w : World X) :
  Forall (fun tok => (String.length tok <= 2)%nat)
         (JsString.split JsString.space (JsString.toLowerCase query)) ->
  searchTerms query = [] /\
  (forall r, email_matches (searchTerms query) r = false) /\
  (forall r, contact_matches (searchTerms query) r = false) /\
  exists w', simpleTextSearch env userId query limit w = (Ok empty_result, w').
Proof.
  intros Hshort. pose proof (searchTerms_short query Hshort) as Hterms.
  split; [exact Hterms|]. rewrite Hterms.
  split; [reflexivity|]. split; [reflexivity|].
  destruct (simpleTextSearch_result userId query limit w) as [res [w' [Hrun Hres]]].
  exists w'. rewrite Hrun. f_equal. f_equal.
  destruct Hres as [-> | ->]; [|reflexivity].
  unfold lexical_result, select_emails, select_contacts. rewrite Hterms.
  assert (He : forall rows, filter (fun r : EmailRow =>
             String.eqb (e_userId r) userId && email_matches [] r) rows = []).
  { induction rows as [|r rows IH]; simpl; [reflexivity|]. now rewrite andb_false_r. }
  assert (Hc : forall rows, filter (fun r : ContactRow =>
             String.eqb (c_userId r) userId && contact_matches [] r) rows = []).
  { induction rows as [|r rows IH]; simpl; [reflexivity|]. now rewrite andb_false_r. }
  rewrite He, Hc. simpl. now rewrite !firstn_nil.
Qed.

End Retrieval.

(** An empty database, an embedding provider and a database that both
    throw on every call: the retriever still returns two empty lists. *)
Lemma retriever_never_raises_witness :
  exists res w',
    searchRelevantContext
      (Fixture.environment Fixture.embed_down Fixture.db_down
         Fixture.chat_down Fixture.service_ok)
      Fixture.rag_on "u1" "retirement planning" 5
      (Fixture.world Fixture.empty_database) = (Ok res, w')
    /\ emails res = [] /\ contacts res = [].
Proof.
  destruct (retriever_never_raises
              (Fixture.environment Fixture.embed_down Fixture.db_down
                 Fixture.chat_down Fixture.service_ok)
              Fixture.rag_on "u1" "retirement planning" 5
              (Fixture.world Fixture.empty_database))
    as [_ [res [w' [Hrun [He Hc]]]]].
  exists res, w'. split; [exact Hrun|]. split.
  - apply He. simpl. intros r [].
  - apply Hc. simpl. intros r [].
Defined.

(** The query ["a to do"] against a database that does hold a message
    containing those words. *)
Lemma short_tokens_match_nothing_witness :
  exists w',
    simpleTextSearch
      (Fixture.environment Fixture.embed_ok Fixture.db_up
         Fixture.chat_down Fixture.service_ok)
      "u1" "a to do" 5 (Fixture.world Fixture.database) = (Ok empty_result, w').
Proof.
  apply (short_tokens_match_nothing
           (Fixture.environment Fixture.embed_ok Fixture.db_up
              Fixture.chat_down Fixture.service_ok)
           "u1" "a to do" 5 (Fixture.world Fixture.database)).
  simpl. repeat constructor.
Defined.

(** C10 fails as stated: the query of two capital dotted I has one token,
    of length 2, but its lower-case form has length 4 (each U+0130
    becomes U+0069 U+0307): the code keeps it as a search term and the
    disjunction is not empty. *)
Theorem dotted_capital_i_is_searched :
  Forall (fun tok => (length tok <= 2)%nat)
         (JsUnicode.split JsUnicode.space JsUnicode.dotted) /\
  JsUnicode.searchTerms JsUnicode.dotted
  = [[JsUnicode.Basic "i"%char; JsUnicode.CombiningDot;
      JsUnicode.Basic "i"%char; JsUnicode.CombiningDot]] /\
  JsUnicode.searchTerms JsUnicode.dotted <> [].
Proof.
  split; [repeat constructor|]. split; [reflexivity | discriminate].
Qed.

(** ** Similarity ranking and rows without a vector *)

Section SimilarityRanking.

Context {X : Type}.
Variable env : Env X.

Lemma has_embedding_distance q (e : option (list Q)) :
  has_embedding (distance env q e) = has_embedding e.
Proof. now destruct e. Qed.

Lemma rank_emails_nulls_last userId q limit rows :
  rank_emails env userId q limit rows =
  firstn limit
    (order_by by_distance
       (map (keyed (fun r => distance env q (e_embedding r))) (embedded_emails userId rows))
     ++ map (fun r => (r, None)) (unembedded_emails userId rows)).
Proof.
  unfold rank_emails, embedded_emails, unembedded_emails.
  rewrite order_by_nulls_last. f_equal. f_equal.
  - f_equal. f_equal. apply filter_ext. intros r. apply has_embedding_distance.
  - f_equal. apply filter_ext. intros r. now rewrite has_embedding_distance.
Qed.

Lemma rank_contacts_nulls_last userId q limit rows :
  rank_contacts env userId q limit rows =
  firstn limit
    (order_by by_distance
       (map (keyed (fun r => distance env q (c_embedding r))) (embedded_contacts userId rows))
     ++ map (fun r => (r, None)) (unembedded_contacts userId rows)).
Proof.
  unfold rank_contacts, embedded_contacts, unembedded_contacts.
  rewrite order_by_nulls_last. f_equal. f_equal.
  - f_equal. f_equal. apply filter_ext. intros r. apply has_embedding_distance.
  - f_equal. apply filter_ext. intros r. now rewrite has_embedding_distance.
Qed.

Lemma rank_emails_all_embedded userId q limit rows :
  (limit <= length (embedded_emails userId rows))%nat ->
  Forall (fun h => hit_score h <> None)
    (map similarity_email_hit (rank_emails env userId q limit rows)).
Proof.
  intros Hlen. apply Forall_forall. intros h Hh.
  apply in_map_iff in Hh as [[r d] [<- Hp]]. simpl.
  unfold rank_emails in Hp.
  pose proof (@ranked_all_embedded _ (fun r => distance env q (e_embedding r)) limit
                (filter (fun r => String.eqb (e_userId r) userId) rows)) as Hall.
  rewrite Forall_forall in Hall. refine (Hall _ (r, d) Hp).
  unfold embedded_emails in Hlen.
  erewrite filter_ext; [exact Hlen|]. intros a. apply has_embedding_distance.
Qed.

Lemma rank_contacts_all_embedded userId q limit rows :
  (limit <= length (embedded_contacts userId rows))%nat ->
  Forall (fun h => hit_score h <> None)
    (map similarity_contact_hit (rank_contacts env userId q limit rows)).
Proof.
  intros Hlen. apply Forall_forall. intros h Hh.
  apply in_map_iff in Hh as [[r d] [<- Hp]]. simpl.
  unfold rank_contacts in Hp.
  pose proof (@ranked_all_embedded _ (fun r => distance env q (c_embedding r)) limit
                (filter (fun r => String.eqb (c_userId r) userId) rows)) as Hall.
  rewrite Forall_forall in Hall. refine (Hall _ (r, d) Hp).
  unfold embedded_contacts in Hlen.
  erewrite filter_ext; [exact Hlen|]. intros a. apply has_embedding_distance.
Qed.

(** C2, as the code has it: when the embedding provider is available and
    the vector queries succeed, the items of the user that have no
    vector are not left out; each corpus is answered with the embedded
    items by ascending distance, followed by the items without a vector
    (their distance, hence their score, is NULL), cut at [limit].  So no
    item without a vector is returned when at least [limit] of the user's
    items in that corpus have one. *)
Theorem similarity_ranks_unembedded_last (rag : RAGService) (userId query : string)
    (limit : nat) (w : World X) (q : list Q) (x1 x2 x3 : X) :
  rag_isOpenAIAvailable rag = true ->
  rag_embeddings rag = true ->
  embedQuery env query (ext w) = (Ok q, x1) ->
  db_fault env (QueryRaw TEmailEmbedding) x1 = (None, x2) ->
  db_fault env (QueryRaw THubSpotContactEmbedding) x2 = (None, x3) ->
  exists res w',
    searchRelevantContext env rag userId query limit w = (Ok res, w') /\
    emails res =
      map similarity_email_hit
        (firstn limit
           (order_by by_distance
              (map (keyed (fun r => distance env q (e_embedding r)))
                 (embedded_emails userId (emailEmbedding (db w))))
            ++ map (fun r => (r, None)) (unembedded_emails userId (emailEmbedding (db w))))) /\
    contacts res =
      map similarity_contact_hit
        (firstn limit
           (order_by by_distance
              (map (keyed (fun r => distance env q (c_embedding r)))
                 (embedded_contacts userId (hubSpotContactEmbedding (db w))))
            ++ map (fun r => (r, None))
                 (unembedded_contacts userId (hubSpotContactEmbedding (db w))))) /\
    ((limit <= length (embedded_emails userId (emailEmbedding (db w))))%nat ->
       Forall (fun h => hit_score h <> None) (emails res)) /\
    ((limit <= length (embedded_contacts userId (hubSpotContactEmbedding (db w))))%nat ->
       Forall (fun h => hit_score h <> None) (contacts res)).
Proof.
  intros Havail Hclient Hembed Hq1 Hq2.
  exists (similarity_result env userId q limit (db w)).
  eexists. split; [|split; [|split; [|split]]].
  - cbv beta iota zeta delta [searchRelevantContext try_catch bind embeddings_embedQuery
      queryRaw_emails queryRaw_contacts db_call getDb ret].
    rewrite Havail, Hclient. cbn [negb orb]. rewrite Hembed.
    cbv beta iota zeta. cbn [db ext trace]. rewrite Hq1.
    cbv beta iota zeta. cbn [db ext trace]. rewrite Hq2.
    reflexivity.
  - simpl. now rewrite rank_emails_nulls_last.
  - simpl. now rewrite rank_contacts_nulls_last.
  - simpl. apply rank_emails_all_embedded.
  - simpl. apply rank_contacts_all_embedded.
Qed.

End SimilarityRanking.

(** Three messages, two with a vector; with [limit = 2] only those two
    are returned, and the run is the one of the theorem. *)
Lemma similarity_ranks_unembedded_last_witness :
  exists res w',
    searchRelevantContext
      (Fixture.environment Fixture.embed_ok Fixture.db_up
         Fixture.chat_down Fixture.service_ok)
      Fixture.rag_on "u1" "retirement" 2 (Fixture.world Fixture.database) = (Ok res, w')
    /\ Forall (fun h => hit_score h <> None) (emails res).
Proof.
  destruct (@similarity_ranks_unembedded_last unit
              (Fixture.environment Fixture.embed_ok Fixture.db_up
                 Fixture.chat_down Fixture.service_ok)
              Fixture.rag_on "u1" "retirement" 2 (Fixture.world Fixture.database)
              [1%Q; 0%Q] tt tt tt
              eq_refl eq_refl eq_refl eq_refl eq_refl)
    as [res [w' [Hrun [_ [_ [He _]]]]]].
  exists res, w'. split; [exact Hrun|]. apply He. simpl. lia.
Defined.

(** C2 fails as stated: with the embedding provider available and both
    vector queries answered, the message that was imported without a
    vector is among the ranked results (five are asked for, two messages
    have a vector). *)
Lemma unembedded_message_is_ranked :
  exists res w',
    searchRelevantContext
      (Fixture.environment Fixture.embed_ok Fixture.db_up
         Fixture.chat_down Fixture.service_ok)
      Fixture.rag_on "u1" "retirement" 5 (Fixture.world Fixture.database) = (Ok res, w')
    /\ trace w' = [ EvEmbed "retirement";
                    EvDb (QueryRaw TEmailEmbedding);
                    EvDb (QueryRaw THubSpotContactEmbedding) ]
    /\ ~ excludes_unembedded Fixture.database res.
Proof.
  eexists. eexists. split; [|split].
  - vm_compute. reflexivity.
  - reflexivity.
  - intros H. apply (H Fixture.unembedded_mail).
    + simpl. right. left. reflexivity.
    + reflexivity.
    + simpl. right. right. left. reflexivity.
Qed.

(** ** Fallback path *)

Section Fallback.

Context {X : Type}.
Variable env : Env X.

Lemma user_findUnique_quiet id inc : emits quiet (user_findUnique env id inc).
Proof. unfold user_findUnique. emits_auto. Qed.

Lemma handleFallbackResponse_quiet agent message :
  emits quiet (handleFallbackResponse env agent message).
Proof.
  unfold handleFallbackResponse. emits_auto.
  - apply getContextForQuestion_quiet.
  - apply user_findUnique_quiet.
Qed.

Lemma append_nonempty (a b : string) : a <> "" -> (a ++ b)%string <> "".
Proof. destruct a; [congruence | discriminate]. Qed.

(** The fallback returns from every world, with a non-empty text, an
    empty invocation list and no outcome list. *)
Lemma handleFallbackResponse_result agent message (w : World X) :
  exists resp w',
    handleFallbackResponse env agent message w = (Ok resp, w') /\
    (exists text, content resp = Some text /\ text <> "") /\
    toolCalls resp = Some [] /\
    toolResults resp = None.
Proof.
  unfold handleFallbackResponse, try_catch.
  match goal with |- context [bind ?m ?k w] => destruct (bind m k w) as [[resp|e] w1] eqn:E end.
  - exists resp, w1. split; [reflexivity|].
    unfold bind in E.
    destruct (getContextForQuestion env (rag agent) (userId agent) message w)
      as [[ctx|e] w2]; [|discriminate].
    destruct (user_findUnique env (userId agent) false w2) as [[u|e] w3]; [|discriminate].
    unfold ret in E. inversion E; subst. cbn [content toolCalls toolResults].
    split; [|split; reflexivity].
    eexists. split; [reflexivity|].
    apply append_nonempty.
    destruct (ongoing_instructions u); destruct (JsString.truthy ctx);
      repeat apply append_nonempty; discriminate.
  - unfold bind, console, emit, ret. eexists _, _. split; [reflexivity|].
    cbn [content toolCalls toolResults]. split; [|split; reflexivity].
    eexists. split; [reflexivity | discriminate].
Qed.

Lemma quiet_no_calls (evs : list Event) :
  Forall quiet evs ->
  model_calls evs = [] /\ dispatched evs = [] /\ collab_calls evs = [].
Proof.
  induction 1 as [|e t He _ [IH1 [IH2 IH3]]]; [now repeat split|].
  destruct e; simpl in *; try contradiction; now repeat split.
Qed.

(** C4: when the completion provider is flagged unavailable (the flag is
    unset or the client is [null]), [processMessage] returns, from every
    world and for every message, a response whose text is a non-empty
    string and whose invocation list is empty; the run calls the language
    model zero times and enters the tool dispatcher zero times. *)
Theorem unavailable_model_falls_back (agent : FinancialAdvisorAgent) (message : string)
    (history : list ChatMessage) (w : World X) :
  isOpenAIAvailable agent = false \/ openai agent = false ->
  exists resp w' evs,
    processMessage env agent message history w = (Ok resp, w') /\
    trace w' = trace w ++ evs /\
    model_calls evs = [] /\
    dispatched evs = [] /\
    collab_calls evs = [] /\
    toolCalls resp = Some [] /\
    exists text, content resp = Some text /\ text <> "".
Proof.
  intros Hflag.
  destruct (handleFallbackResponse_result agent message w)
    as [resp [w' [Hrun [Htext [Hcalls _]]]]].
  destruct (handleFallbackResponse_quiet agent message w Hrun) as [_ [evs [Htrace Hquiet]]].
  destruct (quiet_no_calls Hquiet) as [Hm [Hd Hc]].
  exists resp, w', evs.
  split; [|now repeat split].
  unfold processMessage, try_catch.
  assert (Hb : negb (isOpenAIAvailable agent) || negb (openai agent) = true).
  { destruct Hflag as [-> | ->]; [reflexivity | apply orb_true_r]. }
  rewrite Hb, Hrun. reflexivity.
Qed.

End Fallback.

(** The agent whose client failed to initialize, asked a question. *)
Lemma unavailable_model_falls_back_witness :
  exists resp w' evs,
    processMessage
      (Fixture.environment Fixture.embed_down Fixture.db_up
         Fixture.chat_down Fixture.service_ok)
      Fixture.offline_agent "When is my next meeting?" [] (Fixture.world Fixture.database)
      = (Ok resp, w') /\
    trace w' = trace (Fixture.world Fixture.database) ++ evs /\
    model_calls evs = [] /\
    dispatched evs = [] /\
    collab_calls evs = [] /\
    toolCalls resp = Some [] /\
    exists text, content resp = Some text /\ text <> "".
Proof.
  apply (@unavailable_model_falls_back unit
           (Fixture.environment Fixture.embed_down Fixture.db_up
              Fixture.chat_down Fixture.service_ok)
           Fixture.offline_agent "When is my next meeting?" []
           (Fixture.world Fixture.database)).
  left. reflexivity.
Defined.

(** ** Credentials of the two Gmail tools *)

Section Credentials.

Context {X : Type}.
Variable env : Env X.

Lemma stored_token_lookups_app a b :
  stored_token_lookups (a ++ b) = (stored_token_lookups a + stored_token_lookups b)%nat.
Proof. unfold stored_token_lookups. now rewrite filter_app, length_app. Qed.

Lemma session_probes_app a b : session_probes (a ++ b) = session_probes a ++ session_probes b.
Proof. unfold session_probes. apply flat_map_app. Qed.

Lemma not_credential_counts evs :
  Forall not_credential evs -> session_probes evs = [] /\ stored_token_lookups evs = 0%nat.
Proof.
  induction 1 as [|e t He _ [IH1 IH2]]; [now split|].
  unfold stored_token_lookups in *.
  destruct e as [| | |[| |id [|]]|[]|]; simpl in *; try contradiction; now split.
Qed.

(** The credential block, case by case: the session token is probed
    first and once; if the probe is refused, the stored token is read by
    [createForUserWithSession], and read again by the handler's own
    [catch] when that first read fails. *)
Lemma gmail_for_tool_spec agent tok (w : World X) :
  sessionToken agent = Some tok ->
  JsString.truthy tok = true ->
  exists r w' evs,
    gmail_for_tool env agent w = (r, w') /\
    trace w' = trace w ++ EvCollab (GmailGetProfile tok) :: evs /\
    session_probes evs = [] /\
    ((exists v x, collab env (GmailGetProfile tok) (ext w) = (Ok v, x)
                  /\ r = Ok tok /\ stored_token_lookups evs = 0%nat)
     \/ (exists e x, collab env (GmailGetProfile tok) (ext w) = (Throw e, x)
                  /\ match r with
                     | Ok _ => stored_token_lookups evs = 1%nat \/ stored_token_lookups evs = 2%nat
                     | Throw _ => stored_token_lookups evs = 2%nat
                     end)).
Proof.
  intros Htok Htruthy.
  cbv beta iota zeta delta [gmail_for_tool GmailService_createForUserWithSession
    GmailService_createForUser user_findUnique try_catch bind call console emit db_call
    getDb ret throw].
  rewrite Htok, Htruthy.
  destruct (collab env (GmailGetProfile tok) (ext w)) as [[v|e] x1] eqn:Eprobe;
    cbv beta iota zeta; cbn [db ext trace].
  - eexists _, _, []. split; [reflexivity|]. split; [reflexivity|]. split; [reflexivity|].
    left. now exists v, x1.
  - destruct (db_fault env (UserFindUnique (userId agent) true) x1) as [[e1|] x2];
      cbv beta iota zeta; cbn [db ext trace].
    + destruct (db_fault env (UserFindUnique (userId agent) true) x2) as [[e2|] x3];
        cbv beta iota zeta; cbn [db ext trace].
      * eexists _, _, _. split; [reflexivity|].
        split; [rewrite <- !app_assoc; reflexivity|]. split; [reflexivity|].
        right. exists e, x1. split; [reflexivity|]. reflexivity.
      * destruct (stored_access_token _) as [t|];
          (eexists _, _, _; split; [reflexivity|];
           split; [rewrite <- !app_assoc; reflexivity|]; split; [reflexivity|];
           right; exists e, x1; split; [reflexivity|]).
        -- right. reflexivity.
        -- reflexivity.
    + destruct (stored_access_token _) as [t|] eqn:Estored;
        cbv beta iota zeta; cbn [db ext trace].
      * eexists _, _, _. split; [reflexivity|].
        split; [rewrite <- !app_assoc; reflexivity|]. split; [reflexivity|].
        right. exists e, x1. split; [reflexivity|]. left. reflexivity.
      * destruct (db_fault env (UserFindUnique (userId agent) true) x2) as [[e2|] x3];
          cbv beta iota zeta; cbn [db ext trace].
        -- eexists _, _, _. split; [reflexivity|].
           split; [rewrite <- !app_assoc; reflexivity|]. split; [reflexivity|].
           right. exists e, x1. split; [reflexivity|]. reflexivity.
        -- rewrite Estored.
           eexists _, _, _. split; [reflexivity|].
           split; [rewrite <- !app_assoc; reflexivity|]. split; [reflexivity|].
           right. exists e, x1. split; [reflexivity|]. reflexivity.
Qed.

Lemma after_gmail_search gmail parsedArgs :
  emits not_credential
    (query <- lift (Js.prop parsedArgs "query") ;;
     maxResults <- lift (Js.prop parsedArgs "maxResults") ;;
     call env (GmailSearchMessages gmail query maxResults)).
Proof. emits_auto. Qed.

Lemma after_gmail_send gmail parsedArgs :
  emits not_credential
    (to <- lift (Js.prop parsedArgs "to") ;;
     subject <- lift (Js.prop parsedArgs "subject") ;;
     body <- lift (Js.prop parsedArgs "body") ;;
     call env (GmailSendEmail gmail to subject body)).
Proof. emits_auto. Qed.

(** What follows the credential block in a handler [gmail_for_tool >>= k]. *)
Lemma credential_then {A} agent tok (k : GmailService -> M X A) (w : World X) :
  sessionToken agent = Some tok ->
  JsString.truthy tok = true ->
  (forall gmail, emits not_credential (k gmail)) ->
  exists r w' evs,
    bind (gmail_for_tool env agent) k w = (r, w') /\
    trace w' = trace w ++ EvCollab (GmailGetProfile tok) :: evs /\
    session_probes evs = [] /\
    (stored_token_lookups evs <= 2)%nat /\
    (forall v x, collab env (GmailGetProfile tok) (ext w) = (Ok v, x) ->
       stored_token_lookups evs = 0%nat) /\
    (forall e x, collab env (GmailGetProfile tok) (ext w) = (Throw e, x) ->
       (1 <= stored_token_lookups evs)%nat) /\
    (forall e w1, gmail_for_tool env agent w = (Throw e, w1) ->
       r = Throw e /\ w' = w1 /\ stored_token_lookups evs = 2%nat).
Proof.
  intros Htok Htruthy Hk.
  destruct (gmail_for_tool_spec agent w Htok Htruthy)
    as [rg [wg [evg [Hrun [Htrace [Hprobes Hcases]]]]]].
  unfold bind. rewrite Hrun. destruct rg as [gmail|eg].
  - destruct (k gmail wg) as [r w'] eqn:Ek.
    destruct (Hk gmail wg r w' Ek) as [_ [evk [Htk Hnc]]].
    destruct (not_credential_counts Hnc) as [Hp0 Hl0].
    exists r, w', (evg ++ evk). split; [reflexivity|].
    split; [rewrite Htk, Htrace, <- app_assoc; reflexivity|].
    rewrite session_probes_app, stored_token_lookups_app, Hprobes, Hp0, Hl0, Nat.add_0_r.
    split; [reflexivity|].
    destruct Hcases as [[v [x [Hc [_ Hz]]]] | [e [x [Hc Hn]]]].
    + rewrite Hz. split; [lia|]. split; [reflexivity|].
      split; [intros e x' Hc'; congruence|].
      intros e w1 Habs. congruence.
    + split; [destruct Hn; lia|]. split; [intros v x' Hc'; congruence|].
      split; [intros e' x' _; destruct Hn; lia|].
      intros e' w1 Habs. congruence.
  - exists (Throw eg), wg, evg. split; [reflexivity|]. split; [exact Htrace|].
    split; [exact Hprobes|].
    destruct Hcases as [[v [x [Hc [Habs _]]]] | [e [x [Hc Hn]]]]; [discriminate|].
    rewrite Hn. split; [lia|]. split; [intros v x' Hc'; congruence|].
    split; [intros e' x' _; lia|].
    intros e' w1 Habs. inversion Habs; subst. now repeat split.
Qed.

(** C6, as the code has it: for the two credential-requiring tools, when
    a per-request session token is supplied the handler first probes
    that token, once.  If the probe succeeds the stored token is never
    read.  If it fails the stored token is read inside
    [createForUserWithSession], and if that read fails too it is read a
    second time by the handler's own [catch]: the stored-token fallback
    runs at most twice per tool call, and exactly twice before the tool
    call fails for lack of a credential. *)
Theorem credential_fallback_at_most_twice (agent : FinancialAdvisorAgent) (tok : string)
    (t : ToolName) (parsedArgs : JsVal) (w : World X) :
  sessionToken agent = Some tok ->
  JsString.truthy tok = true ->
  t = SearchEmails \/ t = SendEmail ->
  exists r w' evs,
    run_tool env agent t parsedArgs w = (r, w') /\
    trace w' = trace w ++ EvCollab (GmailGetProfile tok) :: evs /\
    session_probes evs = [] /\
    (stored_token_lookups evs <= 2)%nat /\
    (forall v x, collab env (GmailGetProfile tok) (ext w) = (Ok v, x) ->
       stored_token_lookups evs = 0%nat) /\
    (forall e x, collab env (GmailGetProfile tok) (ext w) = (Throw e, x) ->
       (1 <= stored_token_lookups evs)%nat) /\
    (forall e w1, gmail_for_tool env agent w = (Throw e, w1) ->
       r = Throw e /\ w' = w1 /\ stored_token_lookups evs = 2%nat).
Proof.
  intros Htok Htruthy [-> | ->]; unfold run_tool.
  - apply credential_then; auto. intros gmail. apply after_gmail_search.
  - apply credential_then; auto. intros gmail. apply after_gmail_send.
Qed.

End Credentials.

(** [search_emails] with the session's token, a refused probe and a user
    without a stored Google account. *)
Lemma credential_fallback_at_most_twice_witness :
  exists r w' evs,
    run_tool
      (Fixture.environment Fixture.embed_ok Fixture.db_up
         Fixture.chat_down Fixture.service_probe_refused)
      Fixture.chat_agent SearchEmails (JObj []) (Fixture.world Fixture.database) = (r, w') /\
    trace w' = EvCollab (GmailGetProfile "session-token") :: evs /\
    (stored_token_lookups evs <= 2)%nat.
Proof.
  destruct (@credential_fallback_at_most_twice unit
              (Fixture.environment Fixture.embed_ok Fixture.db_up
                 Fixture.chat_down Fixture.service_probe_refused)
              Fixture.chat_agent "session-token" SearchEmails (JObj [])
              (Fixture.world Fixture.database) eq_refl eq_refl (or_introl eq_refl))
    as [r [w' [evs [Hrun [Htrace [_ [Hle _]]]]]]].
  exists r, w', evs. split; [exact Hrun|]. split; [exact Htrace | exact Hle].
Defined.

(** C6 fails as stated: the session probe is refused and the user has no
    stored Google account; before the [search_emails] call fails, the
    stored token has been read twice, not once. *)
Lemma stored_token_is_read_twice :
  exists e w',
    executeToolCall
      (Fixture.environment Fixture.embed_ok Fixture.db_up
         Fixture.chat_down Fixture.service_probe_refused)
      Fixture.chat_agent (js_of_toolCall Fixture.search_call)
      (Fixture.world Fixture.database) = (Throw e, w') /\
    session_probes (trace w') = ["session-token"] /\
    stored_token_lookups (trace w') = 2%nat /\
    stored_token_lookups (trace w') <> 1%nat.
Proof.
  eexists. eexists. split; [vm_compute; reflexivity|].
  split; [reflexivity|]. split; [reflexivity | discriminate].
Qed.

(** ** Tool dispatcher *)

Section Dispatcher.

Context {X : Type}.
Variable env : Env X.

Lemma tool_of_name_unknown n : ~ In n tool_names -> tool_of_name n = None.
Proof.
  intros Hn. unfold tool_of_name.
  repeat match goal with
         | |- context [String.eqb n ?s] =>
             destruct (String.eqb_spec n s) as [->|_];
             [exfalso; apply Hn; simpl; tauto|]
         end.
  reflexivity.
Qed.

Lemma run_tool_service_only agent t parsedArgs :
  emits service_only (run_tool env agent t parsedArgs).
Proof.
  destruct t;
    unfold run_tool, gmail_for_tool, GmailService_createForUserWithSession,
      GmailService_createForUser, HubSpotService_createForUser,
      CalendarService_createForUser, user_findUnique;
    emits_auto.
Qed.

(** A dispatch is recorded first; what follows is the handler's own
    business: no model call and no nested dispatch. *)
Lemma executeToolCall_trace agent toolCall (w : World X) r w' :
  executeToolCall env agent toolCall w = (r, w') ->
  db w' = db w /\
  exists evs, trace w' = trace w ++ EvDispatch toolCall :: evs /\ Forall service_only evs.
Proof.
  unfold executeToolCall. unfold bind at 1. unfold emit at 1. intros Hrun.
  match type of Hrun with
  | ?k ?w1 = _ =>
      assert (Hk : emits service_only k);
      [| destruct (Hk w1 r w' Hrun) as [Hdb [evs [Ht Hall]]] ]
  end.
  - emits_auto. apply run_tool_service_only.
  - split; [exact Hdb|]. exists evs. split; [|exact Hall].
    rewrite Ht. cbn [trace]. now rewrite <- app_assoc.
Qed.

Lemma service_only_no_calls evs :
  Forall service_only evs ->
  Forall not_chat evs /\ dispatched evs = [] /\ model_calls evs = [].
Proof.
  induction 1 as [|e t He _ [IH1 [IH2 IH3]]]; [now repeat split|].
  destruct e; simpl in *; try contradiction; repeat split; auto.
Qed.

Lemma dispatched_app a b : dispatched (a ++ b) = dispatched a ++ dispatched b.
Proof. apply flat_map_app. Qed.

Lemma model_calls_app a b : model_calls (a ++ b) = model_calls a ++ model_calls b.
Proof. apply flat_map_app. Qed.

(** One iteration of the loop never throws: it records what the dispatch
    did. *)
Lemma tool_outcome_spec agent toolCall (w : World X) :
  tool_outcome env agent toolCall w =
  (Ok (outcome_of env toolCall (fst (executeToolCall env agent (js_of_toolCall toolCall) w))),
   snd (executeToolCall env agent (js_of_toolCall toolCall) w)).
Proof.
  unfold tool_outcome, try_catch, bind, ret.
  destruct (executeToolCall env agent (js_of_toolCall toolCall) w) as [[v|e] w1]; reflexivity.
Qed.

(** C9, as the code has it: an invocation whose name is none of the
    eleven declared tool names never makes the loop iteration throw and
    reaches no collaborator; its outcome is an error outcome.  The error
    recorded is ["Unknown tool: <name>"] when the invocation's argument
    text parses as JSON, and the parse error's message when it does not,
    because the arguments are parsed before the name is looked at. *)
Theorem unknown_tool_yields_error_outcome (agent : FinancialAdvisorAgent) (tc : ToolCall)
    (w : World X) :
  ~ In (tc_name tc) tool_names ->
  exists r w',
    tool_outcome env agent tc w = (Ok r, w') /\
    tool_call_id r = tc_id tc /\
    trace w' = trace w ++ [EvDispatch (js_of_toolCall tc)] /\
    (exists e, tr_content r = JSON_stringify env (JObj [("error", JStr (error_text e))])) /\
    (forall parsed, JSON_parse env (JStr (tc_arguments tc)) = Ok parsed ->
       tr_content r =
       JSON_stringify env (JObj [("error", JStr ("Unknown tool: " ++ tc_name tc))])) /\
    (forall e, JSON_parse env (JStr (tc_arguments tc)) = Throw e ->
       tr_content r = JSON_stringify env (JObj [("error", JStr (error_text e))])).
Proof.
  intros Hunknown.
  cbv beta iota zeta delta [tool_outcome executeToolCall try_catch bind emit lift ret throw
    js_of_toolCall].
  cbn [Js.prop Js.lookup String.eqb Ascii.eqb Bool.eqb].
  destruct (JSON_parse env (JStr (tc_arguments tc))) as [parsed|e] eqn:Eparse;
    cbv beta iota zeta.
  - rewrite (tool_of_name_unknown Hunknown). cbv beta iota zeta.
    eexists _, _. split; [reflexivity|]. cbn [tool_call_id tr_content trace].
    split; [reflexivity|]. split; [reflexivity|].
    split; [now exists (unknown_tool (tc_name tc))|].
    split; [reflexivity | discriminate].
  - eexists _, _. split; [reflexivity|]. cbn [tool_call_id tr_content trace].
    split; [reflexivity|]. split; [reflexivity|].
    split; [now exists e|].
    split; [discriminate|]. intros e' He'. now inversion He'.
Qed.

End Dispatcher.

(** An undeclared tool name with well-formed (empty-object) arguments. *)
Lemma unknown_tool_yields_error_outcome_witness :
  exists r w',
    tool_outcome
      (Fixture.environment Fixture.embed_ok Fixture.db_up
         Fixture.chat_down Fixture.service_ok)
      Fixture.chat_agent
      {| tc_id := "call_3"; tc_name := "transfer_funds"; tc_arguments := "{}" |}
      (Fixture.world Fixture.database) = (Ok r, w') /\
    tr_content r = Fixture.stringify (JObj [("error", JStr "Unknown tool: transfer_funds")]).
Proof.
  destruct (@unknown_tool_yields_error_outcome unit
              (Fixture.environment Fixture.embed_ok Fixture.db_up
                 Fixture.chat_down Fixture.service_ok)
              Fixture.chat_agent
              {| tc_id := "call_3"; tc_name := "transfer_funds"; tc_arguments := "{}" |}
              (Fixture.world Fixture.database))
    as [r [w' [Hrun [_ [_ [_ [Hparsed _]]]]]]].
  - simpl. intros H.
    repeat (destruct H as [H|H]; [discriminate H|]). exact H.
  - exists r, w'. split; [exact Hrun|]. apply (Hparsed (JObj [])). reflexivity.
Defined.

(** C9 fails as stated: an undeclared tool name whose argument text is
    the malformed ["{"].  The outcome is an error outcome, but the error
    recorded is the JSON syntax error, not the unknown-tool error. *)
Lemma unknown_tool_with_malformed_arguments :
  ~ In (tc_name Fixture.unknown_call) tool_names /\
  exists r w',
    tool_outcome
      (Fixture.environment Fixture.embed_ok Fixture.db_up
         Fixture.chat_down Fixture.service_ok)
      Fixture.chat_agent Fixture.unknown_call (Fixture.world Fixture.database) = (Ok r, w') /\
    tr_content r =
      Fixture.stringify (JObj [("error", JStr "Unexpected end of JSON input")]) /\
    tr_content r <>
      Fixture.stringify (JObj [("error", JStr "Unknown tool: delete_everything")]).
Proof.
  split.
  - simpl. intros H.
    repeat (destruct H as [H|H]; [discriminate H|]). exact H.
  - eexists. eexists. split; [vm_compute; reflexivity|].
    split; [reflexivity|]. vm_compute. discriminate.
Qed.

(** ** Tool loop *)

Section ToolLoop.

Context {X : Type}.
Variable env : Env X.

Lemma LoopRun_length agent (w : World X) calls results w' :
  LoopRun env agent w calls results w' ->
  length results = length calls /\ map tool_call_id results = map tc_id calls.
Proof.
  induction 1 as [|w toolCall rest r w1 results w' Hexec _ [IHl IHm]]; [now split|].
  simpl. split; congruence.
Qed.

(** The loop returns from every world; it is a [LoopRun]; between its
    start and its end the model is never called, and the dispatcher is
    entered once per invocation, in order. *)
Lemma tool_loop_spec agent calls :
  forall acc (w : World X),
  exists results w' evs,
    tool_loop env agent calls acc w = (Ok (acc ++ results), w') /\
    LoopRun env agent w calls results w' /\
    trace w' = trace w ++ evs /\
    Forall not_chat evs /\
    dispatched evs = map js_of_toolCall calls.
Proof.
  induction calls as [|toolCall rest IH]; intros acc w.
  - exists [], w, []. simpl. rewrite !app_nil_r.
    repeat split; constructor.
  - simpl. unfold bind. rewrite tool_outcome_spec.
    destruct (executeToolCall env agent (js_of_toolCall toolCall) w) as [r w1] eqn:Eexec.
    cbn [fst snd].
    destruct (@executeToolCall_trace X env agent (js_of_toolCall toolCall) w r w1 Eexec) as [_ [ev1 [Ht1 Hs1]]].
    destruct (service_only_no_calls Hs1) as [Hnc1 [Hd1 _]].
    destruct (IH (acc ++ [outcome_of env toolCall r]) w1)
      as [results [w' [evs [Hrun [Hloop [Ht [Hnc Hd]]]]]]].
    exists (outcome_of env toolCall r :: results), w', ((EvDispatch (js_of_toolCall toolCall) :: ev1) ++ evs).
    split; [rewrite Hrun, <- app_assoc; reflexivity|].
    split; [econstructor; eassumption|].
    split; [rewrite Ht, Ht1, <- app_assoc; reflexivity|].
    split.
    + apply Forall_app. split; [constructor; [exact I | exact Hnc1] | exact Hnc].
    + rewrite dispatched_app. simpl. now rewrite Hd1, Hd.
Qed.

Lemma meeting_data_pure calls results (w : World X) :
  snd (meeting_data env calls results w) = w.
Proof.
  unfold meeting_data.
  destruct (find _ calls) as [calendarSearch|]; [|reflexivity].
  destruct (find _ results) as [calendarResult|]; [|reflexivity].
  unfold bind, lift, ret, throw.
  destruct (JSON_parse env _) as [result|e]; [|reflexivity].
  destruct (Js.truthy result); [|reflexivity].
  destruct (Js.prop result "error") as [err|e]; [|reflexivity].
  destruct (negb (Js.truthy err)); [|reflexivity].
  destruct result; try reflexivity.
  destruct (mapM_res _ _); reflexivity.
Qed.

(** The tool branch of [processMessage]: the loop, then exactly one more
    model call -- without the tool schema, on the transcript extended by
    the assistant's message and the outcomes -- and nothing after it. *)
Lemma tool_branch_spec agent messages messageResponse calls (w : World X) :
  exists results wl loop,
    tool_loop env agent calls [] w = (Ok results, wl) /\
    LoopRun env agent w calls results wl /\
    trace wl = trace w ++ loop /\
    Forall not_chat loop /\
    dispatched loop = map js_of_toolCall calls /\
    let req2 := {| req_model := "gpt-4";
                   req_messages := messages ++ [AssistantTurn messageResponse]
                                            ++ map ToolTurn results;
                   req_with_tools := false |} in
    trace (snd (tool_branch env agent messages messageResponse calls w))
      = trace w ++ loop ++ [EvChat req2] /\
    match fst (tool_branch env agent messages messageResponse calls w) with
    | Ok resp => toolCalls resp = Some calls /\ toolResults resp = Some results
    | Throw _ => True
    end.
Proof.
  destruct (tool_loop_spec agent calls [] w)
    as [results [wl [loop [Hrun [Hloop [Ht [Hnc Hd]]]]]]].
  simpl in Hrun.
  exists results, wl, loop. repeat (split; [assumption|]).
  cbv zeta.
  destruct (tool_branch env agent messages messageResponse calls w) as [r w'] eqn:Eb.
  cbn [fst snd].
  unfold tool_branch in Eb. unfold bind at 1 in Eb. rewrite Hrun in Eb.
  unfold bind at 1 in Eb. unfold openai_chat_completions_create in Eb.
  destruct (chat_completions_create env _ (ext wl)) as [[finalResponse|e] x2];
    cbv beta iota zeta in Eb.
  - unfold bind at 1 in Eb.
    match type of Eb with
    | context [meeting_data env calls results ?w2] =>
        pose proof (meeting_data_pure calls results w2) as Hpure;
        destruct (meeting_data env calls results w2) as [[md|e] w3]
    end; cbn [snd] in Hpure; subst w3.
    + unfold bind, lift, ret in Eb. destruct (first_choice finalResponse) as [final|e];
        inversion Eb; subst; cbn [trace toolCalls toolResults].
      * split; [rewrite Ht, <- app_assoc; reflexivity | now split].
      * split; [rewrite Ht, <- app_assoc; reflexivity | exact I].
    + inversion Eb; subst; cbn [trace].
      split; [rewrite Ht, <- app_assoc; reflexivity | exact I].
  - inversion Eb; subst; cbn [trace].
    split; [rewrite Ht, <- app_assoc; reflexivity | exact I].
Qed.

End ToolLoop.

(** ** One chat turn *)

Section ChatTurn.

Context {X : Type}.
Variable env : Env X.

Lemma bind_inv {A B} (m : M X A) (k : A -> M X B) (w : World X) r w' :
  bind m k w = (r, w') ->
  (exists a w1, m w = (Ok a, w1) /\ k a w1 = (r, w'))
  \/ (exists e, m w = (Throw e, w') /\ r = Throw e).
Proof.
  unfold bind. destruct (m w) as [[a|e] w1]; intros H.
  - left. now exists a, w1.
  - right. inversion H; subst. now exists e.
Qed.

Lemma try_catch_inv {A} (m : M X A) (h : JsThrown -> M X A) (w : World X) r w' :
  try_catch m h w = (r, w') ->
  (exists a, m w = (Ok a, w') /\ r = Ok a)
  \/ (exists e w1, m w = (Throw e, w1) /\ h e w1 = (r, w')).
Proof.
  unfold try_catch. destruct (m w) as [[a|e] w1]; intros H.
  - left. inversion H; subst. now exists a.
  - right. now exists e, w1.
Qed.

Lemma quiet_not_chat evs : Forall quiet evs -> Forall not_chat evs.
Proof.
  apply Forall_impl. intros e. destruct e; simpl; auto.
Qed.

Lemma no_outcomes_unpaired r : no_outcomes r -> unpaired r.
Proof. destruct r; simpl; auto. Qed.

Lemma no_outcomes_paired calls results r : no_outcomes r -> paired calls results r.
Proof. destruct r; simpl; auto. Qed.

(** Quiet events after a turn keep its shape when what is finally
    returned carries no outcome list. *)
Lemma TurnTrace_extend evs r evs2 r2 :
  TurnTrace evs r -> Forall quiet evs2 -> no_outcomes r2 ->
  TurnTrace (evs ++ evs2) r2.
Proof.
  intros Hturn Hq Hno. inversion Hturn; subst.
  - apply TurnTrace_no_model; [now apply Forall_app | now apply no_outcomes_unpaired].
  - rewrite <- app_assoc. simpl.
    apply TurnTrace_one_call; auto; [now apply Forall_app | now apply no_outcomes_unpaired].
  - rewrite <- app_assoc. simpl. rewrite <- app_assoc. simpl.
    eapply TurnTrace_tool_round; eauto; [now apply Forall_app | now apply no_outcomes_paired].
Qed.

(** The fallback from any world: quiet, and without an outcome list. *)
Lemma fallback_run agent message (w : World X) r w' :
  handleFallbackResponse env agent message w = (r, w') ->
  exists evs, trace w' = trace w ++ evs /\ Forall quiet evs /\ no_outcomes r.
Proof.
  intros Hrun.
  destruct (handleFallbackResponse_quiet env agent message w Hrun) as [_ [evs [Ht Hq]]].
  exists evs. split; [exact Ht|]. split; [exact Hq|].
  destruct (handleFallbackResponse_result env agent message w)
    as [resp [w2 [Hrun' [_ [_ Hnone]]]]].
  rewrite Hrun in Hrun'. inversion Hrun'; subst. exact Hnone.
Qed.

(** The outer [catch] of [processMessage]. *)
Lemma outer_catch_run agent message error (w : World X) r w' :
  (console "Error processing message:" (Some error) ;;;
   if is_region_error error then handleFallbackResponse env agent message
   else throw error) w = (r, w') ->
  exists evs, trace w' = trace w ++ evs /\ Forall quiet evs /\ no_outcomes r.
Proof.
  unfold bind at 1. unfold console, emit. intros Hrun.
  destruct (is_region_error error).
  - destruct (fallback_run _ _ _ Hrun) as [evs [Ht [Hq Hno]]]. cbn [trace] in Ht.
    eexists (_ :: evs). split; [rewrite Ht, <- app_assoc; reflexivity|].
    split; [constructor; [exact I | exact Hq] | exact Hno].
  - unfold throw in Hrun. inversion Hrun; subst. cbn [trace].
    eexists [_]. split; [reflexivity|]. split; [repeat constructor | exact I].
Qed.

(** The first model call with its own [try]/[catch]: exactly one model
    call, then quiet events; when the [catch] answers, it answers with
    the fallback. *)
Lemma first_call_run agent message messages (w : World X) rf w' :
  try_catch
    (response <- openai_chat_completions_create env
                   {| req_model := "gpt-4"; req_messages := messages;
                      req_with_tools := true |} ;;
     console "openai chat completions response: " None ;;;
     ret (@inl ChatCompletion AgentResponse response))
    (fun openaiError =>
       console "openaiError: " (Some openaiError) ;;;
       if is_region_error openaiError then
         console "OpenAI geographic restriction detected, using fallback response" None ;;;
         r <- handleFallbackResponse env agent message ;;
         ret (inr r)
       else throw openaiError) w = (rf, w') ->
  exists req after,
    trace w' = trace w ++ EvChat req :: after /\
    Forall quiet after /\
    match rf with
    | Ok (inr fb) => toolResults fb = None
    | _ => True
    end.
Proof.
  unfold try_catch. unfold bind at 1. unfold openai_chat_completions_create.
  destruct (chat_completions_create env _ (ext w)) as [[response|e] x1];
    cbv beta iota zeta.
  - unfold bind, console, emit, ret. cbn [db ext trace]. intros H. inversion H; subst.
    eexists _, [_]. cbn [trace]. split; [rewrite <- app_assoc; reflexivity|].
    split; [repeat constructor | exact I].
  - unfold bind at 1. unfold console at 1. unfold emit at 1. cbn [db ext trace].
    destruct (is_region_error e).
    + unfold bind at 1. unfold console at 1. unfold emit at 1. cbn [db ext trace].
      intros H. apply bind_inv in H as [[fb [w2 [Hfb Hret]]] | [e2 [Hfb ->]]].
      * destruct (fallback_run _ _ _ Hfb) as [evs [Ht [Hq Hno]]]. cbn [trace] in Ht.
        unfold ret in Hret. inversion Hret; subst.
        eexists _, (_ :: _ :: evs). split; [rewrite Ht, <- !app_assoc; reflexivity|].
        split; [repeat (constructor; [exact I|]); exact Hq | exact Hno].
      * destruct (fallback_run _ _ _ Hfb) as [evs [Ht [Hq Hno]]]. cbn [trace] in Ht.
        eexists _, (_ :: _ :: evs). split; [rewrite Ht, <- !app_assoc; reflexivity|].
        split; [repeat (constructor; [exact I|]); exact Hq | exact I].
    + unfold throw. intros H. inversion H; subst. cbn [trace].
      eexists _, [_]. split; [rewrite <- app_assoc; reflexivity|].
      split; [repeat constructor | exact I].
Qed.

(** Every run of [processMessage] has one of the three shapes. *)
Lemma processMessage_turn agent message history (w : World X) :
  exists evs,
    trace (snd (processMessage env agent message history w)) = trace w ++ evs /\
    TurnTrace evs (fst (processMessage env agent message history w)).
Proof.
  destruct (processMessage env agent message history w) as [r w'] eqn:Erun.
  cbn [fst snd]. unfold processMessage in Erun.
  assert (Hbody : forall rb wb,
    (if negb (isOpenAIAvailable agent) || negb (openai agent)
     then handleFallbackResponse env agent message
     else
       context <- getContextForQuestion env (rag agent) (userId agent) message ;;
       u <- user_findUnique env (userId agent) false ;;
       let systemPrompt := system_prompt u context in
       let messages :=
         Turn "system" systemPrompt :: history ++ [Turn "user" message] in
       first <- try_catch
                  (response <- openai_chat_completions_create env
                                 {| req_model := "gpt-4";
                                    req_messages := messages;
                                    req_with_tools := true |} ;;
                   console "openai chat completions response: " None ;;;
                   ret (inl response))
                  (fun openaiError =>
                     console "openaiError: " (Some openaiError) ;;;
                     if is_region_error openaiError then
                       console "OpenAI geographic restriction detected, using fallback response" None ;;;
                       r <- handleFallbackResponse env agent message ;;
                       ret (inr r)
                     else throw openaiError) ;;
       match first with
       | inr fallback => ret fallback
       | inl response =>
           messageResponse <- lift (first_choice response) ;;
           match am_tool_calls messageResponse with
           | Some calls => tool_branch env agent messages messageResponse calls
           | None =>
               ret {| content := am_content messageResponse;
                      toolCalls := None;
                      toolResults := Some [];
                      meetingData := None;
                      usage_total_tokens := None |}
           end
       end) w = (rb, wb) ->
    exists evs, trace wb = trace w ++ evs /\ TurnTrace evs rb).
  { intros rb wb Hb.
    destruct (negb (isOpenAIAvailable agent) || negb (openai agent)).
    - destruct (fallback_run _ _ _ Hb) as [evs [Ht [Hq Hno]]].
      exists evs. split; [exact Ht|].
      apply TurnTrace_no_model; [exact Hq | now apply no_outcomes_unpaired].
    - apply bind_inv in Hb as [[ctx [w1 [E1 Hb]]] | [e [E1 ->]]].
      2:{ destruct (getContextForQuestion_quiet _ _ _ _ _ E1) as [_ [ev1 [Ht1 Hq1]]].
          exists ev1. split; [exact Ht1|]. now apply TurnTrace_no_model. }
      destruct (getContextForQuestion_quiet _ _ _ _ _ E1) as [_ [ev1 [Ht1 Hq1]]].
      apply bind_inv in Hb as [[u [w2 [E2 Hb]]] | [e [E2 ->]]].
      2:{ destruct (user_findUnique_quiet _ _ _ _ E2) as [_ [ev2 [Ht2 Hq2]]].
          exists (ev1 ++ ev2). split; [rewrite Ht2, Ht1, <- app_assoc; reflexivity|].
          apply TurnTrace_no_model; [now apply Forall_app | exact I]. }
      destruct (user_findUnique_quiet _ _ _ _ E2) as [_ [ev2 [Ht2 Hq2]]].
      cbv zeta in Hb.
      apply bind_inv in Hb as [[first [w3 [E3 Hb]]] | [e [E3 ->]]].
      2:{ destruct (first_call_run _ _ _ _ E3) as [req [after [Ht3 [Hq3 _]]]].
          exists ((ev1 ++ ev2) ++ EvChat req :: after).
          split; [rewrite Ht3, Ht2, Ht1, <- !app_assoc; reflexivity|].
          apply TurnTrace_one_call; [now apply Forall_app | exact Hq3 | exact I]. }
      destruct (first_call_run _ _ _ _ E3) as [req [after [Ht3 [Hq3 Hfb]]]].
      assert (Hpre : trace w3 = trace w ++ (ev1 ++ ev2) ++ EvChat req :: after)
        by (rewrite Ht3, Ht2, Ht1, <- !app_assoc; reflexivity).
      assert (Hq12 : Forall quiet (ev1 ++ ev2)) by now apply Forall_app.
      destruct first as [response|fallback].
      + apply bind_inv in Hb as [[messageResponse [w4 [E4 Hb]]] | [e [E4 ->]]];
          unfold lift in E4; inversion E4; subst.
        2:{ eexists. split; [exact Hpre|]. now apply TurnTrace_one_call. }
        destruct (am_tool_calls messageResponse) as [calls|].
        * match type of Hb with
          | tool_branch env agent ?msgs _ _ _ = _ =>
              destruct (tool_branch_spec env agent msgs messageResponse calls w4)
                as [results [wl [loop [_ [Hloop [_ [Hnc [Hd [Htb Hres]]]]]]]]]
          end.
          rewrite Hb in Htb, Hres. cbn [fst snd] in Htb, Hres.
          destruct (LoopRun_length Hloop) as [Hlen Hids].
          eexists ((ev1 ++ ev2) ++ EvChat req :: (after ++ loop) ++ EvChat _ :: []).
          split; [rewrite Htb, Hpre, <- !app_assoc; simpl; rewrite <- !app_assoc; reflexivity|].
          eapply TurnTrace_tool_round with (calls := calls) (results := results); auto.
          -- apply Forall_app. split; [now apply quiet_not_chat | exact Hnc].
          -- rewrite dispatched_app, Hd.
             destruct (quiet_no_calls Hq3) as [_ [Hd3 _]]. now rewrite Hd3.
          -- destruct rb as [resp|e]; simpl; [now left | exact I].
        * unfold ret in Hb. inversion Hb; subst.
          eexists. split; [exact Hpre|].
          apply TurnTrace_one_call; auto. simpl. now right.
      + unfold ret in Hb. inversion Hb; subst.
        eexists. split; [exact Hpre|].
        apply TurnTrace_one_call; auto. simpl. now left. }
  apply try_catch_inv in Erun as [[resp [Eb ->]] | [e [w1 [Eb Eh]]]].
  - exact (Hbody _ _ Eb).
  - destruct (Hbody _ _ Eb) as [evs [Ht Hturn]].
    destruct (outer_catch_run _ _ _ _ Eh) as [evs2 [Ht2 [Hq2 Hno]]].
    exists (evs ++ evs2). split; [rewrite Ht2, Ht, <- app_assoc; reflexivity|].
    eapply TurnTrace_extend; eauto.
Qed.

End ChatTurn.

(** ** One round of tools per turn *)

Section ToolRound.

Context {X : Type}.
Variable env : Env X.

Lemma not_chat_model_calls evs : Forall not_chat evs -> model_calls evs = [].
Proof.
  induction 1 as [|e t He _ IH]; [reflexivity|].
  destruct e; simpl in *; try contradiction; exact IH.
Qed.

Lemma after_nth_chat_skip n a b :
  Forall not_chat a -> after_nth_chat n (a ++ b) = after_nth_chat n b.
Proof.
  induction 1 as [|e t He _ IH]; [reflexivity|].
  destruct e; simpl in *; try contradiction; exact IH.
Qed.

Lemma after_nth_chat_none n a : Forall not_chat a -> after_nth_chat n a = [].
Proof.
  intros H. rewrite <- (app_nil_r a). now rewrite after_nth_chat_skip.
Qed.

(** What each shape says about the model calls and about what follows
    the second of them. *)
Lemma TurnTrace_round evs r :
  TurnTrace evs r ->
  (length (model_calls evs) <= 2)%nat /\
  dispatched (after_nth_chat 1 evs) = [] /\
  model_calls (after_nth_chat 1 evs) = [].
Proof.
  intros Hturn.
  inversion Hturn as
    [ evs0 r0 Hquiet _
    | before req after r0 Hbefore Hafter _
    | before req1 loop req2 after calls results r0 Hbefore Hloop _ _ Hafter _ _ _ ];
    subst.
  - pose proof (quiet_not_chat Hquiet) as Hnc.
    rewrite (not_chat_model_calls Hnc), (after_nth_chat_none 1 Hnc). simpl.
    repeat split; lia.
  - pose proof (quiet_not_chat Hbefore) as Hb. pose proof (quiet_not_chat Hafter) as Ha.
    rewrite model_calls_app, (not_chat_model_calls Hb), (after_nth_chat_skip 1 _ Hb).
    simpl. rewrite (not_chat_model_calls Ha), (after_nth_chat_none 0 Ha). simpl.
    repeat split; lia.
  - pose proof (quiet_not_chat Hbefore) as Hb. pose proof (quiet_not_chat Hafter) as Ha.
    destruct (quiet_no_calls Hafter) as [_ [Hda _]].
    rewrite model_calls_app, (not_chat_model_calls Hb), (after_nth_chat_skip 1 _ Hb).
    simpl. rewrite model_calls_app, (not_chat_model_calls Hloop),
      (after_nth_chat_skip 0 _ Hloop).
    simpl. rewrite (not_chat_model_calls Ha), Hda. simpl.
    repeat split; lia.
Qed.

Lemma TurnTrace_aligned evs r : TurnTrace evs r -> aligned r.
Proof.
  intros Hturn.
  inversion Hturn as
    [ evs0 r0 _ Hun
    | before req after r0 _ _ Hun
    | before req1 loop req2 after calls results r0 _ _ _ _ _ Hlen Hids Hpaired ];
    subst; destruct r as [resp|e]; simpl in *; auto.
  - destruct Hun as [-> | ->]; [now destruct (toolCalls resp) | reflexivity].
  - destruct Hun as [-> | ->]; [now destruct (toolCalls resp) | reflexivity].
  - destruct Hpaired as [[-> ->] | ->]; [now split | now destruct (toolCalls resp)].
Qed.

(** The loop on its own: from every world and whatever the handlers do
    it returns exactly one outcome per invocation, in order; the tool
    branch returns them with the invocations, and in whatever
    [processMessage] returns an invocation list and an outcome list
    correspond one to one. *)
Lemma tool_loop_outcomes (agent : FinancialAdvisorAgent) (calls : list ToolCall)
    (w : World X) :
  (exists results w',
     tool_loop env agent calls [] w = (Ok results, w') /\
     LoopRun env agent w calls results w' /\
     length results = length calls /\
     map tool_call_id results = map tc_id calls /\
     dispatched (trace w') = dispatched (trace w) ++ map js_of_toolCall calls /\
     forall messages messageResponse,
       match fst (tool_branch env agent messages messageResponse calls w) with
       | Ok resp => toolCalls resp = Some calls /\ toolResults resp = Some results
       | Throw _ => True
       end) /\
  (forall message history (w0 : World X),
     aligned (fst (processMessage env agent message history w0))).
Proof.
  split.
  - destruct (tool_loop_spec env agent calls [] w)
      as [results [w' [evs [Hrun [Hloop [Ht [_ Hd]]]]]]].
    simpl in Hrun. destruct (LoopRun_length Hloop) as [Hlen Hids].
    exists results, w'. repeat (split; [assumption|]).
    split; [now rewrite Ht, dispatched_app, Hd|].
    intros messages messageResponse.
    destruct (tool_branch_spec env agent messages messageResponse calls w)
      as [results' [wl [loop [Hrun' [_ [_ [_ [_ [_ Hres]]]]]]]]].
    rewrite Hrun in Hrun'. inversion Hrun'; subst. exact Hres.
  - intros message history w0.
    destruct (processMessage_turn env agent message history w0) as [evs [_ Hturn]].
    exact (TurnTrace_aligned Hturn).
Qed.

(** C8: a chat turn calls the language model at most twice, and after
    the second call nothing is dispatched and the model is not called
    again, whatever the second reply contains.  In the tool branch, once
    the outcomes are collected the model is called exactly once more,
    without the tool schema, on the transcript extended by the
    assistant's message and the outcomes; the dispatcher was entered for
    the invocations of the first reply and for nothing else. *)
Theorem single_tool_round (agent : FinancialAdvisorAgent) (message : string)
    (history : list ChatMessage) (w : World X) :
  (exists evs,
     trace (snd (processMessage env agent message history w)) = trace w ++ evs /\
     (length (model_calls evs) <= 2)%nat /\
     dispatched (after_nth_chat 1 evs) = [] /\
     model_calls (after_nth_chat 1 evs) = []) /\
  (forall messages messageResponse calls (w0 : World X),
     exists results loop req2,
       trace (snd (tool_branch env agent messages messageResponse calls w0))
         = trace w0 ++ loop ++ [EvChat req2] /\
       model_calls loop = [] /\
       dispatched loop = map js_of_toolCall calls /\
       req_messages req2 = messages ++ [AssistantTurn messageResponse]
                                    ++ map ToolTurn results /\
       req_with_tools req2 = false).
Proof.
  split.
  - destruct (processMessage_turn env agent message history w) as [evs [Ht Hturn]].
    exists evs. split; [exact Ht|]. exact (TurnTrace_round Hturn).
  - intros messages messageResponse calls w0.
    destruct (tool_branch_spec env agent messages messageResponse calls w0)
      as [results [wl [loop [_ [_ [_ [Hnc [Hd [Htb _]]]]]]]]].
    exists results, loop. eexists. split; [exact Htb|].
    split; [now apply not_chat_model_calls|]. now repeat split.
Qed.

(** In the webhook path a throwing invocation ends the loop. *)
Lemma webhook_loop_stops_at_first_throw agent toolCall rest (w : World X) e w1 :
  executeToolCall env agent toolCall w = (Throw e, w1) ->
  webhook_loop env agent (toolCall :: rest) w = (Throw e, w1).
Proof. intros H. simpl. unfold bind. now rewrite H. Qed.

End ToolRound.

(** C5 on the code: the model answers a webhook prompt with the action
    "send an email, then create a task"; the user has no Gmail
    connection, so the first invocation throws.  The event is processed
    without an error reaching the caller and the failure is logged, but
    the second invocation is never dispatched and the task store is
    never reached. *)
Theorem webhook_failure_skips_remaining_invocations :
  let run :=
    processWebhookEvent
      (Fixture.environment Fixture.embed_ok Fixture.db_up
         Fixture.chat_action Fixture.service_ok)
      Fixture.webhook_agent "hubspot_contact_updated" JNull
      (Fixture.world Fixture.database) in
  fst run = Ok tt /\
  dispatched (trace (snd run)) = [Fixture.tool_call_js "send_email" "{}"] /\
  ~ In (Fixture.tool_call_js "create_task" "{}") (dispatched (trace (snd run))) /\
  collab_calls (trace (snd run)) = [] /\
  last (trace (snd run)) (EvLog "" None) =
    EvLog "Error parsing webhook action:"
      (Some (JsError "Gmail not connected for this user. Please sign in with Google to connect your Gmail account." None)).
Proof.
  vm_compute. repeat split.
  intros [H|[]]. discriminate H.
Qed.

(** The scenario of the spec, run for a user who connected Google: the
    search succeeds, the creation throws; both outcomes are recorded, in order, the second one carrying
    the error's message; both are sent to the second model round; the
    tool the second reply asks for is never dispatched. *)
Example calendar_scenario :
  let run :=
    processMessage
      (Fixture.environment Fixture.embed_ok Fixture.db_up
         Fixture.chat_calendar Fixture.service_calendar_full)
      Fixture.chat_agent "Book a review meeting with John" []
      (Fixture.world Scenario.connected_database) in
  let outcomes :=
    [ {| tool_call_id := "call_a"; tr_role := "tool"; tr_content := "[]" |};
      {| tool_call_id := "call_b"; tr_role := "tool";
         tr_content :=
           Fixture.stringify (JObj [("error", JStr "Calendar usage limits exceeded")]) |} ] in
  (exists resp,
     fst run = Ok resp /\
     toolCalls resp = Some Fixture.calendar_calls /\
     toolResults resp = Some outcomes /\
     content resp = Some "Your meeting could not be booked.") /\
  dispatched (trace (snd run)) = map js_of_toolCall Fixture.calendar_calls /\
  map req_with_tools (model_calls (trace (snd run))) = [true; false] /\
  (exists req2, nth_error (model_calls (trace (snd run))) 1 = Some req2 /\
     skipn 3 (req_messages req2) = map ToolTurn outcomes).
Proof.
  vm_compute. split; [|split; [|split]].
  - eexists. repeat split.
  - reflexivity.
  - reflexivity.
  - eexists. split; reflexivity.
Qed.

(** * Further properties of the context retriever *)

Section RetrievalBounds.

Context {X : Type}.
Variable env : Env X.

Lemma In_firstn (A : Type) (x : A) n l : In x (firstn n l) -> In x l.
Proof.
  intros H. assert (Hall : Forall (fun y => In y l) (firstn n l)).
  { apply Forall_firstn. apply Forall_forall. auto. }
  rewrite Forall_forall in Hall. now apply Hall.
Qed.

Lemma In_order_by (A : Type) (leb : A -> A -> bool) (x : A) l :
  In x (order_by leb l) -> In x l.
Proof.
  intros H. eapply Permutation_in; [apply Permutation_sym, order_by_perm | exact H].
Qed.

(** X1: whatever the providers do, the retriever never answers with more
    than [limit] hits per corpus. *)
Theorem retriever_respects_limit (rag : RAGService) (userId query : string) (limit : nat)
    (w : World X) :
  exists res w',
    searchRelevantContext env rag userId query limit w = (Ok res, w') /\
    (length (emails res) <= limit)%nat /\
    (length (contacts res) <= limit)%nat.
Proof.
  destruct (searchRelevantContext_result env rag userId query limit w)
    as [res [w' [Hrun Hres]]].
  exists res, w'. split; [exact Hrun|].
  destruct Hres as [-> | [-> | [q ->]]]; simpl;
    rewrite ?length_map; split;
    try apply firstn_le_length; lia.
Qed.

(** X2: retrieval is scoped to the user: every hit, on the similarity
    path and on the lexical path alike, is built from a row that belongs
    to the user named in the call. *)
Theorem retriever_is_scoped_to_user (rag : RAGService) (userId query : string)
    (limit : nat) (w : World X) :
  exists res w',
    searchRelevantContext env rag userId query limit w = (Ok res, w') /\
    Forall (fun h => exists row, In row (emailEmbedding (db w)) /\
                                 e_userId row = userId /\
                                 hit_content h = email_content row)
           (emails res) /\
    Forall (fun h => exists row, In row (hubSpotContactEmbedding (db w)) /\
                                 c_userId row = userId /\
                                 hit_content h = contact_content row)
           (contacts res).
Proof.
  destruct (searchRelevantContext_result env rag userId query limit w)
    as [res [w' [Hrun Hres]]].
  exists res, w'. split; [exact Hrun|].
  destruct Hres as [-> | [-> | [q ->]]]; simpl; split;
    try constructor; apply Forall_forall; intros h Hh; apply in_map_iff in Hh.
  - destruct Hh as [row [<- Hrow]]. unfold select_emails in Hrow.
    apply In_firstn, In_order_by, filter_In in Hrow as [Hin Hcond].
    apply andb_true_iff in Hcond as [Hu _]. apply String.eqb_eq in Hu.
    now exists row.
  - destruct Hh as [row [<- Hrow]]. unfold select_contacts in Hrow.
    apply In_firstn, In_order_by, filter_In in Hrow as [Hin Hcond].
    apply andb_true_iff in Hcond as [Hu _]. apply String.eqb_eq in Hu.
    now exists row.
  - destruct Hh as [[row d] [<- Hrow]]. unfold rank_emails in Hrow.
    apply In_firstn, In_order_by, in_map_iff in Hrow as [row' [Heq Hrow']].
    unfold keyed in Heq. inversion Heq; subst.
    apply filter_In in Hrow' as [Hin Hu]. apply String.eqb_eq in Hu.
    now exists row.
  - destruct Hh as [[row d] [<- Hrow]]. unfold rank_contacts in Hrow.
    apply In_firstn, In_order_by, in_map_iff in Hrow as [row' [Heq Hrow']].
    unfold keyed in Heq. inversion Heq; subst.
    apply filter_In in Hrow' as [Hin Hu]. apply String.eqb_eq in Hu.
    now exists row.
Qed.

Lemma distance_leb_total a b : distance_leb a b = false -> distance_leb b a = true.
Proof.
  destruct a as [x|], b as [y|]; simpl; try congruence.
  intros H. apply Qle_bool_iff. apply Qlt_le_weak, Qnot_le_lt.
  intros Hle. apply Qle_bool_iff in Hle. congruence.
Qed.

Lemma distance_leb_trans a b c :
  distance_leb a b = true -> distance_leb b c = true -> distance_leb a c = true.
Proof.
  destruct a as [x|], b as [y|], c as [z|]; simpl; try congruence.
  rewrite !Qle_bool_iff. apply Qle_trans.
Qed.

Lemma ranked_by_distance (R : Type) (key : R -> option Q) (limit : nat) (l : list R) :
  StronglySorted (fun a b => distance_leb (snd a) (snd b) = true)
    (firstn limit (order_by by_distance (map (keyed key) l))).
Proof.
  apply firstn_strongly_sorted, Sorted_StronglySorted.
  - intros a b c. apply distance_leb_trans.
  - apply (order_by_sorted (@by_distance R)).
    intros a b. apply distance_leb_total.
Qed.

Lemma all_zero_sorted (l : list Hit) :
  Forall (fun h => hit_score h = Some 0%Q) l -> StronglySorted score_ascending l.
Proof.
  induction 1 as [|h t Hh Ht IH]; constructor; [exact IH|].
  apply Forall_forall. intros h' Hh'. rewrite Forall_forall in Ht.
  unfold score_ascending. now rewrite Hh, (Ht h' Hh').
Qed.

(** X3: in every answer of the retriever the hits of each corpus are in
    ascending score order (smaller distance first), a null score coming
    after every number. *)
Theorem retriever_ranks_ascending (rag : RAGService) (userId query : string)
    (limit : nat) (w : World X) :
  exists res w',
    searchRelevantContext env rag userId query limit w = (Ok res, w') /\
    StronglySorted score_ascending (emails res) /\
    StronglySorted score_ascending (contacts res).
Proof.
  destruct (searchRelevantContext_result env rag userId query limit w)
    as [res [w' [Hrun Hres]]].
  exists res, w'. split; [exact Hrun|].
  destruct Hres as [-> | [-> | [q ->]]]; simpl.
  - split; apply all_zero_sorted, Forall_forall; intros h Hh;
      apply in_map_iff in Hh as [r [<- _]]; reflexivity.
  - split; constructor.
  - split; apply map_strongly_sorted.
    + unfold rank_emails.
      eapply StronglySorted_ind with (P := fun l => StronglySorted _ l);
        [constructor | | apply (ranked_by_distance (fun r => distance env q (e_embedding r)))].
      intros [r d] l _ IH Hall. constructor; [exact IH|].
      eapply Forall_impl; [|exact Hall]. intros [r' d'] H. exact H.
    + unfold rank_contacts.
      eapply StronglySorted_ind with (P := fun l => StronglySorted _ l);
        [constructor | | apply (ranked_by_distance (fun r => distance env q (c_embedding r)))].
      intros [r d] l _ IH Hall. constructor; [exact IH|].
      eapply Forall_impl; [|exact Hall]. intros [r' d'] H. exact H.
Qed.

Lemma lower_ascii_idempotent c :
  JsString.lower_ascii (JsString.lower_ascii c) = JsString.lower_ascii c.
Proof.
  destruct c as [b0 b1 b2 b3 b4 b5 b6 b7].
  destruct b0, b1, b2, b3, b4, b5, b6, b7; reflexivity.
Qed.

Lemma toLowerCase_idempotent s :
  JsString.toLowerCase (JsString.toLowerCase s) = JsString.toLowerCase s.
Proof.
  induction s as [|c t IH]; simpl; [reflexivity|].
  now rewrite lower_ascii_idempotent, IH.
Qed.

(** X4: the lexical search ignores the letter case of the query: two
    queries that differ in case only yield the same search terms and the
    same run, hits and trace included. *)
Theorem lexical_search_ignores_query_case (userId q q' : string) (limit : nat)
    (w : World X) :
  same_up_to_case q q' ->
  searchTerms q = searchTerms q' /\
  simpleTextSearch env userId q limit w = simpleTextSearch env userId q' limit w.
Proof.
  intros Hcase. assert (Hterms : searchTerms q = searchTerms q').
  { unfold searchTerms. now rewrite Hcase. }
  split; [exact Hterms|].
  unfold simpleTextSearch. now rewrite Hterms.
Qed.

Lemma like_any rest text :
  JsString.like (String "%" rest) text = true <->
  exists before after, text = (before ++ after)%string /\ JsString.like rest after = true.
Proof.
  induction text as [|c t IH].
  - simpl. rewrite orb_false_r. split.
    + intros H. exists "", "". now split.
    + intros [before [after [Heq H]]]. destruct before; [|discriminate].
      simpl in Heq. now subst after.
  - change (JsString.like (String "%" rest) (String c t))
      with (JsString.like rest (String c t) || JsString.like (String "%" rest) t).
    rewrite orb_true_iff, IH. split.
    + intros [H | [before [after [Heq H]]]].
      * exists "", (String c t). now split.
      * exists (String c before), after. split; [now rewrite Heq | exact H].
    + intros [before [after [Heq H]]]. destruct before as [|b before'].
      * left. simpl in Heq. now rewrite Heq.
      * right. simpl in Heq. injection Heq as _ Heq. now exists before', after.
Qed.

Lemma like_rest text : JsString.like "%" text = true.
Proof.
  induction text as [|c t IH]; [reflexivity|].
  change (JsString.like "%" (String c t))
    with (JsString.like "" (String c t) || JsString.like "%" t).
  rewrite IH. apply orb_true_r.
Qed.

Lemma like_plain term text :
  plain term ->
  JsString.like (term ++ "%") text = true <-> exists after, text = (term ++ after)%string.
Proof.
  unfold plain. revert text. induction term as [|c t IH]; intros text Hplain.
  - simpl append. split; [intros _; now exists text | intros _; apply like_rest].
  - simpl in Hplain. inversion Hplain as [|? ? [Hp [Hu Hb]] Hrest]; subst.
    change ((String c t ++ "%")%string) with (String c (t ++ "%")).
    cbn [JsString.like].
    destruct (Ascii.eqb_spec c "%"); [contradiction|].
    destruct (Ascii.eqb_spec c "_"); [contradiction|].
    destruct (Ascii.eqb_spec c "\"); [contradiction|].
    destruct text as [|x text'].
    + split; [discriminate | intros [after Habs]; discriminate].
    + rewrite andb_true_iff, (IH text' Hrest). split.
      * intros [Hx [after ->]]. apply Ascii.eqb_eq in Hx. subst x. now exists after.
      * intros [after Heq]. simpl in Heq. injection Heq as -> ->.
        split; [apply Ascii.eqb_refl | now exists after].
Qed.

Lemma lower_ascii_plain c :
  c <> "%"%char /\ c <> "_"%char /\ c <> "\"%char ->
  JsString.lower_ascii c <> "%"%char /\ JsString.lower_ascii c <> "_"%char /\
  JsString.lower_ascii c <> "\"%char.
Proof.
  destruct c as [b0 b1 b2 b3 b4 b5 b6 b7].
  destruct b0, b1, b2, b3, b4, b5, b6, b7; cbv; intros [H1 [H2 H3]];
    repeat split; intros H; try discriminate; auto.
Qed.

Lemma toLowerCase_plain term : plain term -> plain (JsString.toLowerCase term).
Proof.
  unfold plain. induction term as [|c t IH]; simpl; intros H; [constructor|].
  inversion H; subst. constructor; [now apply lower_ascii_plain | now apply IH].
Qed.

(** For a plain term the pattern match is the occurrence of the term. *)
Lemma contains_plain term text :
  plain term -> JsString.contains_insensitive term text = true <-> occurs term text.
Proof.
  intros Hplain. unfold JsString.contains_insensitive, occurs.
  change (("%" ++ JsString.toLowerCase term ++ "%")%string)
    with (String "%" (JsString.toLowerCase term ++ "%")).
  rewrite like_any. split.
  - intros [before [after [Heq H]]].
    apply (like_plain _ (toLowerCase_plain Hplain)) in H. destruct H as [rest ->].
    now exists before, rest.
  - intros [before [after Heq]]. exists before, (JsString.toLowerCase term ++ after)%string.
    split; [exact Heq|]. apply (like_plain _ (toLowerCase_plain Hplain)). now exists after.
Qed.

Lemma email_matches_plain userId terms r :
  Forall plain terms ->
  String.eqb (e_userId r) userId && email_matches terms r = true <->
  mentions_a_term userId terms r.
Proof.
  intros Hplain. unfold mentions_a_term, email_matches.
  rewrite andb_true_iff, String.eqb_eq, existsb_exists.
  rewrite Forall_forall in Hplain. split.
  - intros [Hu [term [Hin H]]]. split; [exact Hu|]. exists term. split; [exact Hin|].
    rewrite !orb_true_iff, !(contains_plain _ (Hplain term Hin)) in H. tauto.
  - intros [Hu [term [Hin H]]]. split; [exact Hu|]. exists term. split; [exact Hin|].
    rewrite !orb_true_iff, !(contains_plain _ (Hplain term Hin)). tauto.
Qed.

(** X5: when no search term contains a character that the database reads
    as a wildcard or an escape ([%], [_], backslash), a message is a
    lexical hit only if it is a message of the user in which one of the
    search terms occurs, letter case aside, in the subject, the body or
    the sender; and when the database answers and fewer than [limit]
    messages are returned, every such message is among them. *)
Theorem lexical_email_hits_are_the_matches (userId query : string) (limit : nat)
    (w : World X) :
  Forall plain (searchTerms query) ->
  exists res w',
    simpleTextSearch env userId query limit w = (Ok res, w') /\
    Forall (fun h => exists r, In r (emailEmbedding (db w)) /\
                               mentions_a_term userId (searchTerms query) r /\
                               h = lexical_email_hit r)
           (emails res) /\
    ((forall op x, fst (db_fault env op x) = None) ->
     (length (emails res) < limit)%nat ->
     forall r, In r (emailEmbedding (db w)) ->
               mentions_a_term userId (searchTerms query) r ->
               In (lexical_email_hit r) (emails res)).
Proof.
  intros Hplain.
  destruct (simpleTextSearch_result env userId query limit w) as [res [w' [Hrun Hres]]].
  exists res, w'. split; [exact Hrun|]. split.
  - destruct Hres as [-> | ->]; [|constructor].
    simpl. apply Forall_forall. intros h Hh. apply in_map_iff in Hh.
    destruct Hh as [r [<- Hr]]. unfold select_emails in Hr.
    apply In_firstn, In_order_by, filter_In in Hr. destruct Hr as [Hin Hmatch].
    exists r. split; [exact Hin|]. split; [|reflexivity].
    now apply email_matches_plain.
  - intros Hdb Hlen r Hin Hmentions.
    assert (Hlex : res = lexical_result userId query limit (db w)).
    { revert Hrun.
      cbv beta iota zeta delta [simpleTextSearch try_catch bind findMany_emails
        findMany_contacts db_call getDb ret console emit].
      pose proof (Hdb (FindMany TEmailEmbedding) (ext w)) as H1.
      destruct (db_fault env (FindMany TEmailEmbedding) (ext w)) as [r1 x1].
      simpl in H1. subst r1. cbv beta iota zeta; cbn [db ext trace].
      pose proof (Hdb (FindMany THubSpotContactEmbedding) x1) as H2.
      destruct (db_fault env (FindMany THubSpotContactEmbedding) x1) as [r2 x2].
      simpl in H2. subst r2. cbv beta iota zeta; cbn [db ext trace].
      intros H. inversion H. reflexivity. }
    subst res. simpl in *. rewrite length_map in Hlen. apply in_map.
    unfold select_emails in *.
    set (matches := order_by (fun a b => (e_date b <=? e_date a)%Z)
                      (filter (fun r0 => String.eqb (e_userId r0) userId
                                         && email_matches (searchTerms query) r0)
                              (emailEmbedding (db w)))) in *.
    assert (Hall : firstn limit matches = matches).
    { apply firstn_all2. rewrite length_firstn in Hlen. lia. }
    rewrite Hall. unfold matches.
    eapply Permutation_in; [apply order_by_perm|].
    apply filter_In. split; [exact Hin|]. now apply email_matches_plain.
Qed.

End RetrievalBounds.

(** The query ["RETIREMENT John"] and its lower-case form. *)
Lemma lexical_search_ignores_query_case_witness :
  simpleTextSearch
    (Fixture.environment Fixture.embed_ok Fixture.db_up Fixture.chat_down Fixture.service_ok)
    "u1" "RETIREMENT John" 5 (Fixture.world Fixture.database)
  = simpleTextSearch
      (Fixture.environment Fixture.embed_ok Fixture.db_up Fixture.chat_down Fixture.service_ok)
      "u1" "retirement john" 5 (Fixture.world Fixture.database).
Proof.
  apply (@lexical_search_ignores_query_case unit
           (Fixture.environment Fixture.embed_ok Fixture.db_up
              Fixture.chat_down Fixture.service_ok)
           "u1" "RETIREMENT John" "retirement john" 5 (Fixture.world Fixture.database)).
  reflexivity.
Defined.

(** The query ["retirement"] on the fixture, with room for five hits. *)
Lemma lexical_email_hits_are_the_matches_witness :
  exists res w',
    simpleTextSearch
      (Fixture.environment Fixture.embed_ok Fixture.db_up Fixture.chat_down Fixture.service_ok)
      "u1" "retirement" 5 (Fixture.world Fixture.database) = (Ok res, w') /\
    Forall (fun h => exists r, In r (emailEmbedding Fixture.database) /\
                               mentions_a_term "u1" (searchTerms "retirement") r /\
                               h = lexical_email_hit r)
           (emails res).
Proof.
  destruct (@lexical_email_hits_are_the_matches unit
              (Fixture.environment Fixture.embed_ok Fixture.db_up
                 Fixture.chat_down Fixture.service_ok)
              "u1" "retirement" 5 (Fixture.world Fixture.database))
    as [res [w' [Hrun [Hsound _]]]].
  - repeat constructor; discriminate.
  - exists res, w'. split; [exact Hrun | exact Hsound].
Defined.

(** Why X5 asks for plain terms: the underscore of a term stands for any
    character, so the term [s_e] selects a text in which it does not
    occur. *)
Example underscore_is_a_wildcard :
  JsString.contains_insensitive "s_e" "See you at noon" = true /\
  JsString.includes "s_e" "see you at noon" = false.
Proof. split; reflexivity. Qed.

(** * Further properties of the agent *)

Section WebhookReactor.

Context {X : Type}.
Variable env : Env X.

Lemma service_only_not_chat e : service_only e -> not_chat e.
Proof. destruct e; simpl; auto. Qed.

Lemma executeToolCall_not_chat agent toolCall :
  emits not_chat (executeToolCall env agent toolCall).
Proof.
  unfold executeToolCall. emits_auto.
  eapply emits_weaken; [apply service_only_not_chat | apply run_tool_service_only].
Qed.

Lemma webhook_loop_not_chat agent items :
  emits not_chat (webhook_loop env agent items).
Proof.
  induction items as [|toolCall rest IH]; simpl; emits_auto.
  - apply executeToolCall_not_chat.
  - exact IH.
Qed.

(** What [processWebhookEvent] does with the model's reply. *)
Lemma webhook_reaction_not_chat agent (response : ChatCompletion) :
  emits not_chat
    (m <- lift (first_choice response) ;;
     let content := am_content m in
     if is_no_action content then ret tt
     else
       try_catch
         (action <- lift (JSON_parse env (JStr (content_or_empty_object content))) ;;
          toolCalls <- lift (Js.prop action "toolCalls") ;;
          if Js.truthy toolCalls then
            items <- lift (iterate toolCalls) ;;
            webhook_loop env agent items
          else ret tt)
         (fun parseError => console "Error parsing webhook action:" (Some parseError))).
Proof.
  emits_auto. cbv zeta. emits_auto. apply webhook_loop_not_chat.
Qed.

(** X6: [processWebhookEvent] never throws, whatever the database, the
    model and the collaborators do.  It calls the model at most once, and
    it dispatches nothing before that call: either the new events contain
    no model call and no dispatch, or they split around the one model
    call with no dispatch before it and no model call after it. *)
Theorem webhook_never_throws (agent : FinancialAdvisorAgent) (eventType : string)
    (data : JsVal) (w : World X) :
  exists w' evs,
    processWebhookEvent env agent eventType data w = (Ok tt, w') /\
    trace w' = trace w ++ evs /\
    ((model_calls evs = [] /\ dispatched evs = [])
     \/ exists before req after,
          evs = before ++ EvChat req :: after /\
          model_calls before = [] /\ dispatched before = [] /\
          model_calls after = []).
Proof.
  assert (Hbody : forall rb wb,
    (if negb (isOpenAIAvailable agent) || negb (openai agent)
     then console "OpenAI not available for webhook processing" None
     else
       u <- user_findUnique env (userId agent) false ;;
       match ongoing_instructions u with
       | None => ret tt
       | Some instructions =>
           let prompt := webhook_prompt env eventType data instructions in
           response <- openai_chat_completions_create env
                         {| req_model := "gpt-4";
                            req_messages :=
                              [ Turn "system" "You are an AI assistant that processes webhook events and decides on actions based on ongoing instructions.";
                                Turn "user" prompt ];
                            req_with_tools := false |} ;;
           m <- lift (first_choice response) ;;
           let content := am_content m in
           if is_no_action content then ret tt
           else
             try_catch
               (action <- lift (JSON_parse env (JStr (content_or_empty_object content))) ;;
                toolCalls <- lift (Js.prop action "toolCalls") ;;
                if Js.truthy toolCalls then
                  items <- lift (iterate toolCalls) ;;
                  webhook_loop env agent items
                else ret tt)
               (fun parseError =>
                  console "Error parsing webhook action:" (Some parseError))
       end) w = (rb, wb) ->
    exists evs, trace wb = trace w ++ evs /\
      (Forall quiet evs
       \/ exists before req after,
            evs = before ++ EvChat req :: after /\
            Forall quiet before /\ Forall not_chat after)).
  { intros rb wb Hb.
    destruct (negb (isOpenAIAvailable agent) || negb (openai agent)).
    - unfold console, emit in Hb. inversion Hb; subst. cbn [trace].
      eexists. split; [reflexivity|]. left. repeat constructor.
    - apply bind_inv in Hb as [[u [w1 [E1 Hb]]] | [e [E1 ->]]];
        destruct (user_findUnique_quiet env _ _ _ E1) as [_ [ev1 [Ht1 Hq1]]].
      2:{ exists ev1. split; [exact Ht1 | now left]. }
      destruct (ongoing_instructions u) as [instructions|].
      2:{ unfold ret in Hb. inversion Hb; subst. exists ev1. split; [exact Ht1 | now left]. }
      cbv zeta in Hb.
      apply bind_inv in Hb as [[response [w2 [E2 Hb]]] | [e [E2 ->]]].
      + destruct (webhook_reaction_not_chat agent response w2 Hb) as [_ [ev3 [Ht3 Hn3]]].
        unfold openai_chat_completions_create in E2.
        destruct (chat_completions_create env _ (ext w1)) as [r2 x2].
        inversion E2; subst. cbn [trace] in Ht3.
        eexists (ev1 ++ EvChat _ :: ev3).
        split; [rewrite Ht3, Ht1, <- !app_assoc; reflexivity|].
        right. eexists _, _, _. split; [reflexivity|]. now split.
      + unfold openai_chat_completions_create in E2.
        destruct (chat_completions_create env _ (ext w1)) as [r2 x2].
        inversion E2; subst. cbn [trace].
        eexists (ev1 ++ EvChat _ :: []).
        split; [rewrite Ht1, <- !app_assoc; reflexivity|].
        right. eexists _, _, _. split; [reflexivity|]. split; [exact Hq1 | constructor]. }
  assert (Hshape : forall evs,
    (Forall quiet evs
     \/ exists before req after,
          evs = before ++ EvChat req :: after /\
          Forall quiet before /\ Forall not_chat after) ->
    (model_calls evs = [] /\ dispatched evs = [])
    \/ exists before req after,
         evs = before ++ EvChat req :: after /\
         model_calls before = [] /\ dispatched before = [] /\
         model_calls after = []).
  { intros evs [Hq | [before [req [after [-> [Hq Hn]]]]]].
    - left. destruct (quiet_no_calls Hq) as [Hm [Hd _]]. now split.
    - right. exists before, req, after. split; [reflexivity|].
      destruct (quiet_no_calls Hq) as [Hm [Hd _]].
      repeat split; auto. now apply not_chat_model_calls. }
  destruct (processWebhookEvent env agent eventType data w) as [r w'] eqn:Erun.
  unfold processWebhookEvent in Erun.
  apply try_catch_inv in Erun as [[a [Eb ->]] | [e [w1 [Eb Eh]]]].
  - destruct (Hbody _ _ Eb) as [evs [Ht Hs]]. destruct a.
    exists w', evs. split; [reflexivity|]. split; [exact Ht|]. now apply Hshape.
  - destruct (Hbody _ _ Eb) as [evs [Ht Hs]].
    unfold console, emit in Eh. inversion Eh; subst. cbn [trace].
    eexists _, (evs ++ [_]). split; [reflexivity|].
    split; [rewrite Ht, <- app_assoc; reflexivity|].
    apply Hshape. destruct Hs as [Hq | [before [req [after [-> [Hq Hn]]]]]].
    + left. apply Forall_app. split; [exact Hq | repeat constructor].
    + right. exists before, req, (after ++ [EvLog "Error processing webhook event:" (Some e)]).
      split; [now rewrite <- app_assoc|]. split; [exact Hq|].
      apply Forall_app. split; [exact Hn | repeat constructor].
Qed.

(** X7: when the completion provider is flagged unavailable,
    [processWebhookEvent] does nothing but write one console line: no
    database read, no provider is touched, nothing is dispatched. *)
Theorem webhook_unavailable_is_noop (agent : FinancialAdvisorAgent) (eventType : string)
    (data : JsVal) (w : World X) :
  isOpenAIAvailable agent = false \/ openai agent = false ->
  processWebhookEvent env agent eventType data w =
    (Ok tt,
     {| db := db w; ext := ext w;
        trace := trace w ++ [EvLog "OpenAI not available for webhook processing" None] |}).
Proof.
  intros Hflag.
  assert (Hb : negb (isOpenAIAvailable agent) || negb (openai agent) = true).
  { destruct Hflag as [-> | ->]; [reflexivity | apply orb_true_r]. }
  unfold processWebhookEvent, try_catch. now rewrite Hb.
Qed.

(** X8: for a user without standing instructions (no user row, no
    instructions, or the empty text) [processWebhookEvent] reads the user
    row and stops: the model is not called, nothing is dispatched and no
    collaborator is reached. *)
Theorem webhook_without_instructions_is_noop (agent : FinancialAdvisorAgent)
    (eventType : string) (data : JsVal) (w : World X) :
  isOpenAIAvailable agent = true ->
  openai agent = true ->
  ongoing_instructions (find (fun u => String.eqb (u_id u) (userId agent)) (user (db w)))
    = None ->
  exists w' evs,
    processWebhookEvent env agent eventType data w = (Ok tt, w') /\
    trace w' = trace w ++ EvDb (UserFindUnique (userId agent) false) :: evs /\
    model_calls evs = [] /\ dispatched evs = [] /\ collab_calls evs = [].
Proof.
  intros Havail Hclient Hnone.
  cbv beta iota zeta delta [processWebhookEvent try_catch bind user_findUnique db_call getDb
    ret console emit].
  rewrite Havail, Hclient. cbn [negb orb].
  destruct (db_fault env (UserFindUnique (userId agent) false) (ext w)) as [[e|] x1];
    cbv beta iota zeta; cbn [db ext trace].
  - eexists _, [_]. split; [reflexivity|].
    split; [rewrite <- app_assoc; reflexivity | now repeat split].
  - rewrite Hnone. eexists _, []. split; [reflexivity|]. now repeat split.
Qed.

(** X9: when the model answers the webhook prompt with the sentinel
    [NO_ACTION], the run consists of the user-row read and that one model
    call; nothing is parsed, dispatched or logged. *)
Theorem webhook_no_action_stops (agent : FinancialAdvisorAgent) (eventType : string)
    (data : JsVal) (w : World X) (instructions : string) (x1 x2 : X)
    (response : ChatCompletion) (m : AssistantMessage) :
  isOpenAIAvailable agent = true ->
  openai agent = true ->
  db_fault env (UserFindUnique (userId agent) false) (ext w) = (None, x1) ->
  ongoing_instructions (find (fun u => String.eqb (u_id u) (userId agent)) (user (db w)))
    = Some instructions ->
  chat_completions_create env (webhook_request env eventType data instructions) x1
    = (Ok response, x2) ->
  first_choice response = Ok m ->
  am_content m = Some "NO_ACTION" ->
  processWebhookEvent env agent eventType data w =
    (Ok tt,
     {| db := db w; ext := x2;
        trace := trace w ++ [ EvDb (UserFindUnique (userId agent) false);
                              EvChat (webhook_request env eventType data instructions) ] |}).
Proof.
  intros Havail Hclient Hdb Hinstr Hchat Hchoice Hcontent.
  cbv beta iota zeta delta [processWebhookEvent try_catch bind user_findUnique db_call getDb
    ret console emit openai_chat_completions_create lift].
  rewrite Havail, Hclient. cbn [negb orb]. rewrite Hdb.
  cbv beta iota zeta. cbn [db ext trace]. rewrite Hinstr.
  cbv beta iota zeta. cbn [db ext trace].
  unfold webhook_request in Hchat. rewrite Hchat.
  cbv beta iota zeta. rewrite Hchoice. cbv beta iota zeta.
  rewrite Hcontent. cbn [is_no_action String.eqb Ascii.eqb Bool.eqb].
  cbv beta iota zeta. now rewrite <- app_assoc.
Qed.

End WebhookReactor.

(** The offline agent receiving a webhook event. *)
Lemma webhook_unavailable_is_noop_witness :
  processWebhookEvent
    (Fixture.environment Fixture.embed_ok Fixture.db_up Fixture.chat_action Fixture.service_ok)
    Fixture.offline_agent "hubspot_contact_updated" JNull (Fixture.world Fixture.database)
  = (Ok tt,
     {| db := Fixture.database; ext := tt;
        trace := [EvLog "OpenAI not available for webhook processing" None] |}).
Proof.
  apply (@webhook_unavailable_is_noop unit
           (Fixture.environment Fixture.embed_ok Fixture.db_up
              Fixture.chat_action Fixture.service_ok)
           Fixture.offline_agent "hubspot_contact_updated" JNull
           (Fixture.world Fixture.database)).
  left. reflexivity.
Defined.

(** A webhook event for a user the database does not know. *)
Lemma webhook_without_instructions_is_noop_witness :
  exists w' evs,
    processWebhookEvent
      (Fixture.environment Fixture.embed_ok Fixture.db_up Fixture.chat_action Fixture.service_ok)
      Fixture.webhook_agent "hubspot_contact_updated" JNull
      (Fixture.world Fixture.empty_database) = (Ok tt, w') /\
    trace w' = [] ++ EvDb (UserFindUnique "u1" false) :: evs /\
    model_calls evs = [] /\ dispatched evs = [] /\ collab_calls evs = [].
Proof.
  apply (@webhook_without_instructions_is_noop unit
           (Fixture.environment Fixture.embed_ok Fixture.db_up
              Fixture.chat_action Fixture.service_ok)
           Fixture.webhook_agent "hubspot_contact_updated" JNull
           (Fixture.world Fixture.empty_database)); reflexivity.
Defined.

(** The advisor has instructions; the model sees nothing to do. *)
Lemma webhook_no_action_stops_witness :
  trace (snd (processWebhookEvent
                (Fixture.environment Fixture.embed_ok Fixture.db_up
                   Scenario.chat_no_action Fixture.service_ok)
                Fixture.webhook_agent "hubspot_contact_updated" JNull
                (Fixture.world Fixture.database)))
  = [ EvDb (UserFindUnique "u1" false);
      EvChat (webhook_request
                (Fixture.environment Fixture.embed_ok Fixture.db_up
                   Scenario.chat_no_action Fixture.service_ok)
                "hubspot_contact_updated" JNull
                "When a contact is updated, email them and note it") ].
Proof.
  rewrite (@webhook_no_action_stops unit
             (Fixture.environment Fixture.embed_ok Fixture.db_up
                Scenario.chat_no_action Fixture.service_ok)
             Fixture.webhook_agent "hubspot_contact_updated" JNull
             (Fixture.world Fixture.database)
             "When a contact is updated, email them and note it" tt tt
             {| choices := [ {| am_content := Some "NO_ACTION"; am_tool_calls := None |} ] |}
             {| am_content := Some "NO_ACTION"; am_tool_calls := None |}
             eq_refl eq_refl eq_refl eq_refl eq_refl eq_refl eq_refl).
  reflexivity.
Defined.

Section ChatTurnFurther.

Context {X : Type}.
Variable env : Env X.

(** X10: an error that carries the regional-restriction code never
    leaves [processMessage]: whatever is thrown to the caller is an error
    of another kind. *)
Theorem region_error_never_propagates (agent : FinancialAdvisorAgent) (message : string)
    (history : list ChatMessage) (w : World X) :
  match fst (processMessage env agent message history w) with
  | Throw e => is_region_error e = false
  | Ok _ => True
  end.
Proof.
  destruct (processMessage env agent message history w) as [[resp|e] w'] eqn:E;
    cbn [fst]; [exact I|].
  unfold processMessage in E.
  apply try_catch_inv in E as [[a [_ Habs]] | [e0 [w1 [_ Eh]]]]; [discriminate|].
  apply bind_inv in Eh as [[u [w2 [_ Eh]]] | [e1 [Habs _]]].
  - destruct (is_region_error e0) eqn:Er.
    + destruct (handleFallbackResponse_result env agent message w2) as [resp [w3 [Hrun _]]].
      rewrite Hrun in Eh. discriminate.
    + unfold throw in Eh. inversion Eh; subst. exact Er.
  - unfold console, emit in Habs. discriminate.
Qed.

Lemma getContextForQuestion_returns rag userId question :
  returns (getContextForQuestion env rag userId question).
Proof.
  intros w. unfold getContextForQuestion, bind.
  destruct (searchRelevantContext_returns env rag userId question 10 w) as [res [w' Hrun]].
  rewrite Hrun. eexists _, _. reflexivity.
Qed.

(** Up to the first model call: the context, the user row, the request. *)
Lemma before_first_call agent message (w : World X) :
  (forall op x, fst (db_fault env op x) = None) ->
  exists ctx w1 x2 evs,
    getContextForQuestion env (rag agent) (userId agent) message w = (Ok ctx, w1) /\
    trace w1 = trace w ++ evs /\ Forall quiet evs /\
    user_findUnique env (userId agent) false w1 =
      (Ok (find (fun u => String.eqb (u_id u) (userId agent)) (user (db w))),
       {| db := db w; ext := x2;
          trace := trace w1 ++ [EvDb (UserFindUnique (userId agent) false)] |}).
Proof.
  intros Hdb.
  destruct (getContextForQuestion_returns (rag agent) (userId agent) message w)
    as [ctx [w1 Hctx]].
  destruct (getContextForQuestion_quiet env _ _ _ _ Hctx) as [Hdb1 [evs [Ht Hq]]].
  pose proof (Hdb (UserFindUnique (userId agent) false) (ext w1)) as Hnone.
  destruct (db_fault env (UserFindUnique (userId agent) false) (ext w1)) as [r x2] eqn:Efault.
  cbn [fst] in Hnone. subst r.
  exists ctx, w1, x2, evs. repeat (split; [assumption|]).
  cbv beta iota zeta delta [user_findUnique bind db_call getDb ret].
  rewrite Efault. cbv beta iota zeta. cbn [db ext trace]. now rewrite Hdb1.
Qed.

(** Up to the first model call, when the user row can be read. *)
Lemma before_first_call_user agent message (w : World X) :
  (forall x, fst (db_fault env (UserFindUnique (userId agent) false) x) = None) ->
  exists ctx w1 x2 evs,
    getContextForQuestion env (rag agent) (userId agent) message w = (Ok ctx, w1) /\
    trace w1 = trace w ++ evs /\ Forall quiet evs /\
    user_findUnique env (userId agent) false w1 =
      (Ok (find (fun u => String.eqb (u_id u) (userId agent)) (user (db w))),
       {| db := db w; ext := x2;
          trace := trace w1 ++ [EvDb (UserFindUnique (userId agent) false)] |}).
Proof.
  intros Hdb.
  destruct (getContextForQuestion_returns (rag agent) (userId agent) message w)
    as [ctx [w1 Hctx]].
  destruct (getContextForQuestion_quiet env _ _ _ _ Hctx) as [Hdb1 [evs [Ht Hq]]].
  pose proof (Hdb (ext w1)) as Hnone.
  destruct (db_fault env (UserFindUnique (userId agent) false) (ext w1)) as [r x2] eqn:Efault.
  cbn [fst] in Hnone. subst r.
  exists ctx, w1, x2, evs. repeat (split; [assumption|]).
  cbv beta iota zeta delta [user_findUnique bind db_call getDb ret].
  rewrite Efault. cbv beta iota zeta. cbn [db ext trace]. now rewrite Hdb1.
Qed.

Lemma meeting_data_any_world calls results (w w' : World X) :
  fst (meeting_data env calls results w) = fst (meeting_data env calls results w').
Proof.
  unfold meeting_data.
  destruct (find _ calls) as [calendarSearch|]; [|reflexivity].
  destruct (find _ results) as [calendarResult|]; [|reflexivity].
  unfold bind, lift, ret, throw.
  destruct (JSON_parse env _) as [result|e]; [|reflexivity].
  destruct (Js.truthy result); [|reflexivity].
  destruct (Js.prop result "error") as [err|e]; [|reflexivity].
  destruct (negb (Js.truthy err)); [|reflexivity].
  destruct result; try reflexivity.
  destruct (mapM_res _ _); reflexivity.
Qed.

(** The tool branch when the second round answers. *)
Lemma tool_branch_returns agent messages messageResponse calls (w : World X)
    results wl finalResponse x final md :
  tool_loop env agent calls [] w = (Ok results, wl) ->
  chat_completions_create env
    {| req_model := "gpt-4";
       req_messages := messages ++ [AssistantTurn messageResponse] ++ map ToolTurn results;
       req_with_tools := false |} (ext wl) = (Ok finalResponse, x) ->
  first_choice finalResponse = Ok final ->
  fst (meeting_data env calls results w) = Ok md ->
  fst (tool_branch env agent messages messageResponse calls w)
  = Ok {| content := am_content final;
          toolCalls := Some calls;
          toolResults := Some results;
          meetingData := md;
          usage_total_tokens := None |}.
Proof.
  intros Hloop Hchat Hfinal Hmd.
  unfold tool_branch. unfold bind at 1. rewrite Hloop.
  unfold bind at 1. unfold openai_chat_completions_create. rewrite Hchat.
  cbv beta iota zeta. unfold bind at 1.
  match goal with
  | |- context [meeting_data env calls results ?w2] =>
      rewrite (meeting_data_any_world calls results w w2) in Hmd;
      destruct (meeting_data env calls results w2) as [rmd w3]
  end.
  cbn [fst] in Hmd. subst rmd. unfold bind, lift, ret. rewrite Hfinal. reflexivity.
Qed.

(** What the outer [catch] of [processMessage] answers. *)
Lemma outer_catch_result agent message error (w : World X) r w' :
  (console "Error processing message:" (Some error) ;;;
   if is_region_error error then handleFallbackResponse env agent message
   else throw error) w = (r, w') ->
  match r with
  | Ok resp => toolCalls resp = Some [] /\ toolResults resp = None
  | Throw e => e = error
  end.
Proof.
  unfold bind at 1. unfold console, emit. intros Hrun.
  destruct (is_region_error error).
  - match type of Hrun with
    | handleFallbackResponse env agent message ?w1 = _ =>
        destruct (handleFallbackResponse_result env agent message w1)
          as [resp [w2 [Hrun' [_ [Hcalls Hnone]]]]]
    end.
    rewrite Hrun in Hrun'. inversion Hrun'; subst. now split.
  - unfold throw in Hrun. inversion Hrun; subst. reflexivity.
Qed.

(** C1: when the model's first reply carries N tool invocations,
    [processMessage] enters the dispatcher for exactly these N
    invocations, in the order of the reply, each from the world its
    predecessor left, and produces exactly N outcomes, one per invocation
    and in that order: an invocation whose handler throws contributes
    the outcome that carries the error's message and the remaining ones
    are still dispatched.  The N outcomes are what the second model
    round is sent, after the transcript and the assistant's message, and
    nothing is dispatched before the first call or after the second.
    When the second round answers, [processMessage] returns the
    invocations of the reply with these outcomes; when it does not, what
    is returned is the fallback, which carries no outcome list, or the
    error is thrown. *)
Theorem one_outcome_per_invocation (agent : FinancialAdvisorAgent) (message : string)
    (history : list ChatMessage) (reply : ChatCompletion)
    (messageResponse : AssistantMessage) (calls : list ToolCall) (w : World X) :
  isOpenAIAvailable agent = true ->
  openai agent = true ->
  (forall x, fst (db_fault env (UserFindUnique (userId agent) false) x) = None) ->
  (forall req x, req_with_tools req = true ->
                 fst (chat_completions_create env req x) = Ok reply) ->
  first_choice reply = Ok messageResponse ->
  am_tool_calls messageResponse = Some calls ->
  exists before req1 loop w1 results w2 after,
    let run := processMessage env agent message history w in
    let req2 := {| req_model := "gpt-4";
                   req_messages := req_messages req1 ++ [AssistantTurn messageResponse]
                                                     ++ map ToolTurn results;
                   req_with_tools := false |} in
    trace (snd run) = trace w ++ before ++ EvChat req1 :: loop ++ EvChat req2 :: after /\
    Forall quiet before /\
    req_with_tools req1 = true /\
    Forall not_chat loop /\
    dispatched loop = map js_of_toolCall calls /\
    Forall quiet after /\
    LoopRun env agent w1 calls results w2 /\
    length results = length calls /\
    map tool_call_id results = map tc_id calls /\
    match fst run with
    | Ok resp =>
        (toolCalls resp = Some calls /\ toolResults resp = Some results)
        \/ (toolCalls resp = Some [] /\ toolResults resp = None)
    | Throw _ => True
    end /\
    (forall finalResponse x final md,
       chat_completions_create env req2 (ext w2) = (Ok finalResponse, x) ->
       first_choice finalResponse = Ok final ->
       fst (meeting_data env calls results w) = Ok md ->
       fst run = Ok {| content := am_content final;
                       toolCalls := Some calls;
                       toolResults := Some results;
                       meetingData := md;
                       usage_total_tokens := None |}).
Proof.
  intros Havail Hclient Hdb Hchat Hfirst Hcalls.
  destruct (before_first_call_user agent message w Hdb)
    as [ctx [w1 [x2 [ev1 [Hctx [Ht1 [Hq1 Huser]]]]]]].
  set (messages := Turn "system"
                     (system_prompt
                        (find (fun u => String.eqb (u_id u) (userId agent)) (user (db w))) ctx)
                   :: history ++ [Turn "user" message]).
  set (req1 := {| req_model := "gpt-4"; req_messages := messages; req_with_tools := true |}).
  pose proof (Hchat req1 x2 eq_refl) as Hreply.
  destruct (chat_completions_create env req1 x2) as [r3 x3] eqn:Echat.
  cbn [fst] in Hreply. subst r3.
  set (w4 := {| db := db w; ext := x3;
                trace := ((trace w1 ++ [EvDb (UserFindUnique (userId agent) false)])
                          ++ [EvChat req1])
                         ++ [EvLog "openai chat completions response: " None] |}).
  assert (Hbody :
            processMessage env agent message history w =
            match tool_branch env agent messages messageResponse calls w4 with
            | (Ok a, w') => (Ok a, w')
            | (Throw e, w') =>
                (console "Error processing message:" (Some e) ;;;
                 if is_region_error e then handleFallbackResponse env agent message
                 else throw e) w'
            end).
  { unfold processMessage. rewrite Havail, Hclient. cbn [negb orb].
    unfold try_catch at 1. unfold bind at 1. rewrite Hctx.
    unfold bind at 1. rewrite Huser. cbv zeta.
    unfold bind at 1. unfold try_catch at 1. unfold bind at 1.
    unfold openai_chat_completions_create. cbn [db ext trace].
    fold messages. fold req1. rewrite Echat. cbv beta iota zeta.
    unfold bind at 1. unfold console at 1. unfold emit at 1. cbn [db ext trace].
    unfold ret at 1. cbv beta iota zeta.
    unfold bind at 1. unfold lift at 1. rewrite Hfirst. cbv beta iota zeta.
    rewrite Hcalls. fold w4. reflexivity. }
  destruct (tool_branch_spec env agent messages messageResponse calls w4)
    as [results [wl [loop [Hloop [Hrun [Htl [Hnc [Hd [Htb Hres]]]]]]]]].
  cbv zeta in Htb.
  destruct (LoopRun_length Hrun) as [Hlen Hids].
  assert (Hpre : trace w4 = trace w ++ (ev1 ++ [EvDb (UserFindUnique (userId agent) false)])
                            ++ EvChat req1 :: [EvLog "openai chat completions response: " None]).
  { unfold w4. cbn [trace]. rewrite Ht1, <- !app_assoc. reflexivity. }
  assert (Hbefore : Forall quiet (ev1 ++ [EvDb (UserFindUnique (userId agent) false)])).
  { apply Forall_app. split; [exact Hq1 | repeat constructor]. }
  assert (Hloop' : Forall not_chat
                     (EvLog "openai chat completions response: " None :: loop)).
  { constructor; [exact I | exact Hnc]. }
  assert (Hpositive : forall finalResponse x final md,
            chat_completions_create env
              {| req_model := "gpt-4";
                 req_messages := req_messages req1 ++ [AssistantTurn messageResponse]
                                                   ++ map ToolTurn results;
                 req_with_tools := false |} (ext wl) = (Ok finalResponse, x) ->
            first_choice finalResponse = Ok final ->
            fst (meeting_data env calls results w) = Ok md ->
            fst (tool_branch env agent messages messageResponse calls w4)
            = Ok {| content := am_content final;
                    toolCalls := Some calls;
                    toolResults := Some results;
                    meetingData := md;
                    usage_total_tokens := None |}).
  { intros finalResponse x final md Hc Hf Hm.
    eapply tool_branch_returns; try eassumption.
    rewrite <- Hm. apply meeting_data_any_world. }
  destruct (tool_branch env agent messages messageResponse calls w4) as [[resp|e] wb] eqn:Eb;
    cbn [fst snd] in Htb, Hres, Hpositive.
  - exists (ev1 ++ [EvDb (UserFindUnique (userId agent) false)]), req1,
      (EvLog "openai chat completions response: " None :: loop), w4, results, wl, [].
    cbv zeta. rewrite Hbody. cbn [fst snd].
    split; [rewrite Htb, Hpre, <- !app_assoc; reflexivity|].
    split; [exact Hbefore|]. split; [reflexivity|]. split; [exact Hloop'|].
    split; [exact Hd|]. split; [constructor|]. split; [exact Hrun|].
    split; [exact Hlen|]. split; [exact Hids|].
    split; [now left|]. exact Hpositive.
  - destruct ((console "Error processing message:" (Some e) ;;;
               if is_region_error e then handleFallbackResponse env agent message
               else throw e) wb) as [r w'] eqn:Eh.
    destruct (@outer_catch_run X env agent message e wb r w' Eh) as [evs2 [Ht2 [Hq2 _]]].
    pose proof (@outer_catch_result agent message e wb r w' Eh) as Hr.
    exists (ev1 ++ [EvDb (UserFindUnique (userId agent) false)]), req1,
      (EvLog "openai chat completions response: " None :: loop), w4, results, wl, evs2.
    cbv zeta. rewrite Hbody. cbn [fst snd].
    split; [rewrite Ht2, Htb, Hpre, <- !app_assoc; reflexivity|].
    split; [exact Hbefore|]. split; [reflexivity|]. split; [exact Hloop'|].
    split; [exact Hd|]. split; [exact Hq2|]. split; [exact Hrun|].
    split; [exact Hlen|]. split; [exact Hids|].
    split; [destruct r as [resp|e']; [now right | exact I]|].
    intros finalResponse x final md Hc Hf Hm.
    specialize (Hpositive finalResponse x final md Hc Hf Hm). discriminate.
Qed.

(** X11: when the completion call is refused with the regional code, the
    turn still ends with a response: the fallback, with a non-empty text
    and an empty invocation list, after exactly one model call and without
    any dispatch (the database answering). *)
Theorem region_refusal_falls_back (agent : FinancialAdvisorAgent) (message : string)
    (history : list ChatMessage) (w : World X) :
  isOpenAIAvailable agent = true ->
  openai agent = true ->
  (forall op x, fst (db_fault env op x) = None) ->
  (forall req x, exists msg,
     fst (chat_completions_create env req x) = Throw (JsError msg (Some region_code))) ->
  exists resp w' evs,
    processMessage env agent message history w = (Ok resp, w') /\
    trace w' = trace w ++ evs /\
    length (model_calls evs) = 1%nat /\
    dispatched evs = [] /\
    toolCalls resp = Some [] /\
    exists text, content resp = Some text /\ text <> "".
Proof.
  intros Havail Hclient Hdb Hchat.
  destruct (before_first_call agent message w Hdb)
    as [ctx [w1 [x2 [ev1 [Hctx [Ht1 [Hq1 Huser]]]]]]].
  destruct (processMessage env agent message history w) as [r w'] eqn:E.
  unfold processMessage in E. rewrite Havail, Hclient in E. cbn [negb orb] in E.
  unfold try_catch at 1 in E. unfold bind at 1 in E. rewrite Hctx in E.
  unfold bind at 1 in E. rewrite Huser in E. cbv zeta in E.
  unfold bind at 1 in E. unfold try_catch at 1 in E. unfold bind at 1 in E.
  unfold openai_chat_completions_create in E. cbn [db ext trace] in E.
  match type of E with
  | context [chat_completions_create env ?req x2] =>
      destruct (Hchat req x2) as [msg Hmsg];
      destruct (chat_completions_create env req x2) as [r3 x3]
  end.
  cbn [fst] in Hmsg. subst r3. cbv beta iota zeta in E.
  unfold bind at 1 in E. unfold console at 1 in E. unfold emit at 1 in E.
  cbn [db ext trace] in E.
  replace (is_region_error (JsError msg (Some region_code))) with true in E by reflexivity.
  unfold bind at 1 in E. unfold console at 1 in E. unfold emit at 1 in E.
  cbn [db ext trace] in E. unfold bind at 1 in E.
  match type of E with
  | context [handleFallbackResponse env agent message ?w4] =>
      destruct (handleFallbackResponse_result env agent message w4)
        as [resp [w5 [Hfb [Htext [Hcalls _]]]]];
      destruct (handleFallbackResponse_quiet env agent message w4 Hfb)
        as [_ [ev5 [Ht5 Hq5]]]
  end.
  rewrite Hfb in E. unfold ret in E. inversion E; subst. cbn [trace] in Ht5.
  exists resp, w'. eexists (ev1 ++ _ :: _ :: _ :: _ :: ev5).
  split; [reflexivity|].
  split; [rewrite Ht5, Ht1, <- !app_assoc; reflexivity|].
  destruct (quiet_no_calls Hq1) as [Hm1 [Hd1 _]].
  destruct (quiet_no_calls Hq5) as [Hm5 [Hd5 _]].
  rewrite model_calls_app, dispatched_app, Hm1, Hd1. simpl. rewrite Hm5, Hd5.
  now repeat split.
Qed.

(** X12: when the model answers without tool invocations, the response
    is the reply's text with a null invocation list and an empty outcome
    list; the turn made one model call and dispatched nothing (the
    database answering). *)
Theorem plain_reply_is_returned (agent : FinancialAdvisorAgent) (message : string)
    (history : list ChatMessage) (w : World X) (text : option string) :
  isOpenAIAvailable agent = true ->
  openai agent = true ->
  (forall op x, fst (db_fault env op x) = None) ->
  (forall req x,
     fst (chat_completions_create env req x) =
     Ok {| choices := [ {| am_content := text; am_tool_calls := None |} ] |}) ->
  exists w' evs,
    processMessage env agent message history w = (Ok (plain_response text), w') /\
    trace w' = trace w ++ evs /\
    length (model_calls evs) = 1%nat /\
    dispatched evs = [] /\
    collab_calls evs = [].
Proof.
  intros Havail Hclient Hdb Hchat.
  destruct (before_first_call agent message w Hdb)
    as [ctx [w1 [x2 [ev1 [Hctx [Ht1 [Hq1 Huser]]]]]]].
  destruct (processMessage env agent message history w) as [r w'] eqn:E.
  unfold processMessage in E. rewrite Havail, Hclient in E. cbn [negb orb] in E.
  unfold try_catch at 1 in E. unfold bind at 1 in E. rewrite Hctx in E.
  unfold bind at 1 in E. rewrite Huser in E. cbv zeta in E.
  unfold bind at 1 in E. unfold try_catch at 1 in E. unfold bind at 1 in E.
  unfold openai_chat_completions_create in E. cbn [db ext trace] in E.
  match type of E with
  | context [chat_completions_create env ?req x2] =>
      pose proof (Hchat req x2) as Hreply;
      destruct (chat_completions_create env req x2) as [r3 x3]
  end.
  cbn [fst] in Hreply. subst r3. cbv beta iota zeta in E.
  unfold bind, console, emit, ret, lift in E.
  cbn [db ext trace first_choice choices am_tool_calls am_content] in E.
  inversion E; subst.
  eexists _, (ev1 ++ _ :: _ :: _ :: []).
  split; [reflexivity|].
  split; [cbn [trace]; rewrite Ht1, <- !app_assoc; reflexivity|].
  destruct (quiet_no_calls Hq1) as [Hm1 [Hd1 Hc1]].
  rewrite model_calls_app, dispatched_app, Hm1, Hd1. simpl.
  repeat split. unfold collab_calls in *. rewrite flat_map_app, Hc1. reflexivity.
Qed.

End ChatTurnFurther.

(** The scenario of the spec: the first reply asks for a calendar search
    and for a new event; the creation throws.  Both invocations are
    dispatched and two outcomes are produced. *)
Lemma one_outcome_per_invocation_witness :
  exists before req1 loop results after,
    trace (snd (processMessage
                  (Fixture.environment Fixture.embed_ok Fixture.db_up
                     Fixture.chat_calendar Fixture.service_calendar_full)
                  Fixture.chat_agent "Book a review meeting with John" []
                  (Fixture.world Scenario.connected_database)))
    = before ++ EvChat req1 :: loop
        ++ EvChat {| req_model := "gpt-4";
                     req_messages :=
                       req_messages req1
                       ++ [AssistantTurn {| am_content := None;
                                            am_tool_calls := Some Fixture.calendar_calls |}]
                       ++ map ToolTurn results;
                     req_with_tools := false |} :: after /\
    dispatched loop = map js_of_toolCall Fixture.calendar_calls /\
    length results = 2%nat /\
    map tool_call_id results = ["call_a"; "call_b"].
Proof.
  destruct (@one_outcome_per_invocation unit
              (Fixture.environment Fixture.embed_ok Fixture.db_up
                 Fixture.chat_calendar Fixture.service_calendar_full)
              Fixture.chat_agent "Book a review meeting with John" []
              {| choices := [ {| am_content := None;
                                 am_tool_calls := Some Fixture.calendar_calls |} ] |}
              {| am_content := None; am_tool_calls := Some Fixture.calendar_calls |}
              Fixture.calendar_calls
              (Fixture.world Scenario.connected_database)
              eq_refl eq_refl)
    as [before [req1 [loop [w1 [results [w2 [after H]]]]]]].
  - intros x. reflexivity.
  - intros req x Htools. simpl. unfold Fixture.chat_calendar. now rewrite Htools.
  - reflexivity.
  - reflexivity.
  - cbv zeta in H.
    destruct H as [Htrace [_ [_ [_ [Hd [_ [_ [Hlen [Hids _]]]]]]]]].
    exists before, req1, loop, results, after.
    split; [exact Htrace|]. split; [exact Hd|]. split; [exact Hlen | exact Hids].
Defined.

(** A model behind a regional restriction, asked a question. *)
Lemma region_refusal_falls_back_witness :
  exists resp w' evs,
    processMessage
      (Fixture.environment Fixture.embed_ok Fixture.db_up
         Scenario.chat_region_blocked Fixture.service_ok)
      Fixture.chat_agent "Who emailed me about retirement?" []
      (Fixture.world Fixture.database) = (Ok resp, w') /\
    trace w' = trace (Fixture.world Fixture.database) ++ evs /\
    length (model_calls evs) = 1%nat /\
    dispatched evs = [] /\
    toolCalls resp = Some [] /\
    exists text, content resp = Some text /\ text <> "".
Proof.
  apply (@region_refusal_falls_back unit
           (Fixture.environment Fixture.embed_ok Fixture.db_up
              Scenario.chat_region_blocked Fixture.service_ok)
           Fixture.chat_agent "Who emailed me about retirement?" []
           (Fixture.world Fixture.database)).
  - reflexivity.
  - reflexivity.
  - intros op x. reflexivity.
  - intros req x. eexists. reflexivity.
Defined.

(** A model that answers in plain text. *)
Lemma plain_reply_is_returned_witness :
  exists w' evs,
    processMessage
      (Fixture.environment Fixture.embed_ok Fixture.db_up
         Scenario.chat_plain Fixture.service_ok)
      Fixture.chat_agent "Any meetings today?" [] (Fixture.world Fixture.database)
    = (Ok (plain_response (Some "You have no meetings today.")), w') /\
    trace w' = trace (Fixture.world Fixture.database) ++ evs /\
    length (model_calls evs) = 1%nat /\
    dispatched evs = [] /\
    collab_calls evs = [].
Proof.
  apply (@plain_reply_is_returned unit
           (Fixture.environment Fixture.embed_ok Fixture.db_up
              Scenario.chat_plain Fixture.service_ok)
           Fixture.chat_agent "Any meetings today?" [] (Fixture.world Fixture.database)
           (Some "You have no meetings today.")).
  - reflexivity.
  - reflexivity.
  - intros op x. reflexivity.
  - intros req x. reflexivity.
Defined.

Section ToolsFurther.

Context {X : Type}.
Variable env : Env X.





Lemma tool_of_name_text n t : tool_of_name n = Some t -> n = tool_name_text t.
Proof.
  unfold tool_of_name.
  repeat match goal with
         | |- context [String.eqb n ?s] =>
             destruct (String.eqb_spec n s) as [->|_];
             [intros H; inversion H; reflexivity|]
         end.
  discriminate.
Qed.

(** X15: the tool schema and the dispatcher agree: the names declared by
    [getTools] are exactly the labels of the [switch]; a name selects a
    handler if and only if it is declared, each declared name selects its
    own handler, and no two names share one. *)
Theorem declared_tools_are_the_dispatched_ones :
  map tool_name_text all_tools = tool_names /\
  NoDup tool_names /\
  (forall t, tool_of_name (tool_name_text t) = Some t) /\
  (forall n t, tool_of_name n = Some t -> n = tool_name_text t) /\
  (forall n, (exists t, tool_of_name n = Some t) <-> In n tool_names).
Proof.
  split; [reflexivity|]. split.
  - unfold tool_names.
    repeat (constructor; [simpl; intros H;
                          repeat (destruct H as [H|H]; [discriminate H|]); exact H|]).
    constructor.
  - split; [intros t; destruct t; reflexivity|].
    split; [exact tool_of_name_text|].
    intros n. split.
    + intros [t Ht]. apply tool_of_name_text in Ht. subst n.
      destruct t; simpl; tauto.
    + intros Hin. simpl in Hin.
      repeat (destruct Hin as [<-|Hin]; [eexists; reflexivity|]). contradiction.
Qed.



(** X17: the grounding block is produced from every world -- the
    composite helper never throws -- and it is made of what the retriever
    answers when asked for ten hits per corpus: the hits of that answer,
    at most ten messages then at most ten contacts, each under its corpus
    label, separated by blank lines; for a user without rows it is the
    empty text. *)
Theorem context_block_takes_ten_per_corpus (rag : RAGService) (userId question : string)
    (w : World X) :
  exists res ctx w',
    searchRelevantContext env rag userId question 10 w = (Ok res, w') /\
    getContextForQuestion env rag userId question w = (Ok ctx, w') /\
    ctx = String.concat (nl ++ nl)
            (map (fun h => ("Email: " ++ hit_content h)%string) (emails res)
             ++ map (fun h => ("Contact: " ++ hit_content h)%string) (contacts res)) /\
    (length (emails res) <= 10)%nat /\
    (length (contacts res) <= 10)%nat /\
    ((forall r, In r (emailEmbedding (db w)) -> e_userId r <> userId) ->
     (forall r, In r (hubSpotContactEmbedding (db w)) -> c_userId r <> userId) ->
     ctx = "").
Proof.
  unfold getContextForQuestion, bind.
  destruct (searchRelevantContext_result env rag userId question 10 w)
    as [res [w' [Hrun Hres]]].
  rewrite Hrun. unfold ret. exists res. eexists _, _. split; [reflexivity|].
  split; [reflexivity|]. split; [reflexivity|].
  assert (Hlen : (length (emails res) <= 10)%nat /\ (length (contacts res) <= 10)%nat).
  { destruct Hres as [-> | [-> | [q ->]]]; simpl;
      rewrite ?length_map; split;
      try apply firstn_le_length; lia. }
  split; [apply Hlen|]. split; [apply Hlen|].
  intros He Hc.
  assert (Hempty : emails res = [] /\ contacts res = []).
  { destruct Hres as [-> | [-> | [q ->]]]; simpl.
    - unfold select_emails, select_contacts. rewrite !no_rows_no_hits by assumption.
      simpl. rewrite ?firstn_nil. now split.
    - now split.
    - unfold rank_emails, rank_contacts.
      rewrite (filter_and_true (fun r => String.eqb (e_userId r) userId)),
        (filter_and_true (fun r => String.eqb (c_userId r) userId)),
        !no_rows_no_hits by assumption.
      simpl. rewrite ?firstn_nil. now split. }
  destruct Hempty as [-> ->]. reflexivity.
Qed.

End ToolsFurther.



(** The fixture's user has rows; a stranger has none. *)
Lemma context_block_takes_ten_per_corpus_witness :
  exists w',
    getContextForQuestion
      (Fixture.environment Fixture.embed_ok Fixture.db_up Fixture.chat_down Fixture.service_ok)
      Fixture.rag_on "u2" "retirement" (Fixture.world Fixture.database) = (Ok "", w').
Proof.
  destruct (@context_block_takes_ten_per_corpus unit
              (Fixture.environment Fixture.embed_ok Fixture.db_up
                 Fixture.chat_down Fixture.service_ok)
              Fixture.rag_on "u2" "retirement" (Fixture.world Fixture.database))
    as [res [ctx [w' [_ [Hrun [_ [_ [_ Hempty]]]]]]]].
  exists w'. rewrite Hrun. f_equal. f_equal. apply Hempty.
  - simpl. intros r H. repeat (destruct H as [<-|H]; [discriminate|]). contradiction.
  - simpl. intros r H. repeat (destruct H as [<-|H]; [discriminate|]). contradiction.
Defined.

(** * The Gmail client's message text *)

Section GmailText.

Import GmailClient.

Lemma take_length n s : (String.length (take n s) <= n)%nat.
Proof.
  revert s. induction n as [|n IH]; intros [|c t]; simpl; try lia.
  specialize (IH t). lia.
Qed.

Lemma take_shorter n s : (String.length (take n s) <= String.length s)%nat.
Proof.
  revert s. induction n as [|n IH]; intros [|c t]; simpl; try lia.
  specialize (IH t). lia.
Qed.

Lemma take_all n s : (String.length s <= n)%nat -> take n s = s.
Proof.
  revert s. induction n as [|n IH]; intros [|c t]; simpl; intros H; try reflexivity; try lia.
  rewrite IH; [reflexivity | lia].
Qed.

Lemma take_chars n s c : In c (chars (take n s)) -> In c (chars s).
Proof.
  revert s. induction n as [|n IH]; intros [|c' t]; simpl; try tauto.
  intros [H|H]; [now left | right; now apply IH].
Qed.

Lemma replace_newlines_chars s : ~ In newline (chars (replace_newlines s)).
Proof.
  induction s as [|c t IH]; simpl; [tauto|].
  intros [H|H]; [|now apply IH].
  destruct (Ascii.eqb_spec c newline) as [->|Hc]; [discriminate H | congruence].
Qed.

Lemma replace_newlines_length s : String.length (replace_newlines s) = String.length s.
Proof. induction s as [|c t IH]; simpl; congruence. Qed.

Lemma replace_newlines_id s : ~ In newline (chars s) -> replace_newlines s = s.
Proof.
  induction s as [|c t IH]; simpl; intros H; [reflexivity|].
  destruct (Ascii.eqb_spec c newline) as [->|Hc]; [exfalso; apply H; now left|].
  rewrite IH; [reflexivity | tauto].
Qed.

(** X18: the body [getMessage] stores is a single line of at most 10000
    characters: no newline survives and the length is bounded; a body
    that already is such a line is stored unchanged, so the
    normalisation is idempotent. *)
Theorem message_body_is_one_bounded_line (body : string) :
  ~ In newline (chars (limit_body body)) /\
  (String.length (limit_body body) <= body_limit)%nat /\
  (String.length (limit_body body) <= String.length body)%nat /\
  (~ In newline (chars body) -> (String.length body <= body_limit)%nat ->
     limit_body body = body) /\
  limit_body (limit_body body) = limit_body body.
Proof.
  assert (Hnl : ~ In newline (chars (limit_body body))).
  { intros H. apply take_chars in H. now apply replace_newlines_chars in H. }
  assert (Hlen : (String.length (limit_body body) <= body_limit)%nat) by apply take_length.
  assert (Hid : forall b, ~ In newline (chars b) -> (String.length b <= body_limit)%nat ->
                          limit_body b = b).
  { intros b Hb Hl. unfold limit_body. rewrite replace_newlines_id by assumption.
    now apply take_all. }
  split; [exact Hnl|]. split; [exact Hlen|]. split.
  - unfold limit_body. rewrite <- (replace_newlines_length body).
    apply take_shorter.
  - split; [apply Hid | now apply Hid].
Qed.

Lemma replace_char_chars x y s : x <> y -> ~ In x (chars (replace_char x y s)).
Proof.
  intros Hxy. induction s as [|c t IH]; simpl; [tauto|].
  intros [H|H]; [|now apply IH].
  destruct (Ascii.eqb_spec c x) as [->|Hc]; congruence.
Qed.

Lemma replace_char_keeps_out x y z s :
  z <> y -> ~ In z (chars s) -> ~ In z (chars (replace_char x y s)).
Proof.
  intros Hzy. induction s as [|c t IH]; simpl; [tauto|].
  intros Hs [H|H]; [|apply IH; tauto].
  destruct (Ascii.eqb c x); [congruence | tauto].
Qed.

Lemma strip_padding_chars c s : In c (chars (strip_padding s)) -> In c (chars s).
Proof.
  induction s as [|c' t IH]; simpl; [tauto|].
  destruct (strip_padding t) as [|d t'] eqn:E.
  - destruct (Ascii.eqb c' "="%char); simpl; tauto.
  - simpl in *. intros [H|H]; [now left | right; now apply IH].
Qed.

Lemma strip_padding_last s : last_char (strip_padding s) <> Some "="%char.
Proof.
  induction s as [|c t IH]; simpl; [discriminate|].
  destruct (strip_padding t) as [|d t'] eqn:E.
  - destruct (Ascii.eqb_spec c "="%char) as [->|Hc]; simpl; congruence.
  - exact IH.
Qed.

Lemma strip_padding_shorter s : (String.length (strip_padding s) <= String.length s)%nat.
Proof.
  induction s as [|c t IH]; simpl; [lia|].
  destruct (strip_padding t) as [|d t'].
  - destruct (Ascii.eqb c "="%char); simpl; lia.
  - simpl in *. lia.
Qed.

Lemma replace_char_length x y s : String.length (replace_char x y s) = String.length s.
Proof. induction s as [|c t IH]; simpl; congruence. Qed.

Lemma strip_padding_id s : last_char s <> Some "="%char -> strip_padding s = s.
Proof.
  induction s as [|c t IH]; simpl; [reflexivity|].
  destruct t as [|d t'].
  - simpl. intros H. destruct (Ascii.eqb_spec c "="%char) as [->|Hc]; congruence.
  - intros H. rewrite (IH H). reflexivity.
Qed.

(** X19: what [sendEmail] hands to the Gmail API is URL-safe whatever the
    Base64 encoder produced: it contains neither ['+'] nor ['/'] and does
    not end with the padding character ['=']; characters are replaced
    one for one, only the trailing padding is cut. *)
Theorem sent_message_is_url_safe (base64 : string -> string) (to subject body : string) :
  ~ In "+"%char (chars (encodedMessage base64 to subject body)) /\
  ~ In "/"%char (chars (encodedMessage base64 to subject body)) /\
  last_char (encodedMessage base64 to subject body) <> Some "="%char /\
  (String.length (encodedMessage base64 to subject body)
     <= String.length (base64 (raw_message to subject body)))%nat.
Proof.
  unfold encodedMessage. split; [|split; [|split]].
  - intros H. apply strip_padding_chars in H. revert H.
    apply replace_char_keeps_out; [discriminate|].
    apply replace_char_chars. discriminate.
  - intros H. apply strip_padding_chars in H. revert H.
    apply replace_char_chars. discriminate.
  - apply strip_padding_last.
  - rewrite strip_padding_shorter, !replace_char_length. lia.
Qed.

End GmailText.

(** A body of two short lines. *)
Lemma message_body_is_one_bounded_line_witness :
  GmailClient.limit_body "See you at noon" = "See you at noon".
Proof.
  destruct (message_body_is_one_bounded_line "See you at noon") as [_ [_ [_ [Hid _]]]].
  apply Hid.
  - simpl. intros H. repeat (destruct H as [H|H]; [discriminate H|]). exact H.
  - apply Nat.leb_le. reflexivity.
Defined.

(** * Chat history: grouping into conversations *)

Section ChatHistoryFacts.

Import ChatHistory.

Variable toISOString : Z -> string.

Lemma same_key_eq a b : same_key a b = true <-> a = b.
Proof.
  destruct a as [x|], b as [y|]; simpl; try (split; congruence).
  rewrite String.eqb_eq. split; congruence.
Qed.

Lemma add_messages message entries :
  Permutation (message :: flat_map conv_messages entries) (flat_map conv_messages (add message entries)).
Proof.
  induction entries as [|c rest IH]; simpl; [apply Permutation_refl|].
  destruct (same_key (conv_id c) (m_conversationId message)); simpl.
  - apply Permutation_refl.
  - eapply perm_trans; [apply Permutation_middle|].
    apply Permutation_app_head. exact IH.
Qed.

Lemma fold_add_messages messages : forall entries,
  Permutation (messages ++ flat_map conv_messages entries)
    (flat_map conv_messages (fold_left (fun acc message => add message acc) messages entries)).
Proof.
  induction messages as [|m rest IH]; intros entries; simpl; [apply Permutation_refl|].
  eapply perm_trans; [|apply IH].
  eapply perm_trans; [apply Permutation_middle|].
  apply Permutation_app_head, add_messages.
Qed.

Lemma add_keys message entries :
  map conv_id (add message entries) =
  if existsb (fun c => same_key (conv_id c) (m_conversationId message)) entries
  then map conv_id entries
  else map conv_id entries ++ [m_conversationId message].
Proof.
  induction entries as [|c rest IH]; simpl; [reflexivity|].
  destruct (same_key (conv_id c) (m_conversationId message)); simpl; [reflexivity|].
  rewrite IH. now destruct (existsb _ rest).
Qed.

Lemma add_well_grouped message entries : well_grouped entries -> well_grouped (add message entries).
Proof.
  intros [Hnd Hall]. split.
  - rewrite add_keys.
    destruct (existsb _ entries) eqn:E; [exact Hnd|].
    apply NoDup_app; [exact Hnd | repeat constructor; simpl; tauto |].
    intros k Hk [<-|[]].
    apply in_map_iff in Hk as [c [Hc Hin]].
    assert (Ht : existsb (fun c => same_key (conv_id c) (m_conversationId message)) entries = true).
    { apply existsb_exists. exists c. split; [exact Hin|]. now apply same_key_eq. }
    congruence.
  - induction entries as [|c rest IH]; simpl.
    + constructor; [|constructor]. simpl. split; [discriminate|]. repeat constructor.
    + inversion Hall as [|? ? [Hne Hc] Hrest]; subst.
      destruct (same_key (conv_id c) (m_conversationId message)) eqn:E.
      * constructor; [|exact Hrest]. simpl. split; [discriminate|].
        constructor; [|exact Hc]. symmetry. now apply same_key_eq.
      * constructor; [now split|]. apply IH; [now inversion Hnd | exact Hrest].
Qed.

Lemma group_well_grouped messages : well_grouped (group messages).
Proof.
  unfold group.
  assert (H : forall entries, well_grouped entries ->
            well_grouped (fold_left (fun acc message => add message acc) messages entries)).
  { induction messages as [|m rest IH]; intros entries Hentries; simpl; [exact Hentries|].
    apply IH, add_well_grouped, Hentries. }
  apply H. split; constructor.
Qed.

Lemma mapi_messages index l :
  flat_map s_messages (mapi toISOString index l) = flat_map conv_messages l.
Proof.
  revert index. induction l as [|c t IH]; intros index; simpl; [reflexivity|].
  now rewrite IH.
Qed.

Lemma mapi_ids index l : map s_id (mapi toISOString index l) = map conv_id l.
Proof.
  revert index. induction l as [|c t IH]; intros index; simpl; [reflexivity|].
  now rewrite IH.
Qed.

Lemma mapi_Forall (P : Summary -> Prop) index l :
  (forall i c, In c l -> P (summarize toISOString i c)) ->
  Forall P (mapi toISOString index l).
Proof.
  revert index. induction l as [|c t IH]; intros index H; simpl; constructor.
  - apply H. now left.
  - apply IH. intros i c' Hc'. apply H. now right.
Qed.

Lemma Permutation_flat_map (A B : Type) (f : A -> list B) l l' :
  Permutation l l' -> Permutation (flat_map f l) (flat_map f l').
Proof.
  induction 1; simpl.
  - constructor.
  - now apply Permutation_app_head.
  - rewrite !app_assoc. apply Permutation_app_tail, Permutation_app_comm.
  - eapply perm_trans; eauto.
Qed.

(** X20: grouping loses and invents nothing: the messages of the
    conversations are, together, exactly the messages read; every
    conversation is non-empty, holds messages of its own conversation id
    only and counts them; no two conversations share an id. *)
Theorem history_is_partitioned (messages : list ChatMessageRow) :
  Permutation messages (flat_map s_messages (conversations toISOString messages)) /\
  NoDup (map s_id (conversations toISOString messages)) /\
  Forall (fun s => s_messageCount s = length (s_messages s) /\
                   (0 < s_messageCount s)%nat /\
                   Forall (fun m => m_conversationId m = s_id s) (s_messages s))
         (conversations toISOString messages).
Proof.
  unfold conversations.
  pose proof (order_by_perm (fun a b => (s_createdAt b <=? s_createdAt a)%Z)
                (mapi toISOString 0 (group messages))) as Hperm.
  destruct (group_well_grouped messages) as [Hnd Hall].
  split; [|split].
  - eapply perm_trans; [|apply Permutation_flat_map, Hperm].
    rewrite mapi_messages. unfold group.
    pose proof (fold_add_messages messages []) as H. simpl in H.
    now rewrite app_nil_r in H.
  - eapply Permutation_NoDup; [apply Permutation_map, Hperm|].
    now rewrite mapi_ids.
  - apply order_by_Forall, mapi_Forall. intros i c Hc.
    rewrite Forall_forall in Hall. destruct (Hall c Hc) as [Hne Hkey].
    simpl. split; [reflexivity|]. split; [|exact Hkey].
    destruct (conv_messages c); [congruence | simpl; lia].
Qed.









End ChatHistoryFacts.



(* ================================================================== *)
(** ** The calendar service *)
(* ================================================================== *)

Section CalendarLoop.

Import Calendar.

Variable setNextHour : Z -> Date.

Lemma le_TimeClip x e :
  le (TimeClip x) (Some e) = true <-> ((Z.abs x <= maxTime)%Z /\ (x <= e)%Z).
Proof.
  unfold TimeClip. destruct (Z.leb_spec (Z.abs x) maxTime); simpl.
  - rewrite Z.leb_le. tauto.
  - split; [discriminate | lia].
Qed.

Lemma TimeClip_valid x : (Z.abs x <= maxTime)%Z -> TimeClip x = Some x.
Proof.
  intros H. unfold TimeClip. destruct (Z.leb_spec (Z.abs x) maxTime); [reflexivity | lia].
Qed.

Lemma no_conflict_clear busySlots a d :
  existsb (conflicts (Some a) (Some (a + d * 60000)%Z)) busySlots = false <->
  clear_of busySlots a d.
Proof.
  unfold clear_of. induction busySlots as [|b t IH]; simpl.
  - split; [constructor | reflexivity].
  - rewrite orb_false_iff, IH. split.
    + intros [Hb Ht]. constructor; [|exact Ht]. intros bs be Hs He.
      unfold conflicts in Hb. rewrite Hs, He in Hb. simpl in Hb.
      apply andb_false_iff in Hb. destruct Hb as [Hb|Hb]; apply Z.ltb_ge in Hb; lia.
    + intros H. inversion H as [|? ? Hb Ht]; subst. split; [|exact Ht].
      unfold conflicts. destruct (slot_end b) as [be|]; [|reflexivity].
      destruct (slot_start b) as [bs|]; simpl; [|apply andb_false_r].
      apply andb_false_iff. destruct (Hb bs be eq_refl eq_refl); [left|right];
        apply Z.ltb_ge; lia.
Qed.

Lemma slots_loop_invalid fuel busySlots d e :
  slots_loop setNextHour fuel busySlots d e None = Some [].
Proof. destruct fuel; reflexivity. Qed.

Lemma slots_loop_done fuel busySlots d e c :
  (e <= c)%Z -> slots_loop setNextHour fuel busySlots d (Some e) (Some c) = Some [].
Proof.
  intros H. destruct fuel; simpl; destruct (Z.ltb_spec c e); try lia; reflexivity.
Qed.

(** One turn of the loop, when the window is not exhausted. *)
Lemma slots_loop_step fuel busySlots d e c :
  (c < e)%Z ->
  slots_loop setNextHour (S fuel) busySlots d (Some e) (Some c) =
  match slots_loop setNextHour fuel busySlots d (Some e) (setNextHour c) with
  | Some rest =>
      Some (if negb (existsb (conflicts (Some c) (TimeClip (c + d * 60000))) busySlots)
               && le (TimeClip (c + d * 60000)) (Some e)
            then {| slot_start := Some c; slot_end := TimeClip (c + d * 60000) |} :: rest
            else rest)
  | None => None
  end.
Proof.
  intros H. simpl. destruct (Z.ltb_spec c e); [reflexivity | lia].
Qed.

Lemma slots_loop_enough_fuel busySlots d e step :
  advances step setNextHour ->
  forall fuel c, (e - c <= Z.of_nat fuel * step)%Z ->
  exists slots, slots_loop setNextHour fuel busySlots d (Some e) (Some c) = Some slots.
Proof.
  intros [Hstep Hadv]. induction fuel as [|fuel IH]; intros c Hfuel.
  - exists []. apply slots_loop_done. lia.
  - destruct (Z.lt_ge_cases c e) as [Hlt|Hge].
    + rewrite slots_loop_step by exact Hlt.
      destruct (setNextHour c) as [c'|] eqn:Hnext.
      * apply Hadv in Hnext. destruct (IH c') as [rest Hrest]; [lia|].
        rewrite Hrest. eexists. reflexivity.
      * rewrite slots_loop_invalid. eexists. reflexivity.
    + exists []. apply slots_loop_done. lia.
Qed.

Lemma slots_loop_sound busySlots d e step :
  advances step setNextHour ->
  forall fuel c slots,
    slots_loop setNextHour fuel busySlots d (Some e) (Some c) = Some slots ->
    Forall (fun s => exists a, s = slot_at a d /\ (c <= a < e)%Z /\
                               (a + d * 60000 <= e)%Z /\ clear_of busySlots a d) slots /\
    StronglySorted (fun s1 s2 => lt (slot_start s1) (slot_start s2) = true) slots.
Proof.
  intros [Hstep Hadv]. induction fuel as [|fuel IH]; intros c slots Hrun.
  - simpl in Hrun. destruct (c <? e)%Z; inversion Hrun. split; constructor.
  - destruct (Z.lt_ge_cases c e) as [Hlt|Hge].
    2:{ rewrite slots_loop_done in Hrun by lia. inversion Hrun. split; constructor. }
    rewrite slots_loop_step in Hrun by exact Hlt.
    assert (Hrest : exists rest,
               slots_loop setNextHour fuel busySlots d (Some e) (setNextHour c) = Some rest /\
               Forall (fun s => exists a, s = slot_at a d /\ (c < a < e)%Z /\
                                          (a + d * 60000 <= e)%Z /\ clear_of busySlots a d) rest /\
               StronglySorted (fun s1 s2 => lt (slot_start s1) (slot_start s2) = true) rest).
    { destruct (setNextHour c) as [c'|] eqn:Hnext.
      - destruct (slots_loop setNextHour fuel busySlots d (Some e) (Some c')) as [rest|] eqn:E;
          [|discriminate].
        exists rest. split; [reflexivity|]. apply Hadv in Hnext.
        destruct (IH c' rest E) as [Hall Hsorted]. split; [|exact Hsorted].
        eapply Forall_impl; [|exact Hall]. intros s [a [Hs [Hin Hrest]]].
        exists a. split; [exact Hs|]. split; [lia | exact Hrest].
      - rewrite slots_loop_invalid. exists []. repeat split; constructor. }
    destruct Hrest as [rest [Erest [Hall Hsorted]]]. rewrite Erest in Hrun.
    assert (Hweak : Forall (fun s => exists a, s = slot_at a d /\ (c <= a < e)%Z /\
                                     (a + d * 60000 <= e)%Z /\ clear_of busySlots a d) rest).
    { eapply Forall_impl; [|exact Hall]. intros s [a [Hs [Hin Hrest]]].
      exists a. split; [exact Hs|]. split; [lia | exact Hrest]. }
    destruct (negb (existsb (conflicts (Some c) (TimeClip (c + d * 60000))) busySlots)
              && le (TimeClip (c + d * 60000)) (Some e)) eqn:Hguard;
      inversion Hrun; subst; clear Hrun; [|split; assumption].
    apply andb_true_iff in Hguard. destruct Hguard as [Hfree Hfits].
    apply le_TimeClip in Hfits. destruct Hfits as [Hvalid Hfits].
    rewrite (TimeClip_valid _ Hvalid) in *.
    apply negb_true_iff, no_conflict_clear in Hfree. split.
    + constructor; [|exact Hweak]. exists c. split; [reflexivity|].
      split; [lia|]. split; assumption.
    + constructor; [exact Hsorted|].
      eapply Forall_impl; [|exact Hall]. intros s [a [Hs [Hin _]]]. subst s. simpl.
      apply Z.ltb_lt. lia.
Qed.

Lemma grid_next c k : (0 < k)%Z -> (c + k * hour = c + hour + (k - 1) * hour)%Z.
Proof. intros _. unfold hour. lia. Qed.

Lemma slots_loop_grid busySlots d e :
  uniform_hours setNextHour ->
  (e <= maxTime)%Z -> (0 < d)%Z ->
  forall fuel c slots,
    (- maxTime <= c)%Z ->
    slots_loop setNextHour fuel busySlots d (Some e) (Some c) = Some slots ->
    forall a,
      In (slot_at a d) slots <->
      ((exists k, (0 <= k)%Z /\ a = (c + k * hour)%Z) /\
       (a + d * 60000 <= e)%Z /\ clear_of busySlots a d).
Proof.
  intros Huni He Hd. induction fuel as [|fuel IH]; intros c slots Hc Hrun a.
  - simpl in Hrun. destruct (Z.ltb_spec c e); inversion Hrun. simpl.
    split; [tauto|]. intros [[k [Hk Ha]] [Hfit _]]. unfold hour in Ha. lia.
  - destruct (Z.lt_ge_cases c e) as [Hlt|Hge].
    2:{ rewrite slots_loop_done in Hrun by lia. inversion Hrun. simpl.
        split; [tauto|]. intros [[k [Hk Ha]] [Hfit _]]. unfold hour in Ha. lia. }
    rewrite slots_loop_step in Hrun by exact Hlt. rewrite Huni in Hrun.
    assert (Hrest : exists rest,
               slots_loop setNextHour fuel busySlots d (Some e) (TimeClip (c + hour)) = Some rest /\
               forall a, In (slot_at a d) rest <->
                         ((exists k, (0 < k)%Z /\ a = (c + k * hour)%Z) /\
                          (a + d * 60000 <= e)%Z /\ clear_of busySlots a d)).
    { unfold TimeClip. destruct (Z.leb_spec (Z.abs (c + hour)) maxTime) as [Hin|Hout].
      - destruct (slots_loop setNextHour fuel busySlots d (Some e) (Some (c + hour)%Z))
          as [rest|] eqn:E.
        2:{ unfold TimeClip in Hrun.
            destruct (Z.leb_spec (Z.abs (c + hour)) maxTime); [|lia].
            rewrite E in Hrun. discriminate. }
        exists rest. split; [reflexivity|]. intros a'.
        rewrite (IH (c + hour)%Z rest); [|unfold hour; lia | exact E].
        split; intros [[k [Hk Ha]] Hrest]; (split; [|exact Hrest]).
        + exists (k + 1)%Z. split; [lia|]. unfold hour in *. lia.
        + exists (k - 1)%Z. split; [lia|]. unfold hour in *. lia.
      - rewrite slots_loop_invalid. exists []. split; [reflexivity|]. intros a'. simpl.
        split; [tauto|]. intros [[k [Hk Ha]] [Hfit _]]. unfold hour in *. nia. }
    destruct Hrest as [rest [Erest Hrest]]. rewrite Erest in Hrun.
    assert (Hhead : negb (existsb (conflicts (Some c) (TimeClip (c + d * 60000))) busySlots)
                    && le (TimeClip (c + d * 60000)) (Some e) = true <->
                    ((c + d * 60000 <= e)%Z /\ clear_of busySlots c d)).
    { rewrite andb_true_iff, le_TimeClip, negb_true_iff. split.
      - intros [Hfree [Hvalid Hfit]]. rewrite (TimeClip_valid _ Hvalid) in Hfree.
        split; [exact Hfit | now apply no_conflict_clear].
      - intros [Hfit Hclear].
        assert (Hvalid : (Z.abs (c + d * 60000) <= maxTime)%Z) by lia.
        rewrite (TimeClip_valid _ Hvalid). split; [now apply no_conflict_clear | tauto]. }
    destruct (negb (existsb (conflicts (Some c) (TimeClip (c + d * 60000))) busySlots)
              && le (TimeClip (c + d * 60000)) (Some e)) eqn:Hguard;
      inversion Hrun; subst; clear Hrun.
    + destruct Hhead as [Hhead _]. specialize (Hhead eq_refl). destruct Hhead as [Hfit Hclear].
      assert (Hvalid : (Z.abs (c + d * 60000) <= maxTime)%Z) by lia.
      rewrite (TimeClip_valid _ Hvalid). simpl. rewrite Hrest. split.
      * intros [Heq | [[k [Hk Ha]] Hr]].
        -- unfold slot_at in Heq. injection Heq as Heq _. subst a.
           split; [|split; assumption]. exists 0%Z. split; [lia | unfold hour; lia].
        -- split; [|exact Hr]. exists k. split; [lia | exact Ha].
      * intros [[k [Hk Ha]] Hr].
        destruct (Z.eq_dec k 0) as [->|Hpos].
        -- left. unfold slot_at. subst a. repeat f_equal; unfold hour; lia.
        -- right. split; [|exact Hr]. exists k. split; [lia | exact Ha].
    + rewrite Hrest. split.
      * intros [[k [Hk Ha]] Hr]. split; [|exact Hr]. exists k. split; [lia | exact Ha].
      * intros [[k [Hk Ha]] Hr].
        destruct (Z.eq_dec k 0) as [->|Hpos].
        -- exfalso. rewrite Ha in Hr. replace (c + 0 * hour)%Z with c in Hr by lia.
           destruct Hhead as [_ Hhead]. specialize (Hhead Hr). discriminate.
        -- split; [|exact Hr]. exists k. split; [lia | exact Ha].
Qed.

(** X23: in a process whose hours all last an hour, for a window of
    valid dates and a positive duration, the loop returns exactly the free
    slots of the hourly grid laid from the start of the window: a slot
    from [a] is returned if and only if [a] is a whole number of hours
    after the start, the slot ends within the window, and it overlaps no
    busy period with valid times.  The grid is laid in hours whatever the
    duration. *)
Theorem available_slots_fill_the_hourly_grid (fuel : nat) (busySlots : list Slot)
    (startDate endDate durationMinutes : Z) (slots : list Slot) :
  uniform_hours setNextHour ->
  (- maxTime <= startDate)%Z -> (endDate <= maxTime)%Z -> (0 < durationMinutes)%Z ->
  slots_loop setNextHour fuel busySlots durationMinutes (Some endDate) (Some startDate)
    = Some slots ->
  forall a,
    In (slot_at a durationMinutes) slots <->
    ((exists k, (0 <= k)%Z /\ a = (startDate + k * hour)%Z) /\
     (a + durationMinutes * 60000 <= endDate)%Z /\
     clear_of busySlots a durationMinutes).
Proof.
  intros Huni Hs He Hd Hrun. eapply slots_loop_grid; eassumption.
Qed.

Lemma dated_conflicts slotStart slotEnd busySlots :
  existsb (conflicts slotStart slotEnd) (filter dated busySlots) =
  existsb (conflicts slotStart slotEnd) busySlots.
Proof.
  induction busySlots as [|b t IH]; simpl; [reflexivity|].
  unfold dated at 1. destruct (slot_start b) as [bs|] eqn:Es.
  - destruct (slot_end b) as [be|] eqn:Ee; simpl; rewrite IH; [reflexivity|].
    unfold conflicts at 2. rewrite Ee. destruct slotStart; reflexivity.
  - rewrite IH. unfold conflicts at 2. rewrite Es. simpl. now rewrite andb_false_r.
Qed.

End CalendarLoop.

Section CalendarFacts.

Import Calendar.

Context {X : Type}.
Variable Date_parse : string -> Date.
Variable toISOString : Z -> string.
Variable setNextHour : Z -> Date.
Variable events_list : ListRequest -> X -> Res (option (list CalendarEvent)) * X.

(** What [getEvents] does with a valid window. *)
Lemma getEvents_window timeMin timeMax n (w : World X) :
  getEvents toISOString events_list (Some (Some timeMin)) (Some (Some timeMax)) n w =
  match events_list {| Calendar.timeMin := Some (toISOString timeMin);
                       Calendar.timeMax := Some (toISOString timeMax);
                       maxResults := n |} (ext w) with
  | (Ok items, x) =>
      (Ok (match items with Some l => l | None => [] end),
       {| db := db w; ext := x; trace := trace w |})
  | (Throw error, x) =>
      (Throw error,
       {| db := db w; ext := x;
          trace := trace w ++ [EvLog "Error fetching calendar events:" (Some error)] |})
  end.
Proof.
  unfold getEvents, try_catch, bind, lift, iso, calendar_events_list, ret, console, emit, throw.
  simpl. destruct (events_list _ (ext w)) as [[items|error] x]; reflexivity.
Qed.

(** What [getAvailableSlots] does with a valid window. *)
Lemma getAvailableSlots_window fuel startDate endDate durationMinutes (w : World X) :
  getAvailableSlots Date_parse toISOString setNextHour events_list
    fuel (Some startDate) (Some endDate) durationMinutes w =
  match events_list {| Calendar.timeMin := Some (toISOString startDate);
                       Calendar.timeMax := Some (toISOString endDate);
                       maxResults := 50 |} (ext w) with
  | (Ok items, x) =>
      (Ok (slots_loop setNextHour fuel
             (map (busySlot Date_parse) (match items with Some l => l | None => [] end))
             (match durationMinutes with Some d => d | None => 60%Z end)
             (Some endDate) (Some startDate)),
       {| db := db w; ext := x; trace := trace w |})
  | (Throw error, x) =>
      (Throw error,
       {| db := db w; ext := x;
          trace := trace w ++ [EvLog "Error fetching calendar events:" (Some error);
                               EvLog "Error getting available slots:" (Some error)] |})
  end.
Proof.
  cbv beta iota zeta delta [getAvailableSlots try_catch bind ret].
  rewrite getEvents_window.
  destruct (events_list _ (ext w)) as [[items|error] x]; [reflexivity|].
  unfold console, emit, throw. simpl. rewrite <- app_assoc. reflexivity.
Qed.

(** X24: between two valid dates, when each hour step moves forward by
    [step] milliseconds at least and the loop is given a turn for every
    [step] of the window, the slot finder returns; it rethrows
    what the event lookup threw, and otherwise every slot it returns
    starts inside the window, lasts exactly the requested number of
    minutes (60 when none is given), ends no later than the window and
    overlaps no listed event with valid times; the slots come in
    strictly ascending order of start. *)
Theorem available_slots_are_free (fuel : nat) (startDate endDate : Z)
    (durationMinutes : option Z) (step : Z) (w : World X) :
  advances step setNextHour ->
  (endDate - startDate <= Z.of_nat fuel * step)%Z ->
  let d := match durationMinutes with Some d => d | None => 60%Z end in
  let result := fst (getAvailableSlots Date_parse toISOString setNextHour events_list
                       fuel (Some startDate) (Some endDate) durationMinutes w) in
  match listed toISOString events_list startDate endDate (ext w) with
  | Throw error => result = Throw error
  | Ok events =>
      exists slots,
        result = Ok (Some slots) /\
        Forall (fun s => exists a, s = slot_at a d /\
                                   (startDate <= a < endDate)%Z /\
                                   (a + d * 60000 <= endDate)%Z /\
                                   clear_of (map (busySlot Date_parse) events) a d) slots /\
        StronglySorted (fun s1 s2 => lt (slot_start s1) (slot_start s2) = true) slots
  end.
Proof.
  intros Hadv Hfuel d result. subst result.
  rewrite getAvailableSlots_window. unfold listed. fold d.
  destruct (events_list _ (ext w)) as [[items|error] x]; simpl; [|reflexivity].
  set (events := match items with Some l => l | None => [] end).
  destruct (@slots_loop_enough_fuel setNextHour (map (busySlot Date_parse) events) d endDate
              step Hadv fuel startDate Hfuel) as [slots Hslots].
  assert (Hgoal : exists slots0,
             Ok (slots_loop setNextHour fuel (map (busySlot Date_parse) events) d
                   (Some endDate) (Some startDate)) = Ok (Some slots0) /\
             Forall (fun s => exists a, s = slot_at a d /\
                                        (startDate <= a < endDate)%Z /\
                                        (a + d * 60000 <= endDate)%Z /\
                                        clear_of (map (busySlot Date_parse) events) a d) slots0 /\
             StronglySorted (fun s1 s2 => lt (slot_start s1) (slot_start s2) = true) slots0).
  { exists slots. rewrite Hslots. split; [reflexivity|].
    eapply slots_loop_sound; eassumption. }
  destruct items as [l|]; exact Hgoal.
Qed.

(** X25: a listed event whose start or end is missing or does not parse
    to a date never blocks a slot: the loop returns the same slots as when
    that event is left out. *)
Theorem undated_events_block_nothing (fuel : nat) (events : list CalendarEvent)
    (durationMinutes : Z) (endDate current : Date) :
  slots_loop setNextHour fuel (map (busySlot Date_parse) events)
    durationMinutes endDate current =
  slots_loop setNextHour fuel (filter dated (map (busySlot Date_parse) events))
    durationMinutes endDate current.
Proof.
  revert current. induction fuel as [|fuel IH]; intros current; simpl; [reflexivity|].
  rewrite dated_conflicts, IH. reflexivity.
Qed.

(** X26: with an Invalid Date as either end of the window the slot finder
    throws the [RangeError] of [toISOString]; the calendar is not
    contacted, and the error is logged by the event lookup and by the slot
    finder. *)
Theorem invalid_window_is_rejected (fuel : nat) (startDate endDate : Date)
    (durationMinutes : option Z) (w : World X) :
  startDate = None \/ endDate = None ->
  getAvailableSlots Date_parse toISOString setNextHour events_list
    fuel startDate endDate durationMinutes w =
  (Throw RangeError,
   {| db := db w; ext := ext w;
      trace := trace w ++ [EvLog "Error fetching calendar events:" (Some RangeError);
                           EvLog "Error getting available slots:" (Some RangeError)] |}).
Proof.
  intros H.
  unfold getAvailableSlots, getEvents, try_catch, bind, lift, iso, console, emit, throw.
  destruct startDate as [s|]; [destruct endDate as [e|]; [destruct H; discriminate|]|];
    simpl; rewrite <- app_assoc; reflexivity.
Qed.

Lemma mentions_case q q' text :
  same_up_to_case q q' -> mentions q text = mentions q' text.
Proof. intros H. unfold mentions. destruct text; [now rewrite H | reflexivity]. Qed.

Lemma includes_empty s : JsString.includes "" s = true.
Proof. destruct s; reflexivity. Qed.

(** X27: the event search ignores the case of the query; with an empty
    query it keeps exactly the events that have a summary or a
    description. *)
Theorem event_search_ignores_case (query query' : string) (timeMin timeMax : option Date)
    (w : World X) :
  same_up_to_case query query' ->
  searchEvents toISOString events_list query timeMin timeMax w =
  searchEvents toISOString events_list query' timeMin timeMax w /\
  (forall event, event_matches "" event = true <->
                 (ev_summary event <> None \/ ev_description event <> None)).
Proof.
  intros H. split.
  - unfold searchEvents, try_catch, bind.
    destruct (getEvents toISOString events_list timeMin timeMax 100 w) as [[events|error] w'];
      [|reflexivity].
    unfold ret. f_equal. f_equal. apply filter_ext. intros event. unfold event_matches.
    now rewrite !(mentions_case _ H).
  - intros event. unfold event_matches, mentions.
    destruct (ev_summary event), (ev_description event); simpl;
      rewrite ?includes_empty; simpl; split; intros; try discriminate; auto;
      try (left; discriminate); try (right; discriminate).
    destruct H0; congruence.
Qed.

End CalendarFacts.

Lemma utc_advances : Calendar.advances Calendar.hour CalendarScenario.utc.
Proof.
  split; [reflexivity|]. intros t t'. unfold CalendarScenario.utc, Calendar.TimeClip.
  destruct (Z.abs (t + Calendar.hour) <=? Calendar.maxTime)%Z; intros H; inversion H. lia.
Qed.

(** A morning from nine to one with a meeting from ten to eleven, under
    UTC, four turns of the loop. *)
Lemma available_slots_are_free_witness :
  Calendar.advances Calendar.hour CalendarScenario.utc /\
  exists slots,
    fst (Calendar.getAvailableSlots CalendarScenario.parse CalendarScenario.iso
           CalendarScenario.utc CalendarScenario.events_list 4
           (Some (9 * Calendar.hour)%Z) (Some (13 * Calendar.hour)%Z) None
           (Fixture.world Fixture.database)) = Ok (Some slots) /\
    Forall (fun s => exists a, s = Calendar.slot_at a 60 /\
                               (9 * Calendar.hour <= a < 13 * Calendar.hour)%Z /\
                               (a + 60 * 60000 <= 13 * Calendar.hour)%Z /\
                               Calendar.clear_of
                                 (map (Calendar.busySlot CalendarScenario.parse)
                                      [CalendarScenario.meeting; CalendarScenario.undated])
                                 a 60) slots /\
    StronglySorted
      (fun s1 s2 => Calendar.lt (Calendar.slot_start s1) (Calendar.slot_start s2) = true) slots.
Proof.
  split; [exact utc_advances|].
  refine (@available_slots_are_free unit CalendarScenario.parse CalendarScenario.iso
            CalendarScenario.utc CalendarScenario.events_list 4
            (9 * Calendar.hour)%Z (13 * Calendar.hour)%Z None Calendar.hour
            (Fixture.world Fixture.database) utc_advances _).
  vm_compute. discriminate.
Defined.

(** The same morning: the slots at nine, eleven and twelve; the one at
    eleven is returned as the grid has it. *)
Lemma available_slots_fill_the_hourly_grid_witness :
  In (Calendar.slot_at (11 * Calendar.hour) 60)
     [Calendar.slot_at (9 * Calendar.hour) 60; Calendar.slot_at (11 * Calendar.hour) 60;
      Calendar.slot_at (12 * Calendar.hour) 60] <->
  ((exists k, (0 <= k)%Z /\
              (11 * Calendar.hour)%Z = (9 * Calendar.hour + k * Calendar.hour)%Z) /\
   (11 * Calendar.hour + 60 * 60000 <= 13 * Calendar.hour)%Z /\
   Calendar.clear_of
     (map (Calendar.busySlot CalendarScenario.parse)
          [CalendarScenario.meeting; CalendarScenario.undated]) (11 * Calendar.hour) 60).
Proof.
  apply (@available_slots_fill_the_hourly_grid CalendarScenario.utc 4
           (map (Calendar.busySlot CalendarScenario.parse)
                [CalendarScenario.meeting; CalendarScenario.undated])
           (9 * Calendar.hour)%Z (13 * Calendar.hour)%Z 60%Z).
  - intros t. reflexivity.
  - vm_compute. discriminate.
  - vm_compute. discriminate.
  - reflexivity.
  - vm_compute. reflexivity.
Defined.

(** A window whose start did not parse. *)
Lemma invalid_window_is_rejected_witness :
  fst (Calendar.getAvailableSlots CalendarScenario.parse CalendarScenario.iso
         CalendarScenario.utc CalendarScenario.events_list 4
         None (Some (13 * Calendar.hour)%Z) None (Fixture.world Fixture.database))
  = Throw Calendar.RangeError.
Proof.
  rewrite (@invalid_window_is_rejected unit CalendarScenario.parse CalendarScenario.iso
             CalendarScenario.utc CalendarScenario.events_list 4
             None (Some (13 * Calendar.hour)%Z) None (Fixture.world Fixture.database)
             (or_introl eq_refl)).
  reflexivity.
Defined.

(** The query in capitals and in small letters. *)
Lemma event_search_ignores_case_witness :
  Calendar.searchEvents CalendarScenario.iso CalendarScenario.events_list
    "REVIEW" None None (Fixture.world Fixture.database) =
  Calendar.searchEvents CalendarScenario.iso CalendarScenario.events_list
    "review" None None (Fixture.world Fixture.database).
Proof.
  apply (@event_search_ignores_case unit CalendarScenario.iso CalendarScenario.events_list
           "REVIEW" "review" None None (Fixture.world Fixture.database)).
  reflexivity.
Defined.

(* ================================================================== *)
(** ** The import of the mailbox *)
(* ================================================================== *)

Section ImporterLoop.

Import Importer.

Context {X : Type}.
Variable env : Env X.
Variable table_fault : TableOp -> X -> option JsThrown * X.
Variable new_id : X -> string * X.

Lemma grown_same userId (w w' : World X) : db w' = db w -> grown userId w w'.
Proof.
  intros H. unfold grown. rewrite H. repeat split; try reflexivity.
  exists []. rewrite app_nil_r. repeat split; constructor.
Qed.

Lemma grown_trans userId (w1 w2 w3 : World X) :
  grown userId w1 w2 -> grown userId w2 w3 -> grown userId w1 w3.
Proof.
  intros [Hu1 [Hc1 [a1 [He1 [Ho1 [Hn1 Hf1]]]]]] [Hu2 [Hc2 [a2 [He2 [Ho2 [Hn2 Hf2]]]]]].
  unfold grown. split; [congruence|]. split; [congruence|].
  exists (a1 ++ a2). rewrite He2, He1, app_assoc. split; [reflexivity|].
  split; [apply Forall_app; split; assumption|].
  rewrite He1 in Hf2. split.
  - rewrite map_app. apply NoDup_app; [assumption | assumption |].
    intros m Hin1 Hin2. apply in_map_iff in Hin2. destruct Hin2 as [r [Hr Hin2]].
    rewrite Forall_forall in Hf2. apply (Hf2 r Hin2). rewrite map_app, in_app_iff.
    right. now rewrite Hr.
  - apply Forall_app. split; [exact Hf1|].
    eapply Forall_impl; [|exact Hf2]. intros r Hr Hin. apply Hr.
    rewrite map_app, in_app_iff. now left.
Qed.


Lemma grown_stored userId (w w' : World X) message :
  grown userId w w' -> stored (db w) message -> stored (db w') message.
Proof.
  intros [_ [_ [added [He _]]]] [r [Hin Hr]]. exists r. split; [|exact Hr].
  rewrite He. apply in_app_iff. now left.
Qed.

Lemma keeps_bind {A B} userId (m : M X A) (k : A -> M X B) :
  keeps (grown userId) m -> (forall a, keeps (grown userId) (k a)) ->
  keeps (grown userId) (bind m k).
Proof.
  intros Hm Hk w r w' Hrun. apply bind_inv in Hrun.
  destruct Hrun as [[a [w1 [H1 H2]]] | [e [H1 _]]].
  - eapply grown_trans; [eapply Hm | eapply Hk]; eassumption.
  - eapply Hm; eassumption.
Qed.



Lemma table_call_run op (w : World X) r w' :
  table_call table_fault op w = (r, w') ->
  db w' = db w /\ trace w' = trace w /\
  (r = Ok tt \/ exists e, r = Throw e) /\
  (fst (table_fault op (ext w)) = None -> r = Ok tt).
Proof.
  unfold table_call. destruct (table_fault op (ext w)) as [[e|] x]; simpl;
    intros H; inversion H; subst; simpl; repeat split; eauto; discriminate.
Qed.

Lemma findUnique_run messageId (w : World X) r w' :
  emailEmbedding_findUnique table_fault messageId w = (r, w') ->
  db w' = db w /\ trace w' = trace w /\
  (r = Ok (find (has_message messageId) (emailEmbedding (db w))) \/ exists e, r = Throw e) /\
  (fst (table_fault (EmailFindUnique messageId) (ext w)) = None ->
   r = Ok (find (has_message messageId) (emailEmbedding (db w)))).
Proof.
  unfold emailEmbedding_findUnique. intros H. apply bind_inv in H.
  destruct H as [[[] [w1 [H1 H2]]] | [e [H1 ->]]];
    apply table_call_run in H1; destruct H1 as [Hdb [Htr [Hres Hok]]].
  - unfold bind, getDb, ret in H2. inversion H2; subst. rewrite Hdb.
    repeat split; auto.
  - repeat split; eauto. intros Hnone. specialize (Hok Hnone). discriminate.
Qed.

Lemma create_run userId message embedding (w : World X) r w' :
  emailEmbedding_create table_fault new_id userId message embedding w = (r, w') ->
  trace w' = trace w /\ grown userId w w' /\
  ((exists e, r = Throw e) \/ (r = Ok tt /\ stored (db w') message)).
Proof.
  unfold emailEmbedding_create. intros H. apply bind_inv in H.
  destruct H as [[[] [w1 [H1 H2]]] | [e [H1 ->]]];
    apply table_call_run in H1; destruct H1 as [Hdb [Htr _]].
  2:{ split; [exact Htr|]. split; [now apply grown_same|]. left. eauto. }
  destruct (g_date message) as [date|].
  2:{ inversion H2; subst. split; [exact Htr|]. split; [now apply grown_same|]. left. eauto. }
  unfold bind at 1, getDb in H2.
  destruct (existsb (has_message (g_id message)) (emailEmbedding (db w1))) eqn:Hex.
  { inversion H2; subst. split; [exact Htr|]. split; [now apply grown_same|]. left. eauto. }
  unfold bind, generate_id, insert_row in H2.
  destruct (new_id (ext w1)) as [id x]. inversion H2; subst; clear H2. simpl.
  split; [exact Htr|]. rewrite Hdb in Hex |- *. split.
  - unfold grown. simpl. split; [reflexivity|]. split; [reflexivity|].
    eexists. split; [reflexivity|].
    split; [constructor; [reflexivity | constructor]|].
    split; [simpl; constructor; [simpl; tauto | constructor]|].
    constructor; [|constructor]. simpl. intros Hin. apply in_map_iff in Hin.
    destruct Hin as [r [Hr Hin]].
    assert (Hcontra : existsb (has_message (g_id message)) (emailEmbedding (db w)) = true).
    { apply existsb_exists. exists r. split; [exact Hin|]. unfold has_message.
      now apply String.eqb_eq. }
    congruence.
  - right. split; [reflexivity|]. eexists. split; [apply in_app_iff; right; now left|].
    reflexivity.
Qed.

Lemma create_ok userId message embedding (w : World X) :
  fst (table_fault (EmailCreate (g_id message)) (ext w)) = None ->
  g_date message <> None ->
  find (has_message (g_id message)) (emailEmbedding (db w)) = None ->
  exists w', emailEmbedding_create table_fault new_id userId message embedding w = (Ok tt, w').
Proof.
  intros Hup Hdate Hnew. unfold emailEmbedding_create, bind at 1, table_call.
  destruct (table_fault _ (ext w)) as [[e|] x]; simpl in Hup; [discriminate|].
  destruct (g_date message) as [date|]; [|congruence].
  unfold bind at 1, getDb. simpl.
  assert (Hex : existsb (has_message (g_id message)) (emailEmbedding (db w)) = false).
  { destruct (existsb _ _) eqn:E; [|reflexivity]. apply existsb_exists in E.
    destruct E as [r [Hin Hr]]. now rewrite (find_none _ _ Hnew r Hin) in Hr. }
  rewrite Hex. unfold bind, generate_id, insert_row. simpl.
  destruct (new_id x) as [id x']. eexists. reflexivity.
Qed.

Lemma embedding_for_run rag message (w : World X) r w' :
  embedding_for env rag message w = (r, w') ->
  db w' = db w /\ exists embedding, r = Ok embedding.
Proof.
  unfold embedding_for. destruct (rag_isOpenAIAvailable rag && rag_embeddings rag).
  - unfold try_catch, bind, embeddings_embedQuery, console, emit, ret.
    destruct (embedQuery env (message_text message) (ext w)) as [[e|err] x];
      intros H; inversion H; subst; simpl; eauto.
  - intros H. inversion H; subst. eauto.
Qed.

Lemma keeps_store_messages rag userId messages :
  keeps (grown userId) (store_messages env table_fault new_id rag userId messages).
Proof.
  induction messages as [|message rest IH]; simpl.
  - intros w r w' H. inversion H; subst. now apply grown_same.
  - apply keeps_bind.
    + intros w r w' H. apply findUnique_run in H. now apply grown_same.
    + intros [existing|]; [exact IH|]. apply keeps_bind.
      * intros w r w' H. apply embedding_for_run in H. now apply grown_same.
      * intros embedding. apply keeps_bind; [|intros _; exact IH].
        intros w r w' H. now apply create_run in H.
Qed.

Lemma store_messages_stored rag userId messages : forall (w w' : World X),
  store_messages env table_fault new_id rag userId messages w = (Ok tt, w') ->
  Forall (stored (db w')) messages.
Proof.
  induction messages as [|message rest IH]; intros w w' Hrun; [constructor|].
  simpl in Hrun. apply bind_inv in Hrun.
  destruct Hrun as [[existing [w1 [H1 H2]]] | [e [_ Habs]]]; [|discriminate].
  apply findUnique_run in H1. destruct H1 as [Hdb1 [_ [[Hres | [e Hres]] _]]];
    [|discriminate].
  injection Hres as Hres. destruct existing as [r|].
  - constructor; [|eapply IH; eassumption].
    apply (@grown_stored userId w1 w').
    + eapply keeps_store_messages; eassumption.
    + symmetry in Hres. destruct (find_some _ _ Hres) as [Hin Hid].
      exists r. rewrite Hdb1. split; [exact Hin|]. now apply String.eqb_eq.
  - apply bind_inv in H2.
    destruct H2 as [[embedding [w2 [H2 H3]]] | [e [_ Habs]]]; [|discriminate].
    apply bind_inv in H3.
    destruct H3 as [[[] [w3 [H3 H4]]] | [e [_ Habs]]]; [|discriminate].
    constructor; [|eapply IH; eassumption].
    apply (@grown_stored userId w3 w').
    + eapply keeps_store_messages; eassumption.
    + apply create_run in H3. destruct H3 as [_ [_ [[e He] | [_ Hst]]]];
        [discriminate | exact Hst].
Qed.

(** X28: a failing embedding model never aborts the import loop: as long
    as the message table answers and every message has a valid date, the
    loop returns normally, whatever the embedding model does, and
    afterwards every listed message is in the table. *)
Theorem import_survives_embedding_failure (rag : RAGService) (userId : string)
    (messages : list GmailMessage) (w : World X) :
  (forall op x, fst (table_fault op x) = None) ->
  Forall (fun message => g_date message <> None) messages ->
  exists w',
    store_messages env table_fault new_id rag userId messages w = (Ok tt, w') /\
    Forall (stored (db w')) messages.
Proof.
  intros Hup Hdates.
  assert (Hreturns : exists w', store_messages env table_fault new_id rag userId messages w
                                = (Ok tt, w')).
  { revert w. induction Hdates as [|message rest Hdate _ IH]; intros w; simpl.
    - eexists. reflexivity.
    - unfold bind at 1.
      destruct (emailEmbedding_findUnique table_fault (g_id message) w) as [r w1] eqn:E1.
      apply findUnique_run in E1. destruct E1 as [Hdb1 [_ [_ Hok]]].
      rewrite (Hok (Hup _ _)). destruct (find _ _) as [row|] eqn:Hfind; [apply IH|].
      unfold bind at 1.
      destruct (embedding_for env rag message w1) as [r2 w2] eqn:E2.
      apply embedding_for_run in E2. destruct E2 as [Hdb2 [embedding ->]].
      unfold bind at 1.
      destruct (@create_ok userId message embedding w2 (Hup _ _) Hdate) as [w3 E3].
      { rewrite Hdb2, Hdb1. exact Hfind. }
      rewrite E3. apply IH. }
  destruct Hreturns as [w' Hrun]. exists w'. split; [exact Hrun|].
  eapply store_messages_stored; eassumption.
Qed.

Lemma store_messages_again rag userId messages : forall (w : World X) r w',
  Forall (stored (db w)) messages ->
  store_messages env table_fault new_id rag userId messages w = (r, w') ->
  db w' = db w /\ trace w' = trace w.
Proof.
  induction messages as [|message rest IH]; intros w r w' Hall Hrun; simpl in Hrun.
  - inversion Hrun; subst. split; reflexivity.
  - inversion Hall as [|? ? Hst Hrest]; subst.
    apply bind_inv in Hrun.
    destruct Hrun as [[existing [w1 [H1 H2]]] | [e [H1 _]]];
      apply findUnique_run in H1; destruct H1 as [Hdb1 [Htr1 [Hres _]]];
      [|split; assumption].
    destruct Hres as [Hres | [e Hres]]; [|discriminate].
    injection Hres as ->.
    destruct (find _ _) as [row|] eqn:Hfind.
    + rewrite <- Hdb1 in Hrest. destruct (IH w1 r w' Hrest H2) as [Hdb Htr].
      split; congruence.
    + exfalso. destruct Hst as [row [Hin Hid]].
      pose proof (find_none _ _ Hfind row Hin) as Hno. unfold has_message in Hno.
      rewrite Hid, String.eqb_refl in Hno. discriminate.
Qed.

(** X29: importing is idempotent: when the loop has gone through a list of
    messages and returned, going through the same list again, from any
    world with the same tables, stores nothing and requests no embedding:
    the tables and the trace are left as they were. *)
Theorem reimport_adds_nothing (rag : RAGService) (userId : string)
    (messages : list GmailMessage) (w w1 w2 : World X) :
  store_messages env table_fault new_id rag userId messages w = (Ok tt, w1) ->
  db w2 = db w1 ->
  let w3 := snd (store_messages env table_fault new_id rag userId messages w2) in
  db w3 = db w2 /\ trace w3 = trace w2.
Proof.
  intros Hrun Hsame w3.
  destruct (store_messages env table_fault new_id rag userId messages w2) as [r w'] eqn:E.
  subst w3. simpl. eapply store_messages_again; [|exact E]. rewrite Hsame.
  eapply store_messages_stored; eassumption.
Qed.

End ImporterLoop.

Section ImporterFacts.

Import Importer.

Context {X : Type}.
Variable env : Env X.
Variable getMessages : GmailService -> X -> Res (list GmailMessage) * X.
Variable table_fault : TableOp -> X -> option JsThrown * X.
Variable new_id : X -> string * X.





End ImporterFacts.

(** The advisor's table holds three messages; the mailbox lists one of
    them and a new one twice, and the embedding model is down. *)
Lemma import_survives_embedding_failure_witness :
  exists w',
    Importer.store_messages ImportScenario.environment ImportScenario.table_up
      ImportScenario.row_id Fixture.rag_on "u1" ImportScenario.letters ImportScenario.start
    = (Ok tt, w') /\
    Forall (Importer.stored (db w')) ImportScenario.letters.
Proof.
  apply (@import_survives_embedding_failure unit ImportScenario.environment
           ImportScenario.table_up ImportScenario.row_id
           Fixture.rag_on "u1" ImportScenario.letters ImportScenario.start).
  - intros op x. reflexivity.
  - repeat constructor; discriminate.
Defined.

(** The same list of messages, gone through twice. *)
Lemma reimport_adds_nothing_witness :
  let pass := Importer.store_messages ImportScenario.environment ImportScenario.table_up
                ImportScenario.row_id Fixture.rag_on "u1" ImportScenario.letters in
  let w1 := snd (pass ImportScenario.start) in
  let w3 := snd (pass w1) in
  db w3 = db w1 /\ trace w3 = trace w1.
Proof.
  intros pass w1.
  apply (@reimport_adds_nothing unit ImportScenario.environment
           ImportScenario.table_up ImportScenario.row_id
           Fixture.rag_on "u1" ImportScenario.letters ImportScenario.start w1 w1).
  - vm_compute. reflexivity.
  - reflexivity.
Defined.

